(** * Differential Evolution optimizer (de/DifferentialEvolution.h)

    A shallow embedding of [de::IOptimizable] and [de::DifferentialEvolution]
    and the properties of the engine: best tracking, trial construction,
    greedy selection, the feasibility gate, the cost cache, construction,
    reproducibility, donor selection and the [Optimize] driver.

    [double] is IEEE binary64, modelled by Rocq's primitive floats, every
    operation rounded to binary64 on its own.  [int] values that come out
    of a [double] conversion are [Z]; sizes and loop counters are [nat].
    [assert] is enabled, as the header leaves it.  The pseudo-random engine
    of the C++ standard library is not part of the repository and is an
    interface here. *)

From Stdlib Require Import ZArith Floats Lia Bool.
From Stdlib Require Uint63.
From stdpp Require Import base list.

Set Warnings "-inexact-float".
Open Scope Z_scope.

(* ===================================================================== *)
(** * Outcomes of running a piece of the program *)
(* ===================================================================== *)

(** A call either returns, or runs longer than the fuel it was given (the
    two retry loops have no bound of their own), or leaves the defined
    behaviour of C++ (an index outside a vector, a [double] that does not
    fit the [int] it is converted to), or stops on a failed [assert]. *)
Inductive result (A : Type) : Type :=
| Done (a : A)
| OutOfFuel
| Undefined
| AssertionFailed.
Arguments Done {A} a.
Arguments OutOfFuel {A}.
Arguments Undefined {A}.
Arguments AssertionFailed {A}.

#[global] Instance result_ret : MRet result := fun A a => Done a.
#[global] Instance result_bind : MBind result := fun A B f m =>
  match m with
  | Done a => f a
  | OutOfFuel => OutOfFuel
  | Undefined => Undefined
  | AssertionFailed => AssertionFailed
  end.

(** [v[i]] for a [std::vector] and an [int] index. *)
Definition vec_at {A : Type} (v : list A) (i : Z) : result A :=
  if i <? 0 then Undefined
  else match v !! Z.to_nat i with
       | Some a => Done a
       | None => Undefined
       end.

(** [v[i] = a]. *)
Definition vec_set {A : Type} (v : list A) (i : nat) (a : A) : result (list A) :=
  if (i <? length v)%nat then Done (<[i := a]> v) else Undefined.

(** A loop [for (int i = 0; i < n; i++)] that computes one value per
    index. *)
Definition for_each {A : Type} (n : nat) (body : nat -> result A) : result (list A) :=
  mapM body (seq 0 n).

(* ===================================================================== *)
(** * Numbers *)
(* ===================================================================== *)

Definition INT_MIN : Z := -2147483648.
Definition INT_MAX : Z := 2147483647.

(** Conversion of a [double] to [int]: the fractional part is discarded;
    the behaviour is undefined when the result does not fit. *)
Definition double_to_int (d : float) : result Z :=
  match Prim2SF d with
  | S754_zero _ => Done 0
  | S754_finite s m e =>
      if 31 <? e then Undefined
      else
        let q := if 0 <=? e then Z.pos m * 2 ^ e else Z.pos m / 2 ^ (- e) in
        let v := if s then - q else q in
        if (INT_MIN <=? v) && (v <=? INT_MAX) then Done v else Undefined
  | S754_infinity _ | S754_nan => Undefined
  end.

(** Conversion of an [unsigned int] to [double] (exact: 32 bits fit the
    53-bit significand). *)
Definition double_of_unsigned (n : nat) : float :=
  PrimFloat.of_uint63 (Uint63.of_Z (Z.of_nat n)).

(** The [double] [d] is the integer [n]. *)
Definition is_integer_double (d : float) (n : Z) : Prop :=
  match Prim2SF d with
  | S754_zero _ => n = 0
  | S754_finite false m e =>
      if 0 <=? e then n = Z.pos m * 2 ^ e else Z.pos m = n * 2 ^ (- e)
  | _ => False
  end.

(** [x >= y] on [double]. *)
Definition geb (x y : float) : bool := (y <=? x)%float.

(* ===================================================================== *)
(** * IOptimizable *)
(* ===================================================================== *)

Record Constraints : Type := mkConstraints {
  lower : float;
  upper : float;
  isConstrained : bool
}.

(** [Constraints(double lower = 0.0, double upper = 1.0, bool isConstrained = false)] *)
Definition Constraints_default : Constraints := mkConstraints 0 1 false.

Definition Check (c : Constraints) (candidate : float) : bool :=
  if isConstrained c then
    if (candidate <=? upper c)%float && geb candidate (lower c) then true else false
  else true.

Record IOptimizable : Type := mkOptimizable {
  EvaluteCost : list float -> float;
  NumberOfParameters : nat;
  GetConstraints : list Constraints
}.

(* ===================================================================== *)
(** * The random engine *)
(* ===================================================================== *)

(** [std::default_random_engine] with [seed], and one draw of a
    [std::uniform_real_distribution<double>(a, b)] from it. *)
Class RandomEngine (Gen : Type) : Type := {
  seed : Z -> Gen;
  uniform_real_distribution : float -> float -> Gen -> float * Gen
}.

(* ===================================================================== *)
(** * DifferentialEvolution *)
(* ===================================================================== *)

Section Engine.
Context {Gen : Type} {RE : RandomEngine Gen}.

(** The members that the methods assign. *)
Record State : Type := mkState {
  m_generator : Gen;
  m_population : list (list float);
  m_minCostPerAgent : list float;
  m_bestAgentIndex : Z;
  m_minCost : float
}.

(** The members fixed by the constructor.  The callback and the
    termination condition receive the object by const reference. *)
Record DifferentialEvolution : Type := mkDE {
  m_cost : IOptimizable;
  m_populationSize : nat;
  m_F : float;
  m_CR : float;
  m_numberOfParameters : nat;
  m_shouldCheckConstraints : bool;
  m_callback : option (State -> unit);
  m_terminationCondition : option (State -> bool);
  m_constraints : list Constraints
}.

Definition g_defaultLowerConstraint : float := neg_infinity.
Definition g_defaultUpperConstarint : float := infinity.

Definition vec_get {A : Type} (v : list A) (i : nat) : result A :=
  vec_at v (Z.of_nat i).

(** ** Constructor *)

Definition construct (costFunction : IOptimizable) (populationSize : nat)
    (randomSeed : Z) (shouldCheckConstraints : bool)
    (callback : option (State -> unit))
    (terminationCondition : option (State -> bool))
  : result (DifferentialEvolution * State) :=
  let generator := seed randomSeed in
  if (4 <=? populationSize)%nat then
    let numberOfParameters := NumberOfParameters costFunction in
    Done ({| m_cost := costFunction;
             m_populationSize := populationSize;
             m_F := 0.8;
             m_CR := 0.9;
             m_numberOfParameters := numberOfParameters;
             m_shouldCheckConstraints := shouldCheckConstraints;
             m_callback := callback;
             m_terminationCondition := terminationCondition;
             m_constraints := GetConstraints costFunction |},
          {| m_generator := generator;
             m_population := replicate populationSize (replicate numberOfParameters 0%float);
             m_minCostPerAgent := replicate populationSize 0%float;
             m_bestAgentIndex := 0;
             m_minCost := neg_infinity |})
  else AssertionFailed.

(** The constructor with its default arguments. *)
Definition construct_default (costFunction : IOptimizable) (populationSize : nat)
  : result (DifferentialEvolution * State) :=
  construct costFunction populationSize 123 true None None.

(** ** InitPopulation *)

(** The inner loop over the dimensions of one agent: [n] iterations are
    left and [i] is the loop counter. *)
Fixpoint init_agent (cs : list Constraints) (n i : nat) (agent : list float) (g : Gen)
  : result (list float * Gen) :=
  match n with
  | O => Done (agent, g)
  | S n' =>
      c ← vec_get cs i;
      let '(v, g') :=
        if isConstrained c
        then uniform_real_distribution (lower c) (upper c) g
        else uniform_real_distribution g_defaultLowerConstraint g_defaultUpperConstarint g in
      agent' ← vec_set agent i v;
      init_agent cs n' (S i) agent' g'
  end.

(** The outer loop [for (auto& agent : m_population)]. *)
Fixpoint init_agents (cs : list Constraints) (numberOfParameters : nat)
    (population : list (list float)) (g : Gen) : result (list (list float) * Gen) :=
  match population with
  | [] => Done ([], g)
  | agent :: rest =>
      '(agent', g1) ← init_agent cs numberOfParameters 0 agent g;
      '(rest', g2) ← init_agents cs numberOfParameters rest g1;
      Done (agent' :: rest', g2)
  end.

(** The second loop: costs and best agent. *)
Fixpoint init_costs (de : DifferentialEvolution) (n i : nat) (s : State) : result State :=
  match n with
  | O => Done s
  | S n' =>
      agent ← vec_get (m_population s) i;
      let cost := EvaluteCost (m_cost de) agent in
      costs ← vec_set (m_minCostPerAgent s) i cost;
      let s' :=
        if (cost <? m_minCost s)%float
        then mkState (m_generator s) (m_population s) costs (Z.of_nat i) cost
        else mkState (m_generator s) (m_population s) costs (m_bestAgentIndex s) (m_minCost s) in
      init_costs de n' (S i) s'
  end.

Definition InitPopulation (de : DifferentialEvolution) (s : State) : result State :=
  '(population, g) ← init_agents (m_constraints de) (m_numberOfParameters de)
                        (m_population s) (m_generator s);
  init_costs de (m_populationSize de) 0
    (mkState g population (m_minCostPerAgent s) (m_bestAgentIndex s) (m_minCost s)).

(** ** CheckConstraints *)

(** The loop over [agent], reading [m_constraints[i]] at each index. *)
Fixpoint CheckConstraints (cs : list Constraints) (agent : list float) {struct agent}
  : result bool :=
  match agent with
  | [] => Done true
  | v :: agent' =>
      match cs with
      | [] => Undefined
      | c :: cs' => if negb (Check c v) then Done false else CheckConstraints cs' agent'
      end
  end.

(** ** SelectionAndCorssing *)

(** The condition of the donor loop. *)
Definition donors_clash (x a b c : Z) : bool :=
  (a =? x) || (b =? x) || (c =? x) || (a =? b) || (a =? c) || (b =? c).

(** The body of the donor loop: three draws from
    [distribution(0, m_populationSize)], each converted to [int]. *)
Definition draw_donors (populationSize : nat) (g : Gen) : result (Z * Z * Z * Gen) :=
  let '(da, g1) := uniform_real_distribution 0 (double_of_unsigned populationSize) g in
  a ← double_to_int da;
  let '(db, g2) := uniform_real_distribution 0 (double_of_unsigned populationSize) g1 in
  b ← double_to_int db;
  let '(dc, g3) := uniform_real_distribution 0 (double_of_unsigned populationSize) g2 in
  c ← double_to_int dc;
  Done (a, b, c, g3).

(** [while (a == x || b == x || c == x || a == b || a == c || b == c)]
    around that body. *)
Fixpoint select_donors (fuel : nat) (populationSize : nat) (x a b c : Z) (g : Gen)
  : result (Z * Z * Z * Gen) :=
  if donors_clash x a b c then
    match fuel with
    | O => OutOfFuel
    | S fuel' =>
        '(a', b', c', g') ← draw_donors populationSize g;
        select_donors fuel' populationSize x a' b' c' g'
    end
  else Done (a, b, c, g).

(** [m_population[a][i]] *)
Definition population_at (population : list (list float)) (a : Z) (i : nat) : result float :=
  agent ← vec_at population a;
  vec_get agent i.

(** [m_population[a][i] + m_F * (m_population[b][i] - m_population[c][i])] *)
Definition mutation (de : DifferentialEvolution) (population : list (list float))
    (a b c : Z) (i : nat) : result float :=
  pa ← population_at population a i;
  pb ← population_at population b i;
  pc ← population_at population c i;
  Done (pa + m_F de * (pb - pc))%float.

(** The intermediate solution [z]. *)
Definition intermediate (de : DifferentialEvolution) (population : list (list float))
    (a b c : Z) : result (list float) :=
  for_each (m_numberOfParameters de) (mutation de population a b c).

(** [for (auto& var : r) var = distributionPerX(m_generator)] *)
Fixpoint draw_r (n : nat) (g : Gen) : list float * Gen :=
  match n with
  | O => ([], g)
  | S n' =>
      let '(v, g1) := uniform_real_distribution 0 1 g in
      let '(vs, g2) := draw_r n' g1 in
      (v :: vs, g2)
  end.

(** The crossing loop. *)
Definition crossing (de : DifferentialEvolution) (population : list (list float))
    (x : nat) (z r : list float) (R : Z) : result (list float) :=
  for_each (m_numberOfParameters de) (fun i =>
    ri ← vec_get r i;
    if (ri <? m_CR de)%float || (Z.of_nat i =? R)
    then vec_get z i
    else population_at population (Z.of_nat x) i).

(** What one pass over the first half of the loop body leaves in its
    local variables. *)
Record Trial : Type := mkTrial {
  donor_a : Z;
  donor_b : Z;
  donor_c : Z;
  trial_z : list float;
  trial_R : Z;
  trial_r : list float;
  newX : list float;
  trial_generator : Gen
}.

Definition make_trial (fuel : nat) (de : DifferentialEvolution) (x : nat) (s : State)
  : result Trial :=
  let xi := Z.of_nat x in
  '(a, b, c, g1) ← select_donors fuel (m_populationSize de) xi xi xi xi (m_generator s);
  z ← intermediate de (m_population s) a b c;
  let '(dR, g2) := uniform_real_distribution 0 (double_of_unsigned (m_numberOfParameters de)) g1 in
  R ← double_to_int dR;
  let '(r, g3) := draw_r (m_numberOfParameters de) g2 in
  newX ← crossing de (m_population s) x z r R;
  Done (mkTrial a b c z R r newX g3).

(** [m_shouldCheckConstraints && !CheckConstraints(newX)] *)
Definition should_skip (de : DifferentialEvolution) (newX : list float) : result bool :=
  if m_shouldCheckConstraints de then
    ok ← CheckConstraints (m_constraints de) newX;
    Done (negb ok)
  else Done false.

(** "Calculate new cost and decide should the newX be kept." *)
Definition select (de : DifferentialEvolution) (x : nat) (newX : list float) (s : State)
  : result State :=
  let newCost := EvaluteCost (m_cost de) newX in
  old ← vec_get (m_minCostPerAgent s) x;
  if (newCost <? old)%float then
    population ← vec_set (m_population s) x newX;
    costs ← vec_set (m_minCostPerAgent s) x newCost;
    Done (mkState (m_generator s) population costs (m_bestAgentIndex s) (m_minCost s))
  else Done s.

(** "Track the global best agent." *)
Definition track (x : nat) (s : State) (best : float * Z) : result (float * Z) :=
  cx ← vec_get (m_minCostPerAgent s) x;
  if (cx <? fst best)%float then Done (cx, Z.of_nat x) else Done best.

Definition with_generator (s : State) (g : Gen) : State :=
  mkState g (m_population s) (m_minCostPerAgent s) (m_bestAgentIndex s) (m_minCost s).

(** The loop over [x]; [best] holds the locals [minCost] and
    [bestAgentIndex].  A skipped candidate leaves [x] where it is. *)
Fixpoint selection_loop (fuel : nat) (de : DifferentialEvolution) (x : nat) (s : State)
    (best : float * Z) : result State :=
  if (x <? m_populationSize de)%nat then
    match fuel with
    | O => OutOfFuel
    | S fuel' =>
        t ← make_trial fuel' de x s;
        let s0 := with_generator s (trial_generator t) in
        skip ← should_skip de (newX t);
        if (skip : bool) then selection_loop fuel' de x s0 best
        else
          s1 ← select de x (newX t) s0;
          best' ← track x s1 best;
          selection_loop fuel' de (S x) s1 best'
    end
  else
    Done (mkState (m_generator s) (m_population s) (m_minCostPerAgent s) (snd best) (fst best)).

Definition SelectionAndCorssing (fuel : nat) (de : DifferentialEvolution) (s : State)
  : result State :=
  minCost ← vec_get (m_minCostPerAgent s) 0;
  selection_loop fuel de 0 s (minCost, 0).

(** ** Accessors *)

Definition GetBestAgent (s : State) : result (list float) :=
  vec_at (m_population s) (m_bestAgentIndex s).

Definition GetBestCost (s : State) : result float :=
  vec_at (m_minCostPerAgent s) (m_bestAgentIndex s).

Definition GetPopulationWithCosts (de : DifferentialEvolution) (s : State)
  : result (list (list float * float)) :=
  for_each (m_populationSize de) (fun i =>
    agent ← vec_get (m_population s) i;
    cost ← vec_get (m_minCostPerAgent s) i;
    Done (agent, cost)).

(** ** Optimize *)

(** Calls made by [Optimize] and lines it writes to [std::cout], in
    program order.  A call of [SelectionAndCorssing] is recorded with the
    state it leaves. *)
Inductive Event : Type :=
| CallInitPopulation
| CallSelectionAndCorssing (after : State)
| PrintProgress (minCost : float) (bestAgent : list float)
| CallCallback (s : State)
| CallTerminationCondition (s : State) (answer : bool)
| PrintTerminatedByCondition
| PrintTerminatedByGenerations.

Definition when (b : bool) (evs : list Event) : list Event := if b then evs else [].

(** What the verbose branch prints after a generation. *)
Definition print_progress (de : DifferentialEvolution) (s : State) : result Event :=
  agent ← for_each (m_numberOfParameters de) (fun i =>
             population_at (m_population s) (m_bestAgentIndex s) i);
  Done (PrintProgress (m_minCost s) agent).

(** The events between the end of a generation and the test of the
    termination condition. *)
Definition after_generation (de : DifferentialEvolution) (verbose : bool) (s : State)
  : result (list Event) :=
  progress ← (if verbose then e ← print_progress de s; Done [e] else Done []);
  let callback :=
    match m_callback de with
    | Some f => let _ := f s in [CallCallback s]
    | None => []
    end in
  Done (CallSelectionAndCorssing s :: progress ++ callback).

(** The optimization loop with [n] iterations left. *)
Fixpoint optimization_loop (fuel : nat) (de : DifferentialEvolution) (verbose : bool)
    (n : nat) (s : State) : result (State * list Event) :=
  match n with
  | O => Done (s, when verbose [PrintTerminatedByGenerations])
  | S n' =>
      s1 ← SelectionAndCorssing fuel de s;
      evs ← after_generation de verbose s1;
      match m_terminationCondition de with
      | Some terminationCondition =>
          if terminationCondition s1 then
            Done (s1, evs ++ CallTerminationCondition s1 true
                        :: when verbose [PrintTerminatedByCondition])
          else
            '(s2, rest) ← optimization_loop fuel de verbose n' s1;
            Done (s2, evs ++ CallTerminationCondition s1 false :: rest)
      | None =>
          '(s2, rest) ← optimization_loop fuel de verbose n' s1;
          Done (s2, evs ++ rest)
      end
  end.

Definition Optimize (fuel : nat) (de : DifferentialEvolution) (s : State)
    (iterations : Z) (verbose : bool) : result (State * list Event) :=
  s0 ← InitPopulation de s;
  '(s1, evs) ← optimization_loop fuel de verbose (Z.to_nat iterations) s0;
  Done (s1, CallInitPopulation :: evs).

End Engine.

Arguments State : clear implicits.
Arguments DifferentialEvolution : clear implicits.
Arguments Trial : clear implicits.
Arguments Event : clear implicits.

(* ===================================================================== *)
(** * A scripted engine and a small problem, for running the model *)
(* ===================================================================== *)

(** An engine that replays a fixed cycle of numbers in [[0,1)]: its state
    is the number of draws made so far, and a draw from
    [uniform_real_distribution(a, b)] scales the next number of the cycle
    to [u * (b - a) + a]. *)
Definition scripted_draw (script : list float) (a b : float) (g : nat) : float * nat :=
  let u := nth (g mod length script)%nat script 0%float in
  ((u * (b - a) + a)%float, S g).

Definition scripted (script : list float) : RandomEngine nat :=
  {| seed := fun s => Z.to_nat s;
     uniform_real_distribution := scripted_draw script |}.

(** The convex quadratic [f(x, y) = x^2 + 2xy + 3y^2] on the box
    [[-100, 100]^2]. *)
Definition Quadratic : IOptimizable :=
  {| EvaluteCost := fun inputs =>
       let x := nth 0 inputs 0%float in
       let y := nth 1 inputs 0%float in
       (x * x + 2 * x * y + 3 * y * y)%float;
     NumberOfParameters := 2;
     GetConstraints := replicate 2 (mkConstraints (-100) 100 true) |}.

(** A cycle of 38 draws: eight for [InitPopulation] of four agents in two
    dimensions, then six per pass over the loop body of
    [SelectionAndCorssing] (three donors, [R], two [r]); the first trial of
    slot 0 leaves the box and the slot is tried again. *)
Definition demo_script : list float :=
  [0.625; 0.125; 0.9375; 0.375; 0.5; 0.75; 0.0625; 0.5625;
   0.3125; 0.625; 0.8125; 0.375; 0.25; 0.96875;
   0.75; 0.25; 0.5; 0.5; 0.125; 0.25;
   0.0625; 0.5; 0.75; 0.25; 0.5; 0.5;
   0.0625; 0.3125; 0.875; 0.75; 0.9375; 0.5;
   0.125; 0.375; 0.625; 0; 0.5; 0.9375]%float.

Definition demo_engine : RandomEngine nat := scripted demo_script.

(** A cycle whose first trial for slot 0 is [[115; -35]], outside the box
    and cheaper than the agent [[-100; -100]] it competes with. *)
Definition escape_script : list float :=
  [0; 0; 0.875; 0.375; 0.75; 0.5; 0.5; 0.5625;
   0.25; 0.5; 0.75; 0; 0.5; 0.5;
   0; 0.5; 0.75; 0; 0.5; 0.5;
   0; 0.25; 0.75; 0; 0.5; 0.5;
   0; 0.25; 0.5; 0; 0.5; 0.5]%float.

Definition escape_engine : RandomEngine nat := scripted escape_script.

(** The object built by [DifferentialEvolution(Quadratic, 4, 0)] on the
    demo engine, and its state after construction, after [InitPopulation]
    and after one call of [SelectionAndCorssing]. *)
Definition demo_de : DifferentialEvolution nat :=
  mkDE Quadratic 4 0.8 0.9 2 true None None (GetConstraints Quadratic).

Definition demo_constructed : State nat :=
  mkState 0%nat (replicate 4 [0; 0]%float) (replicate 4 0%float) 0 neg_infinity.

Definition demo_initialized : State nat :=
  mkState 8%nat
    [[25; -75]; [87.5; -25]; [0; 50]; [-87.5; 12.5]]%float
    [13750; 5156.25; 7500; 5937.5]%float
    0 neg_infinity.

Definition demo_generation_1 : State nat :=
  mkState 38%nat
    [[-17.5; -47.5]; [52.5; -17.5]; [0; 50]; [24.5; 12.5]]%float
    [8737.5; 1837.5; 7500; 1681.5]%float
    3 1681.5.

(** The same problem with constraint checking switched off, on the escape
    engine: the state after [InitPopulation] and after one call of
    [SelectionAndCorssing]. *)
Definition escape_de : DifferentialEvolution nat :=
  mkDE Quadratic 4 0.8 0.9 2 false None None (GetConstraints Quadratic).

Definition escape_initialized : State nat :=
  mkState 8%nat
    [[-100; -100]; [75; -25]; [50; 0]; [0; 12.5]]%float
    [60000; 3750; 2500; 468.75]%float
    0 neg_infinity.

Definition escape_generation_1 : State nat :=
  mkState 32%nat
    [[115; -35]; [75; -25]; [50; 0]; [0; 12.5]]%float
    [8850; 3750; 2500; 468.75]%float
    3 468.75.

(** The state of the demo run after a second call of
    [SelectionAndCorssing]. *)
Definition demo_generation_2 : State nat :=
  Eval vm_compute in
    match SelectionAndCorssing (RE := demo_engine) 20 demo_de demo_generation_1 with
    | Done s => s
    | _ => demo_generation_1
    end.

(** The demo optimizer with a termination condition: stop when the best
    cost is below 2000. *)
Definition stopping_de : DifferentialEvolution nat :=
  mkDE Quadratic 4 0.8 0.9 2 true None
    (Some (fun s => match GetBestCost s with
                    | Done cost => (cost <? 2000)%float
                    | _ => false
                    end))
    (GetConstraints Quadratic).

(** What [Optimize(5, true)] and [Optimize(5, false)] do on it: the
    condition holds after the first generation. *)
Definition stopping_events_verbose : list (Event nat) :=
  [CallInitPopulation;
   CallSelectionAndCorssing demo_generation_1;
   PrintProgress 1681.5 [24.5; 12.5]%float;
   CallTerminationCondition demo_generation_1 true;
   PrintTerminatedByCondition].

Definition stopping_events_quiet : list (Event nat) :=
  [CallInitPopulation;
   CallSelectionAndCorssing demo_generation_1;
   CallTerminationCondition demo_generation_1 true].

(** What [Optimize(2, false)] does on the demo optimizer. *)
Definition demo_events : list (Event nat) :=
  [CallInitPopulation;
   CallSelectionAndCorssing demo_generation_1;
   CallSelectionAndCorssing demo_generation_2].

(** The first pass over the loop body for slot 0 of the demo run. *)
Definition demo_trial : Trial nat :=
  mkTrial 1 2 3 [157.5; 5]%float 0 [0.25; 0.96875]%float [157.5; -75]%float 14%nat.

(* ===================================================================== *)
(** * Predicates of the specification *)
(* ===================================================================== *)

Section Predicates.
Context {Gen : Type} {RE : RandomEngine Gen}.

(** The contract of [std::uniform_real_distribution(a, b)]: a draw lies
    in [[a, b)]. *)
Definition draws_in (a b : float) : Prop :=
  forall g, let d := fst (uniform_real_distribution a b g) in
            (a <=? d)%float && (d <? b)%float = true.

(** The contract for the enforced bounds of an optimizer. *)
Definition draws_within_bounds (de : DifferentialEvolution Gen) : Prop :=
  forall c, c ∈ m_constraints de -> isConstrained c = true ->
            draws_in (lower c) (upper c).

(** Every agent of the population passes [CheckConstraints]. *)
Definition feasible (de : DifferentialEvolution Gen) (s : State Gen) : Prop :=
  Forall (fun agent => CheckConstraints (m_constraints de) agent = Done true)
         (m_population s).

(** The cost cache holds the cost of the agent in every slot. *)
Definition cache_in_sync (de : DifferentialEvolution Gen) (s : State Gen) : Prop :=
  forall i, (i < m_populationSize de)%nat ->
    exists agent, m_population s !! i = Some agent /\
                  m_minCostPerAgent s !! i = Some (EvaluteCost (m_cost de) agent).

(** No cached cost is a NaN. *)
Definition costs_are_numbers (s : State Gen) : Prop :=
  Forall (fun c => is_nan c = false) (m_minCostPerAgent s).

(** Every draw of [distribution(0, n)], converted to [int], is an index
    below [n]. *)
Definition donor_draws_in_range (n : nat) : Prop :=
  forall g, exists k,
    double_to_int (fst (uniform_real_distribution 0 (double_of_unsigned n) g)) = Done k /\
    0 <= k < Z.of_nat n.

(** The triple that the donor loop draws in its pass number [k] (from 0),
    started with the generator [g]. *)
Fixpoint nth_draw (n : nat) (k : nat) (g : Gen) : result (Z * Z * Z * Gen) :=
  match k with
  | O => draw_donors n g
  | S k' => '(_, _, _, g') ← draw_donors n g; nth_draw n k' g'
  end.

(** The best cost after each generation of a run, read off its events. *)
Definition best_cost_sequence (evs : list (Event Gen)) : list (result float) :=
  flat_map (fun e => match e with
                     | CallSelectionAndCorssing s => [GetBestCost s]
                     | _ => []
                     end) evs.

(** The answer of the termination condition, [false] when there is none. *)
Definition stops (de : DifferentialEvolution Gen) (s : State Gen) : bool :=
  match m_terminationCondition de with
  | Some terminationCondition => terminationCondition s
  | None => false
  end.

(** The events of one iteration of the optimization loop that leaves the
    state [s]: the generation, the progress line when verbose, the
    callback when there is one, the termination condition when there is
    one. *)
Definition generation_block (de : DifferentialEvolution Gen) (verbose : bool)
    (s : State Gen) : list (Event Gen) :=
  CallSelectionAndCorssing s
  :: (if verbose
      then match print_progress de s with Done e => [e] | _ => [] end
      else [])
  ++ match m_callback de with Some _ => [CallCallback s] | None => [] end
  ++ match m_terminationCondition de with
     | Some terminationCondition => [CallTerminationCondition s (terminationCondition s)]
     | None => []
     end.

(** [generations] are the states left by successive calls of
    [SelectionAndCorssing], the first of them on [s]. *)
Fixpoint generations_from (fuel : nat) (de : DifferentialEvolution Gen) (s : State Gen)
    (generations : list (State Gen)) : Prop :=
  match generations with
  | [] => True
  | t :: rest => SelectionAndCorssing fuel de s = Done t /\ generations_from fuel de t rest
  end.

(** The termination condition answered [true] after the last generation. *)
Definition stopped_early (de : DifferentialEvolution Gen)
    (generations : list (State Gen)) : bool :=
  match last generations with
  | Some s => stops de s
  | None => false
  end.

(** The line that a verbose run prints last. *)
Definition final_report (de : DifferentialEvolution Gen)
    (generations : list (State Gen)) : Event Gen :=
  if stopped_early de generations
  then PrintTerminatedByCondition
  else PrintTerminatedByGenerations.

(** [m] is a least element of [costs]. *)
Definition is_minimum (m : float) (costs : list float) : Prop :=
  m ∈ costs /\ Forall (fun c => (m <=? c)%float = true) costs.

(** What the loop of [SelectionAndCorssing] knows about its locals
    [minCost] and [bestAgentIndex] (the pair [best]) before it handles
    slot [x]: the pair names a slot of the cache and its cost, already
    handled unless the loop is at its start, and no handled slot is
    cheaper. *)
Definition tracking (de : DifferentialEvolution Gen) (len x : nat) (s : State Gen)
    (best : float * Z) : Prop :=
  costs_are_numbers s /\
  length (m_minCostPerAgent s) = len /\
  (x <= m_populationSize de)%nat /\
  0 <= snd best /\
  m_minCostPerAgent s !! Z.to_nat (snd best) = Some (fst best) /\
  ((Z.to_nat (snd best) < x)%nat \/ (x = 0%nat /\ snd best = 0)) /\
  forall j c, (j < x)%nat -> m_minCostPerAgent s !! j = Some c ->
              (fst best <=? c)%float = true.

End Predicates.

(* ===================================================================== *)
(** * TestFunctions.h *)
(* ===================================================================== *)

(** [M_PI] of [<cmath>]. *)
Definition M_PI : float := 3.14159265358979323846.

(** The three cost functions of the header.  [cos] of [<cmath>] is not
    part of the repository and is a parameter. *)
Module VSS.
Section VSS.
Variable cos : float -> float.
Variable m_dim : nat.

(** The loop of [EvaluteCost], with [n] iterations left at index [i],
    and the [return] that follows it. *)
Fixpoint loop (n i : nat) (inputs : list float) (val : float) : result float :=
  match n with
  | O => Done (val + 1400)%float
  | S n' =>
      x ← vec_get inputs i;
      loop n' (S i) inputs
           (val + (x * x - 100 * cos x * cos x - 100 * cos (x * x / 30)))%float
  end.

Definition EvaluteCost (inputs : list float) : result float :=
  if (length inputs =? m_dim)%nat then loop m_dim 0 inputs 0%float
  else AssertionFailed.

Definition NumberOfParameters : nat := m_dim.

Definition GetConstraints : list Constraints :=
  (fun _ => mkConstraints (-100) 100 true) <$> replicate NumberOfParameters Constraints_default.

End VSS.
End VSS.

Module CosineMixture.
Section CosineMixture.
Variable cos : float -> float.
Variable m_dim : nat.

Fixpoint loop (n i : nat) (inputs : list float) (val1 val2 : float) : result float :=
  match n with
  | O => Done (-0.1 * val1 - val2)%float
  | S n' =>
      x ← vec_get inputs i;
      if (x <? -1)%float || (1 <? x)%float then Done 1e7%float
      else loop n' (S i) inputs (val1 + cos (5 * M_PI * x))%float (val2 + x * x)%float
  end.

Definition EvaluteCost (inputs : list float) : result float :=
  if (length inputs =? m_dim)%nat then
    x ← vec_get inputs 0;
    y ← vec_get inputs 1;
    loop m_dim 0 inputs 0%float 0%float
  else AssertionFailed.

Definition NumberOfParameters : nat := m_dim.

Definition GetConstraints : list Constraints :=
  (fun _ => mkConstraints (-1) 1 true) <$> replicate NumberOfParameters Constraints_default.

End CosineMixture.
End CosineMixture.

Module Rastrigin.
Section Rastrigin.
Variable cos : float -> float.
Variable m_dim : nat.

Definition A : float := 10.

Fixpoint loop (n i : nat) (inputs : list float) (val : float) : result float :=
  match n with
  | O => Done (A * double_of_unsigned m_dim + val)%float
  | S n' =>
      x ← vec_get inputs i;
      if (x <? -5.12)%float || (5.12 <? x)%float then Done 1e7%float
      else loop n' (S i) inputs (val + (x * x - A * cos (2 * M_PI * x)))%float
  end.

Definition EvaluteCost (inputs : list float) : result float :=
  if (length inputs =? m_dim)%nat then loop m_dim 0 inputs 0%float
  else AssertionFailed.

Definition NumberOfParameters : nat := m_dim.

Definition GetConstraints : list Constraints :=
  (fun _ => mkConstraints (-5.12) 5.12 true) <$> replicate NumberOfParameters Constraints_default.

End Rastrigin.
End Rastrigin.

(** A stand-in for [cos] when the test functions are run: the first two
    terms of its series. *)
Definition cos_stub (x : float) : float := (1 - x * x / 2)%float.

(* ===================================================================== *)
(** * More predicates and a second engine *)
(* ===================================================================== *)

(** The vectors of the object have the sizes the constructor gave them. *)
Definition well_shaped {Gen : Type} (de : DifferentialEvolution Gen) (s : State Gen) : Prop :=
  length (m_population s) = m_populationSize de /\
  length (m_minCostPerAgent s) = m_populationSize de /\
  Forall (fun agent => length agent = m_numberOfParameters de) (m_population s).

(** An engine that replays a cycle like [scripted], with its state kept
    below the length of the cycle. *)
Definition cyclic_draw (script : list float) (a b : float) (g : nat) : float * nat :=
  let u := nth (g mod length script)%nat script 0%float in
  ((u * (b - a) + a)%float, (S g mod length script)%nat).

Definition cyclic (script : list float) : RandomEngine nat :=
  {| seed := fun s => (Z.to_nat s mod length script)%nat;
     uniform_real_distribution := cyclic_draw script |}.

(** Quarter steps: for a population of four the donor draws go round
    0, 1, 2, 3. *)
Definition round_robin : RandomEngine nat := cyclic [0; 0.25; 0.5; 0.75]%float.

(** The demo problem without constraint checking, for that engine. *)
Definition unchecked_de : DifferentialEvolution nat :=
  mkDE Quadratic 4 0.8 0.9 2 false None None (GetConstraints Quadratic).

(** A cost function whose [GetConstraints] is shorter than its
    [NumberOfParameters]. *)
Definition Careless : IOptimizable :=
  {| EvaluteCost := fun inputs => nth 0 inputs 0%float;
     NumberOfParameters := 2;
     GetConstraints := [mkConstraints 0 1 true] |}.

(** The demo optimizer with the bounds of its first dimension swapped. *)
Definition inverted_de : DifferentialEvolution nat :=
  mkDE Quadratic 4 0.8 0.9 2 true None None
       [mkConstraints 100 (-100) true; mkConstraints (-100) 100 true].

(** The best-tracking members name an agent of the population whose cost
    is the least of the cache. *)
Definition best_is_known {Gen : Type} (de : DifferentialEvolution Gen) (s : State Gen)
  : Prop :=
  exists agent,
    GetBestAgent s = Done agent /\
    agent ∈ m_population s /\
    GetBestCost s = Done (EvaluteCost (m_cost de) agent) /\
    m_minCost s = EvaluteCost (m_cost de) agent /\
    is_minimum (EvaluteCost (m_cost de) agent) (m_minCostPerAgent s).

(** A run that meets no undefined behaviour and no failed assertion: it
    returns, or it is still looping when the fuel is spent. *)
Definition runs {A : Type} (r : result A) : Prop :=
  match r with
  | Done _ | OutOfFuel => True
  | Undefined | AssertionFailed => False
  end.

(** ** Two runs side by side

    Two optimizers, each with an engine of its own, possibly of different
    types.  [R] relates generator states from which the two engines draw
    the same numbers. *)
Section SideBySide.
Context {Gen1 Gen2 : Type} {RE1 : RandomEngine Gen1} {RE2 : RandomEngine Gen2}.
Variable R : Gen1 -> Gen2 -> Prop.

(** From related states every distribution draws the same number and
    leaves related states. *)
Definition same_draws : Prop :=
  forall a b g1 g2, R g1 g2 ->
    fst (uniform_real_distribution a b g1) = fst (uniform_real_distribution a b g2) /\
    R (snd (uniform_real_distribution a b g1)) (snd (uniform_real_distribution a b g2)).

(** The members of two optimizers agree; the generators are related. *)
Definition same_state (s1 : State Gen1) (s2 : State Gen2) : Prop :=
  R (m_generator s1) (m_generator s2) /\
  m_population s1 = m_population s2 /\
  m_minCostPerAgent s1 = m_minCostPerAgent s2 /\
  m_bestAgentIndex s1 = m_bestAgentIndex s2 /\
  m_minCost s1 = m_minCost s2.

(** Two callbacks (or termination conditions) are both absent, or both
    present and of the same answer on optimizers whose members agree: the
    generator is private and no accessor shows it. *)
Definition same_observer {A : Type}
    (f1 : option (State Gen1 -> A)) (f2 : option (State Gen2 -> A)) : Prop :=
  match f1, f2 with
  | Some f1, Some f2 => forall s1 s2, same_state s1 s2 -> f1 s1 = f2 s2
  | None, None => True
  | _, _ => False
  end.

Definition same_optimizer (de1 : DifferentialEvolution Gen1)
    (de2 : DifferentialEvolution Gen2) : Prop :=
  m_cost de1 = m_cost de2 /\
  m_populationSize de1 = m_populationSize de2 /\
  m_F de1 = m_F de2 /\
  m_CR de1 = m_CR de2 /\
  m_numberOfParameters de1 = m_numberOfParameters de2 /\
  m_shouldCheckConstraints de1 = m_shouldCheckConstraints de2 /\
  m_constraints de1 = m_constraints de2 /\
  same_observer (m_callback de1) (m_callback de2) /\
  same_observer (m_terminationCondition de1) (m_terminationCondition de2).

Definition same_trial (t1 : Trial Gen1) (t2 : Trial Gen2) : Prop :=
  donor_a t1 = donor_a t2 /\ donor_b t1 = donor_b t2 /\ donor_c t1 = donor_c t2 /\
  trial_z t1 = trial_z t2 /\ trial_R t1 = trial_R t2 /\ trial_r t1 = trial_r t2 /\
  newX t1 = newX t2 /\ R (trial_generator t1) (trial_generator t2).

Definition same_event (e1 : Event Gen1) (e2 : Event Gen2) : Prop :=
  match e1, e2 with
  | CallInitPopulation, CallInitPopulation => True
  | CallSelectionAndCorssing s1, CallSelectionAndCorssing s2 => same_state s1 s2
  | PrintProgress c1 a1, PrintProgress c2 a2 => c1 = c2 /\ a1 = a2
  | CallCallback s1, CallCallback s2 => same_state s1 s2
  | CallTerminationCondition s1 b1, CallTerminationCondition s2 b2 =>
      same_state s1 s2 /\ b1 = b2
  | PrintTerminatedByCondition, PrintTerminatedByCondition => True
  | PrintTerminatedByGenerations, PrintTerminatedByGenerations => True
  | _, _ => False
  end.

(** What two runs of [Optimize] leave: final members and events. *)
Definition same_run (r1 : State Gen1 * list (Event Gen1))
    (r2 : State Gen2 * list (Event Gen2)) : Prop :=
  same_state (fst r1) (fst r2) /\ Forall2 same_event (snd r1) (snd r2).

End SideBySide.

(** Two calls end the same way, with results related by [P] when they
    return. *)
Definition same_outcome {A1 A2 : Type} (P : A1 -> A2 -> Prop)
    (r1 : result A1) (r2 : result A2) : Prop :=
  match r1, r2 with
  | Done a1, Done a2 => P a1 a2
  | OutOfFuel, OutOfFuel => True
  | Undefined, Undefined => True
  | AssertionFailed, AssertionFailed => True
  | _, _ => False
  end.

(** The demo engine with its state kept below the length of the cycle. *)
Definition demo_cyclic_engine : RandomEngine nat := cyclic demo_script.

(* ===================================================================== *)
(** * Facts about outcomes, vectors and loops *)
(* ===================================================================== *)

Lemma bind_Done {A B : Type} (m : result A) (f : A -> result B) (b : B) :
  m ≫= f = Done b <-> exists a, m = Done a /\ f a = Done b.
Proof.
  destruct m; simpl; split; try done.
  - eauto.
  - by intros (a' & [= ->] & ?).
  - by intros (? & ? & ?).
  - by intros (? & ? & ?).
  - by intros (? & ? & ?).
Qed.

(** Takes apart a hypothesis that a sequence of calls returned. *)
Ltac returned H :=
  repeat (
    let a := fresh "v" in
    let Ha := fresh "R" in
    apply bind_Done in H as (a & Ha & H)).

Lemma vec_at_Done {A : Type} (v : list A) (i : Z) (a : A) :
  vec_at v i = Done a <-> 0 <= i /\ v !! Z.to_nat i = Some a.
Proof.
  unfold vec_at. destruct (Z.ltb_spec i 0).
  - split; [done | lia].
  - destruct (v !! Z.to_nat i); split; try done.
    + by intros [= ->].
    + by intros [_ [= ->]].
    + by intros [_ ?].
Qed.

Lemma vec_get_Done {A : Type} (v : list A) (i : nat) (a : A) :
  vec_get v i = Done a <-> v !! i = Some a.
Proof.
  unfold vec_get. rewrite vec_at_Done, Nat2Z.id. split; [tauto | split; [lia | done]].
Qed.

Lemma vec_set_Done {A : Type} (v : list A) (i : nat) (a : A) (v' : list A) :
  vec_set v i a = Done v' <-> (i < length v)%nat /\ v' = <[i := a]> v.
Proof.
  unfold vec_set. destruct (Nat.ltb_spec i (length v)).
  - split; [by intros [= <-] | by intros [_ ->]].
  - split; [done | lia].
Qed.

Lemma mapM_Done {A B : Type} (f : A -> result B) (l : list A) (k : list B) :
  mapM f l = Done k -> Forall2 (fun x y => f x = Done y) l k.
Proof.
  revert k. induction l as [|x l IH]; intros k; simpl.
  - intros [= <-]. constructor.
  - intros H. returned H. injection H as <-. constructor; auto.
Qed.

Lemma for_each_Done {A : Type} (n : nat) (body : nat -> result A) (l : list A) :
  for_each n body = Done l ->
  length l = n /\ forall i, (i < n)%nat -> exists y, l !! i = Some y /\ body i = Done y.
Proof.
  intros H. apply mapM_Done in H.
  pose proof (Forall2_length _ _ _ H) as Hlen. rewrite length_seq in Hlen.
  split; [done|]. intros i Hi.
  destruct (lookup_lt_is_Some_2 l i) as [y Hy]; [lia|].
  exists y. split; [done|].
  eapply (Forall2_lookup_lr _ _ _ i i y) in H; eauto.
  by rewrite lookup_seq.
Qed.

(** A loop whose body returns at every index returns. *)
Lemma for_each_returns {A : Type} (n : nat) (body : nat -> result A) :
  (forall i, (i < n)%nat -> exists y, body i = Done y) ->
  exists l, for_each n body = Done l.
Proof.
  unfold for_each. intros H.
  assert (forall k, (forall i, (k <= i < k + n)%nat -> exists y, body i = Done y) ->
          exists l, mapM body (seq k n) = Done l) as Hgen.
  { clear H. induction n as [|n IH]; intros k Hk; simpl; [by eexists|].
    destruct (Hk k) as [y Hy]; [lia|]. rewrite Hy. simpl.
    destruct (IH (S k)) as [l Hl]; [intros i Hi; apply Hk; lia|].
    rewrite Hl. simpl. by eexists. }
  apply Hgen. intros i Hi. apply H. lia.
Qed.

(* ===================================================================== *)
(** * The order of [double] *)
(* ===================================================================== *)

Lemma SFcompare_refl (x : spec_float) : x <> S754_nan -> SFcompare x x = Some Eq.
Proof.
  destruct x as [s|s| |s m e]; try done; intros _; simpl.
  - by destruct s.
  - rewrite Z.compare_refl.
    change (Pos.compare_cont Eq m m) with (Pos.compare m m).
    rewrite Pos.compare_refl. by destruct s.
Qed.

Lemma SFcompare_nan_r (x : spec_float) : SFcompare x S754_nan = None.
Proof. by destruct x as [| | |[] ? ?]. Qed.

Lemma SFcompare_is_Some (x y : spec_float) :
  x <> S754_nan -> y <> S754_nan -> is_Some (SFcompare x y).
Proof.
  destruct x as [[]|[]| |[] ? ?], y as [[]|[]| |[] ? ?]; simpl; try done; eauto.
Qed.

Lemma SFcompare_antisym (x y : spec_float) :
  SFcompare y x = CompOpp <$> SFcompare x y.
Proof.
  destruct x as [[]|[]| |[] m1 e1], y as [[]|[]| |[] m2 e2]; simpl; try done;
    change (Pos.compare_cont Eq ?a ?b) with (Pos.compare a b);
    rewrite (Z.compare_antisym e1 e2), (Pos.compare_antisym m1 m2);
    destruct (e1 ?= e2); simpl; try done; by destruct (m1 ?= m2)%positive.
Qed.

Lemma SFleb_trans (x y z : spec_float) :
  SFleb x y = true -> SFleb y z = true -> SFleb x z = true.
Proof.
  unfold SFleb.
  destruct x as [[]|[]| |[] m1 e1], y as [[]|[]| |[] m2 e2], z as [[]|[]| |[] m3 e3];
    simpl; try done;
    change (Pos.compare_cont Eq ?a ?b) with (Pos.compare a b);
    destruct (Z.compare_spec e1 e2), (Z.compare_spec e2 e3), (Z.compare_spec e1 e3);
    simpl; try done; try lia;
    destruct (Pos.compare_spec m1 m2), (Pos.compare_spec m2 m3), (Pos.compare_spec m1 m3);
    simpl; try done; try lia.
Qed.

Lemma is_nan_false (x : float) : is_nan x = false <-> Prim2SF x <> S754_nan.
Proof.
  unfold is_nan. rewrite FloatAxioms.eqb_spec. unfold SFeqb. split.
  - intros H E. rewrite E in H. done.
  - intros H. by rewrite SFcompare_refl.
Qed.

Lemma leb_refl (x : float) : is_nan x = false -> (x <=? x)%float = true.
Proof.
  intros H. apply is_nan_false in H. rewrite leb_spec. unfold SFleb.
  by rewrite SFcompare_refl.
Qed.

Lemma leb_trans (x y z : float) :
  (x <=? y)%float = true -> (y <=? z)%float = true -> (x <=? z)%float = true.
Proof. rewrite !leb_spec. apply SFleb_trans. Qed.

Lemma ltb_leb (x y : float) : (x <? y)%float = true -> (x <=? y)%float = true.
Proof.
  rewrite ltb_spec, leb_spec. unfold SFltb, SFleb.
  by destruct (SFcompare _ _) as [[]|].
Qed.

(** A NaN compares [false] with everything. *)
Lemma ltb_not_nan (x y : float) :
  (x <? y)%float = true -> is_nan x = false /\ is_nan y = false.
Proof.
  rewrite ltb_spec. unfold SFltb. intros H.
  split; apply is_nan_false; intros E; rewrite E in H;
    [done | by rewrite SFcompare_nan_r in H].
Qed.

Lemma ltb_antisym (x y : float) : (x <? y)%float = true -> (y <=? x)%float = false.
Proof.
  rewrite ltb_spec, leb_spec. unfold SFltb, SFleb.
  rewrite (SFcompare_antisym (Prim2SF x) (Prim2SF y)).
  by destruct (SFcompare (Prim2SF x) (Prim2SF y)) as [[]|].
Qed.

Lemma leb_total (x y : float) :
  is_nan x = false -> is_nan y = false ->
  (x <? y)%float = false -> (y <=? x)%float = true.
Proof.
  intros Hx Hy. apply is_nan_false in Hx, Hy.
  rewrite ltb_spec, leb_spec. unfold SFltb, SFleb.
  rewrite (SFcompare_antisym (Prim2SF x) (Prim2SF y)).
  destruct (SFcompare_is_Some _ _ Hx Hy) as [c ->]. by destruct c.
Qed.

Lemma ltb_irrefl (x : float) : (x <? x)%float = false.
Proof.
  destruct (x <? x)%float eqn:H; [|done].
  pose proof (ltb_leb _ _ H) as Hle. apply ltb_antisym in H. congruence.
Qed.

Lemma ltb_asym (x y : float) : (x <? y)%float = true -> (y <? x)%float = false.
Proof.
  intros H. destruct (y <? x)%float eqn:H'; [|done].
  apply ltb_leb in H'. apply ltb_antisym in H. congruence.
Qed.

(** Nothing is below minus infinity. *)
Lemma ltb_neg_infinity (x : float) : (x <? neg_infinity)%float = false.
Proof.
  rewrite ltb_spec. unfold SFltb.
  change (Prim2SF neg_infinity) with (S754_infinity true).
  by destruct (Prim2SF x) as [[]|[]| |[] ? ?].
Qed.

(* ===================================================================== *)
(** * Conversion of [double] to [int] *)
(* ===================================================================== *)

Lemma digits2_pos_bounds (m : positive) :
  2 ^ (Z.pos (digits2_pos m) - 1) <= Z.pos m < 2 ^ Z.pos (digits2_pos m).
Proof.
  induction m as [m IH|m IH|]; simpl digits2_pos.
  - rewrite Pos2Z.inj_succ. replace (Z.succ (Z.pos (digits2_pos m)) - 1)
      with (Z.succ (Z.pos (digits2_pos m) - 1)) by lia.
    rewrite !Z.pow_succ_r by lia. lia.
  - rewrite Pos2Z.inj_succ. replace (Z.succ (Z.pos (digits2_pos m)) - 1)
      with (Z.succ (Z.pos (digits2_pos m) - 1)) by lia.
    rewrite !Z.pow_succ_r by lia. lia.
  - simpl. lia.
Qed.

(** A significand of 53 bits within the exponent range is not rounded. *)
Lemma binary_round_aux_exact (mz : positive) (ez : Z) :
  Z.pos (digits2_pos mz) = 53 -> -1074 <= ez <= 971 ->
  binary_round_aux prec emax false (Z.pos mz) ez loc_Exact = S754_finite false mz ez.
Proof.
  intros Hd He. unfold binary_round_aux, shr_fexp, fexp, emin.
  change prec with 53. change emax with 1024. simpl Zdigits2. rewrite Hd.
  rewrite Z.max_l by lia. replace (53 + ez - 53 - ez) with 0 by lia.
  cbn [shr shr_record_of_loc shr_m loc_of_shr_record round_nearest_even Zdigits2].
  rewrite Hd. rewrite Z.max_l by lia. replace (53 + ez - 53 - ez) with 0 by lia.
  cbn [shr shr_record_of_loc shr_m].
  destruct (Z.leb_spec ez (1024 - 53)); [done | lia].
Qed.

Lemma iter_xO (m : positive) (k : positive) :
  Z.pos (Pos.iter xO m k) = Z.pos m * 2 ^ Z.pos k /\
  Z.pos (digits2_pos (Pos.iter xO m k)) = Z.pos (digits2_pos m) + Z.pos k.
Proof.
  induction k as [|k IH] using Pos.peano_ind.
  - simpl. lia.
  - rewrite Pos.iter_succ. destruct IH as [IH1 IH2]. simpl digits2_pos.
    rewrite Pos2Z.inj_xO, !Pos2Z.inj_succ, IH1, IH2, Z.pow_succ_r by lia. lia.
Qed.

(** An [unsigned int] converts to [double] exactly. *)
Lemma double_of_unsigned_exact (n : nat) :
  Z.of_nat n < 2 ^ 53 -> is_integer_double (double_of_unsigned n) (Z.of_nat n).
Proof.
  intros Hn. unfold is_integer_double, double_of_unsigned.
  rewrite of_uint63_spec, Uint63.of_Z_spec.
  rewrite Z.mod_small by (change Uint63.wB with (2 ^ 63); split; [lia|];
    eapply Z.lt_trans; [exact Hn | reflexivity]).
  destruct (Z.of_nat n) as [|m|m] eqn:Hm; [done| |lia].
  unfold binary_normalize, binary_round, shl_align, fexp, emin.
  change prec with 53. change emax with 1024.
  pose proof (digits2_pos_bounds m) as [Hlo Hhi].
  assert (Z.pos (digits2_pos m) <= 53) as Hd.
  { destruct (Z.le_gt_cases (Z.pos (digits2_pos m)) 53) as [|Hbig]; [done|].
    assert (2 ^ 53 <= 2 ^ (Z.pos (digits2_pos m) - 1)) by (apply Z.pow_le_mono_r; lia).
    lia. }
  rewrite Z.max_l by lia.
  destruct (Z.pos (digits2_pos m) + 0 - 53 - 0) as [|p|p] eqn:Hshift; [|lia|].
  - rewrite binary_round_aux_exact by lia. simpl. lia.
  - destruct (iter_xO m p) as [Hval Hdig].
    rewrite binary_round_aux_exact by lia.
    destruct (Z.leb_spec 0 (Z.pos (digits2_pos m) + 0 - 53)); [lia|].
    rewrite Hval. f_equal. f_equal. lia.
Qed.

Lemma valid_finite (s : bool) (m : positive) (e : Z) :
  valid_binary (S754_finite s m e) = true ->
  Z.pos m < 2 ^ 53 /\ -1074 <= e /\ (-1074 < e -> 2 ^ 52 <= Z.pos m).
Proof.
  unfold SpecFloat.valid_binary, bounded, canonical_mantissa, fexp, emin.
  change prec with 53. change emax with 1024.
  intros H. apply andb_true_iff in H as [H _]. apply Z.eqb_eq in H.
  pose proof (digits2_pos_bounds m) as [Hlo Hhi].
  assert (Z.pos (digits2_pos m) <= 53) as Hd by lia.
  split; [|split; [lia|]].
  - eapply Z.lt_le_trans; [exact Hhi|]. apply Z.pow_le_mono_r; lia.
  - intros He. assert (Z.pos (digits2_pos m) = 53) as Hd53 by lia.
    by rewrite Hd53 in Hlo.
Qed.

Lemma SFcompare_Lt_finite (m1 m2 : positive) (e1 e2 : Z) :
  valid_binary (S754_finite false m1 e1) = true ->
  valid_binary (S754_finite false m2 e2) = true ->
  SFcompare (S754_finite false m1 e1) (S754_finite false m2 e2) = Some Lt ->
  e1 <= e2 /\ Z.pos m1 < Z.pos m2 * 2 ^ (e2 - e1).
Proof.
  intros H1 H2 H. apply valid_finite in H1 as (Hm1 & He1 & _).
  apply valid_finite in H2 as (_ & _ & Hm2). simpl in H.
  change (Pos.compare_cont Eq m1 m2) with (Pos.compare m1 m2) in H.
  destruct (Z.compare_spec e1 e2) as [->|Hlt|Hgt]; [| |done].
  - destruct (Pos.compare_spec m1 m2); try done.
    rewrite Z.sub_diag. simpl. lia.
  - split; [lia|]. specialize (Hm2 ltac:(lia)).
    assert (2 ^ 1 <= 2 ^ (e2 - e1)) by (apply Z.pow_le_mono_r; lia).
    change (2 ^ 1) with 2 in *. nia.
Qed.

Lemma double_to_int_below (d N : float) (n : Z) :
  (0 <=? d)%float = true -> (d <? N)%float = true ->
  is_integer_double N n -> n <= INT_MAX + 1 ->
  exists k, double_to_int d = Done k /\ 0 <= k < n.
Proof.
  rewrite leb_spec, ltb_spec. unfold is_integer_double, double_to_int, SFleb, SFltb.
  pose proof (Prim2SF_valid d) as Hvd. pose proof (Prim2SF_valid N) as HvN.
  change (Prim2SF 0) with (S754_zero false).
  destruct (Prim2SF d) as [sd|sd| |sd md ed], (Prim2SF N) as [sN|sN| |sN mN eN];
    try destruct sd; try destruct sN; simpl; try done.
  1,2: intros _ _ HN Hn; exists 0; (split; [done|]);
    destruct (Z.leb_spec 0 eN);
    [ assert (0 < 2 ^ eN) by (apply Z.pow_pos_nonneg; lia); nia
    | assert (0 < 2 ^ (- eN)) by (apply Z.pow_pos_nonneg; lia); nia ].
  intros _ Hlt HN Hn.
  assert (SFcompare (S754_finite false md ed) (S754_finite false mN eN) = Some Lt) as Hc.
  { simpl. by destruct (match ed ?= eN with Eq => _ | Lt => Lt | Gt => Gt end). }
  apply SFcompare_Lt_finite in Hc as [Hee Hmm]; [|done|done].
  assert (0 < 2 ^ (eN - ed)) as Hp by (apply Z.pow_pos_nonneg; lia).
  assert (exists k, (if 0 <=? ed then Z.pos md * 2 ^ ed else Z.pos md / 2 ^ (- ed)) = k /\
                    0 <= k < n /\ ed <= 31) as (k & -> & Hk & Hed).
  { eexists. split; [reflexivity|].
    destruct (Z.leb_spec 0 ed) as [Hd|Hd].
    - destruct (Z.leb_spec 0 eN) as [HeN|HeN]; [|lia]. subst n.
      replace eN with ((eN - ed) + ed) at 1 by lia.
      rewrite Z.pow_add_r by lia.
      assert (0 < 2 ^ ed) by (apply Z.pow_pos_nonneg; lia).
      split; [nia|].
      destruct (Z.le_gt_cases ed 31) as [|Hbig]; [done|].
      assert (2 ^ 32 <= 2 ^ eN) by (apply Z.pow_le_mono_r; lia).
      unfold INT_MAX in Hn. change (2 ^ 32) with 4294967296 in *. nia.
    - assert (0 < 2 ^ (- ed)) as Hq by (apply Z.pow_pos_nonneg; lia).
      split; [|lia]. split; [apply Z.div_pos; lia|].
      apply Z.div_lt_upper_bound; [done|].
      destruct (Z.leb_spec 0 eN) as [HeN|HeN].
      + subst n. replace (eN - ed) with (eN + - ed) in Hmm by lia.
        rewrite Z.pow_add_r in Hmm by lia. nia.
      + replace (- ed) with ((eN - ed) + - eN) by lia.
        rewrite Z.pow_add_r by lia. rewrite HN in Hmm. nia. }
  destruct (Z.ltb_spec 31 ed); [lia|].
  unfold INT_MIN, INT_MAX in *.
  destruct (Z.leb_spec (-2147483648) k); [|lia].
  destruct (Z.leb_spec k 2147483647); [|lia].
  by exists k.
Qed.

(* ===================================================================== *)
(** * Construction *)
(* ===================================================================== *)

(** C6: constructing the optimizer with a population size below 4 stops on
    the failed assertion [m_populationSize >= 4]; no object is returned,
    nothing is clamped. *)
Theorem construct_small_population_fails
    {Gen : Type} {RE : RandomEngine Gen}
    (costFunction : IOptimizable) (populationSize : nat) (randomSeed : Z)
    (shouldCheckConstraints : bool)
    (callback : option (State Gen -> unit))
    (terminationCondition : option (State Gen -> bool)) :
  (populationSize < 4)%nat ->
  construct costFunction populationSize randomSeed shouldCheckConstraints
            callback terminationCondition = AssertionFailed.
Proof.
  intros Hsmall. unfold construct.
  destruct (Nat.leb_spec 4 populationSize); [lia | done].
Qed.

Lemma construct_population_3_fails :
  construct (RE := demo_engine) Quadratic 3 123 true None None = AssertionFailed.
Proof.
  apply (construct_small_population_fails (RE := demo_engine)). lia.
Defined.

(** C10: between construction and [InitPopulation] the accessors return
    definite defaults: the best index is 0, the population and the cost
    cache are zero-filled, so [GetBestAgent] is a vector of
    [NumberOfParameters] zeros and [GetBestCost] is [0.0]. *)
Theorem accessors_before_InitPopulation
    {Gen : Type} {RE : RandomEngine Gen}
    (costFunction : IOptimizable) (populationSize : nat) (randomSeed : Z)
    (shouldCheckConstraints : bool)
    (callback : option (State Gen -> unit))
    (terminationCondition : option (State Gen -> bool))
    (de : DifferentialEvolution Gen) (s : State Gen) :
  construct costFunction populationSize randomSeed shouldCheckConstraints
            callback terminationCondition = Done (de, s) ->
  m_bestAgentIndex s = 0 /\
  m_population s
    = replicate populationSize (replicate (NumberOfParameters costFunction) 0%float) /\
  m_minCostPerAgent s = replicate populationSize 0%float /\
  GetBestAgent s = Done (replicate (NumberOfParameters costFunction) 0%float) /\
  GetBestCost s = Done 0%float.
Proof.
  unfold construct. destruct (Nat.leb_spec 4 populationSize) as [Hn|]; [|done].
  intros [= <- <-]. unfold GetBestAgent, GetBestCost. simpl.
  repeat split; apply vec_at_Done; (split; [lia|]); simpl;
    apply lookup_replicate_2; lia.
Qed.

Lemma accessors_before_InitPopulation_demo :
  GetBestAgent demo_constructed = Done [0; 0]%float /\
  GetBestCost demo_constructed = Done 0%float.
Proof.
  pose proof (accessors_before_InitPopulation (RE := demo_engine)
                Quadratic 4 0 true None None demo_de demo_constructed eq_refl)
    as (_ & _ & _ & Hagent & Hcost).
  split; [exact Hagent | exact Hcost].
Defined.

(* ===================================================================== *)
(** * The trial vector *)
(* ===================================================================== *)

Lemma construct_F_CR
    {Gen : Type} {RE : RandomEngine Gen}
    (costFunction : IOptimizable) (populationSize : nat) (randomSeed : Z)
    (shouldCheckConstraints : bool)
    (callback : option (State Gen -> unit))
    (terminationCondition : option (State Gen -> bool))
    (de : DifferentialEvolution Gen) (s : State Gen) :
  construct costFunction populationSize randomSeed shouldCheckConstraints
            callback terminationCondition = Done (de, s) ->
  m_F de = 0.8%float /\ m_CR de = 0.9%float.
Proof.
  unfold construct. destruct (4 <=? populationSize)%nat; [|done].
  by intros [= <- <-].
Qed.

Section Trial.
Context {Gen : Type} {RE : RandomEngine Gen}.
Variable de : DifferentialEvolution Gen.

Lemma make_trial_Done (fuel : nat) (x : nat) (s : State Gen) (t : Trial Gen) :
  make_trial fuel de x s = Done t ->
  (exists g1,
     select_donors fuel (m_populationSize de) (Z.of_nat x) (Z.of_nat x) (Z.of_nat x)
                   (Z.of_nat x) (m_generator s)
       = Done (donor_a t, donor_b t, donor_c t, g1) /\
     double_to_int
       (fst (uniform_real_distribution 0 (double_of_unsigned (m_numberOfParameters de)) g1))
       = Done (trial_R t)) /\
  intermediate de (m_population s) (donor_a t) (donor_b t) (donor_c t) = Done (trial_z t) /\
  crossing de (m_population s) x (trial_z t) (trial_r t) (trial_R t) = Done (newX t) /\
  length (trial_r t) = m_numberOfParameters de.
Proof.
  unfold make_trial. intros H.
  apply bind_Done in H as ([[[a b] c] g1] & Hdonors & H).
  apply bind_Done in H as (z & Hz & H).
  destruct (uniform_real_distribution _ _ g1) as [dR g2] eqn:HdR.
  apply bind_Done in H as (R & HR & H).
  destruct (draw_r _ g2) as [r g3] eqn:Hr.
  apply bind_Done in H as (nx & Hx & [= <-]). simpl.
  split; [exists g1; by rewrite HdR|].
  repeat split; try done.
  clear -Hr. revert g2 r g3 Hr.
  induction (m_numberOfParameters de) as [|k IH]; intros g2 r g3; simpl.
  - by intros [= <- _].
  - destruct (uniform_real_distribution _ _ g2) as [v g].
    destruct (draw_r k g) as [vs g'] eqn:Hk. intros [= <- _]. simpl.
    f_equal. by eapply IH.
Qed.

(** Every entry of the trial is the mutated value or the entry of the
    target, as the crossing condition decides. *)
Lemma make_trial_entry (fuel : nat) (x : nat) (s : State Gen) (t : Trial Gen) (i : nat) :
  make_trial fuel de x s = Done t ->
  (i < m_numberOfParameters de)%nat ->
  exists ri y, trial_r t !! i = Some ri /\ newX t !! i = Some y /\
    (if (ri <? m_CR de)%float || (Z.of_nat i =? trial_R t)
     then mutation de (m_population s) (donor_a t) (donor_b t) (donor_c t) i
     else population_at (m_population s) (Z.of_nat x) i) = Done y.
Proof.
  intros H Hi. apply make_trial_Done in H as (_ & Hz & Hx & Hr).
  apply for_each_Done in Hz as [_ Hz]. apply for_each_Done in Hx as [_ Hx].
  destruct (Hz i Hi) as (zi & Hzi & Hmut).
  destruct (Hx i Hi) as (y & Hy & Hbody).
  apply bind_Done in Hbody as (ri & Hri & Hbody).
  apply vec_get_Done in Hri. exists ri, y. do 2 (split; [done|]).
  destruct ((ri <? m_CR de)%float || (Z.of_nat i =? trial_R t)).
  - rewrite Hmut. apply vec_get_Done in Hbody. congruence.
  - done.
Qed.

End Trial.

(** C2: in an optimizer built by the constructor ([F = 0.8], [CR = 0.9]),
    each entry [i] of the trial for slot [x] with donors [a], [b], [c] is
    [population[a][i] + F * (population[b][i] - population[c][i])] when
    [r[i] < CR] or [i == R], and [population[x][i]] otherwise; at the forced
    dimension [R] it is always the mutated value; and [R] is a dimension
    when the draws of the engine are in range. *)
Theorem trial_vector
    {Gen : Type} {RE : RandomEngine Gen}
    (costFunction : IOptimizable) (populationSize : nat) (randomSeed : Z)
    (shouldCheckConstraints : bool)
    (callback : option (State Gen -> unit))
    (terminationCondition : option (State Gen -> bool))
    (de : DifferentialEvolution Gen) (s0 : State Gen)
    (fuel x : nat) (s : State Gen) (t : Trial Gen) :
  construct costFunction populationSize randomSeed shouldCheckConstraints
            callback terminationCondition = Done (de, s0) ->
  make_trial fuel de x s = Done t ->
  (forall i, (i < m_numberOfParameters de)%nat ->
     exists ri, trial_r t !! i = Some ri /\
       if (ri <? 0.9)%float || (Z.of_nat i =? trial_R t) then
         exists pa pb pc,
           population_at (m_population s) (donor_a t) i = Done pa /\
           population_at (m_population s) (donor_b t) i = Done pb /\
           population_at (m_population s) (donor_c t) i = Done pc /\
           newX t !! i = Some (pa + 0.8 * (pb - pc))%float
       else
         exists px,
           population_at (m_population s) (Z.of_nat x) i = Done px /\
           newX t !! i = Some px) /\
  (0 <= trial_R t < Z.of_nat (m_numberOfParameters de) ->
     exists pa pb pc,
       population_at (m_population s) (donor_a t) (Z.to_nat (trial_R t)) = Done pa /\
       population_at (m_population s) (donor_b t) (Z.to_nat (trial_R t)) = Done pb /\
       population_at (m_population s) (donor_c t) (Z.to_nat (trial_R t)) = Done pc /\
       newX t !! Z.to_nat (trial_R t) = Some (pa + 0.8 * (pb - pc))%float) /\
  (Z.of_nat (m_numberOfParameters de) <= INT_MAX + 1 ->
   draws_in 0 (double_of_unsigned (m_numberOfParameters de)) ->
   0 <= trial_R t < Z.of_nat (m_numberOfParameters de)).
Proof.
  intros Hc Ht. destruct (construct_F_CR _ _ _ _ _ _ _ _ Hc) as [HF HCR].
  assert (forall i, (i < m_numberOfParameters de)%nat ->
     exists ri, trial_r t !! i = Some ri /\
       if (ri <? 0.9)%float || (Z.of_nat i =? trial_R t) then
         exists pa pb pc,
           population_at (m_population s) (donor_a t) i = Done pa /\
           population_at (m_population s) (donor_b t) i = Done pb /\
           population_at (m_population s) (donor_c t) i = Done pc /\
           newX t !! i = Some (pa + 0.8 * (pb - pc))%float
       else
         exists px,
           population_at (m_population s) (Z.of_nat x) i = Done px /\
           newX t !! i = Some px) as Hall.
  { intros i Hi.
    destruct (make_trial_entry de fuel x s t i Ht Hi) as (ri & y & Hri & Hy & Hnew).
    exists ri. split; [done|]. rewrite HCR in Hnew.
    destruct ((ri <? 0.9)%float || (Z.of_nat i =? trial_R t)).
    - unfold mutation in Hnew.
      apply bind_Done in Hnew as (pa & Hpa & Hnew).
      apply bind_Done in Hnew as (pb & Hpb & Hnew).
      apply bind_Done in Hnew as (pc & Hpc & Hnew).
      exists pa, pb, pc. rewrite HF in Hnew. injection Hnew as <-. done.
    - by exists y. }
  split; [exact Hall|]. split.
  - intros HR. destruct (Hall (Z.to_nat (trial_R t))) as (ri & _ & H); [lia|].
    rewrite Z2Nat.id, Z.eqb_refl, orb_true_r in H by lia. exact H.
  - intros Hfits Hdraws.
    apply make_trial_Done in Ht as ((g1 & _ & HR) & _).
    specialize (Hdraws g1). simpl in Hdraws.
    apply andb_true_iff in Hdraws as [Hlo Hhi].
    assert (is_integer_double (double_of_unsigned (m_numberOfParameters de))
                              (Z.of_nat (m_numberOfParameters de))) as Hint.
    { apply double_of_unsigned_exact. unfold INT_MAX in Hfits.
      eapply Z.le_lt_trans; [exact Hfits | reflexivity]. }
    destruct (double_to_int_below _ _ _ Hlo Hhi Hint Hfits) as (k & Hk & Hrange).
    congruence.
Qed.

Lemma trial_vector_demo :
  exists pa pb pc,
    population_at (m_population demo_initialized) 1 0 = Done pa /\
    population_at (m_population demo_initialized) 2 0 = Done pb /\
    population_at (m_population demo_initialized) 3 0 = Done pc /\
    newX demo_trial !! 0%nat = Some (pa + 0.8 * (pb - pc))%float.
Proof.
  apply (proj1 (proj2 (trial_vector (RE := demo_engine) Quadratic 4 0 true None None
                         demo_de demo_constructed 10 0 demo_initialized demo_trial
                         eq_refl ltac:(vm_compute; reflexivity)))).
  simpl. lia.
Defined.

(* ===================================================================== *)
(** * The loop of SelectionAndCorssing *)
(* ===================================================================== *)

Section Loop.
Context {Gen : Type} {RE : RandomEngine Gen}.
Variable de : DifferentialEvolution Gen.

Lemma select_Done (x : nat) (candidate : list float) (s s' : State Gen) :
  select de x candidate s = Done s' ->
  exists old, m_minCostPerAgent s !! x = Some old /\
    if (EvaluteCost (m_cost de) candidate <? old)%float
    then (x < length (m_population s))%nat /\
         s' = mkState (m_generator s)
                      (<[x := candidate]> (m_population s))
                      (<[x := EvaluteCost (m_cost de) candidate]> (m_minCostPerAgent s))
                      (m_bestAgentIndex s) (m_minCost s)
    else s' = s.
Proof.
  unfold select. intros H. apply bind_Done in H as (old & Hold & H).
  apply vec_get_Done in Hold. exists old. split; [done|].
  destruct (EvaluteCost (m_cost de) candidate <? old)%float.
  - apply bind_Done in H as (p & Hp & H). apply bind_Done in H as (c & Hc & H).
    apply vec_set_Done in Hp as [Hlen ->]. apply vec_set_Done in Hc as [_ ->].
    injection H as <-. done.
  - by injection H.
Qed.

Lemma track_Done (x : nat) (s : State Gen) (best best' : float * Z) :
  track x s best = Done best' ->
  exists cx, m_minCostPerAgent s !! x = Some cx /\
    best' = if (cx <? fst best)%float then (cx, Z.of_nat x) else best.
Proof.
  unfold track. intros H. apply bind_Done in H as (cx & Hcx & H).
  apply vec_get_Done in Hcx. exists cx. split; [done|].
  by destruct (cx <? fst best)%float; injection H.
Qed.

(** The invariant rule of the loop over [x]: a property kept by a skipped
    pass and by a completed pass holds when the loop is left, which happens
    at [x = m_populationSize] or beyond. *)
Lemma selection_loop_invariant (Inv : nat -> State Gen -> float * Z -> Prop) :
  (forall fuel x s best t,
     Inv x s best -> (x < m_populationSize de)%nat ->
     make_trial fuel de x s = Done t ->
     should_skip de (newX t) = Done true ->
     Inv x (with_generator s (trial_generator t)) best) ->
  (forall fuel x s best t s1 best',
     Inv x s best -> (x < m_populationSize de)%nat ->
     make_trial fuel de x s = Done t ->
     should_skip de (newX t) = Done false ->
     select de x (newX t) (with_generator s (trial_generator t)) = Done s1 ->
     track x s1 best = Done best' ->
     Inv (S x) s1 best') ->
  forall fuel x s best s',
    Inv x s best ->
    selection_loop fuel de x s best = Done s' ->
    exists x' sf best',
      (m_populationSize de <= x')%nat /\ Inv x' sf best' /\
      s' = mkState (m_generator sf) (m_population sf) (m_minCostPerAgent sf)
                   (snd best') (fst best').
Proof.
  intros Hskip Hadv. induction fuel as [|fuel IH]; intros x s best s' HI H; simpl in H.
  - destruct (Nat.ltb_spec x (m_populationSize de)); [done|].
    injection H as <-. by exists x, s, best.
  - destruct (Nat.ltb_spec x (m_populationSize de)) as [Hx|Hx].
    + apply bind_Done in H as (t & Ht & H).
      apply bind_Done in H as (skip & Hs & H).
      destruct skip.
      * eapply IH; [|exact H]. eauto.
      * apply bind_Done in H as (s1 & Hs1 & H).
        apply bind_Done in H as (best' & Hb & H).
        eapply IH; [|exact H]. eauto.
    + injection H as <-. by exists x, s, best.
Qed.

End Loop.

(* ===================================================================== *)
(** * Greedy selection *)
(* ===================================================================== *)

Section Selection.
Context {Gen : Type} {RE : RandomEngine Gen}.
Variable de : DifferentialEvolution Gen.

(** What one call of [select] does to the cost cache. *)
Lemma select_costs (x : nat) (candidate : list float) (s s' : State Gen) :
  select de x candidate s = Done s' ->
  costs_are_numbers s ->
  costs_are_numbers s' /\
  length (m_minCostPerAgent s') = length (m_minCostPerAgent s) /\
  forall j before after,
    m_minCostPerAgent s !! j = Some before ->
    m_minCostPerAgent s' !! j = Some after ->
    (after <=? before)%float = true.
Proof.
  intros H Hnum. apply select_Done in H as (old & Hold & H).
  destruct (EvaluteCost (m_cost de) candidate <? old)%float eqn:Hlt.
  - destruct H as [_ ->]. unfold costs_are_numbers in *. simpl.
    split; [|split].
    + apply Forall_insert; [done|]. by apply ltb_not_nan in Hlt as [? _].
    + apply length_insert.
    + intros j before after Hb Ha. destruct (decide (j = x)) as [->|Hne].
      * rewrite list_lookup_insert_eq in Ha by (by eapply lookup_lt_Some).
        injection Ha as <-. apply ltb_leb. congruence.
      * rewrite list_lookup_insert_ne in Ha by done.
        assert (after = before) as -> by congruence.
        apply leb_refl. by eapply (Forall_lookup_1 _ _ _ _ Hnum).
  - subst s'. split; [done|]. split; [done|].
    intros j before after Hb Ha. assert (after = before) as -> by congruence.
    apply leb_refl. by eapply (Forall_lookup_1 _ _ _ _ Hnum).
Qed.

(** No slot of the cost cache grows during a generation. *)
Lemma SelectionAndCorssing_costs (fuel : nat) (s s' : State Gen) :
  costs_are_numbers s ->
  SelectionAndCorssing fuel de s = Done s' ->
  costs_are_numbers s' /\
  length (m_minCostPerAgent s') = length (m_minCostPerAgent s) /\
  forall x before after,
    m_minCostPerAgent s !! x = Some before ->
    m_minCostPerAgent s' !! x = Some after ->
    (after <=? before)%float = true.
Proof.
  intros Hnum H. unfold SelectionAndCorssing in H.
  apply bind_Done in H as (c0 & _ & H).
  pose (Inv := fun (_ : nat) (t : State Gen) (_ : float * Z) =>
    costs_are_numbers t /\
    length (m_minCostPerAgent t) = length (m_minCostPerAgent s) /\
    forall x before after,
      m_minCostPerAgent s !! x = Some before ->
      m_minCostPerAgent t !! x = Some after ->
      (after <=? before)%float = true).
  assert (Inv 0%nat s (c0, 0)) as HI0.
  { split; [done|]. split; [done|]. intros x before after Hb Ha.
    assert (after = before) as -> by congruence.
    apply leb_refl. by eapply (Forall_lookup_1 _ _ _ _ Hnum). }
  destruct (selection_loop_invariant de Inv) with (3 := HI0) (4 := H)
    as (x' & sf & best' & _ & HI & ->); [| |exact HI].
  - intros ? ? ? ? ? HI _ _ _. exact HI.
  - intros ? x t best tr s1 best' (Hn & Hl & Hm) _ _ _ Hsel _.
    apply select_costs in Hsel as (Hn1 & Hl1 & Hm1); [|done].
    simpl in *. split; [done|]. split; [congruence|].
    intros j before after Hb Ha.
    destruct (lookup_lt_is_Some_2 (m_minCostPerAgent t) j) as [mid Hmid].
    { rewrite Hl. by eapply lookup_lt_Some. }
    eapply leb_trans; [eapply Hm1 | eapply Hm]; eauto.
Qed.

(** Whatever the costs are, NaN included, no slot of the cache is worse
    after a generation than before. *)
Lemma SelectionAndCorssing_never_worse (fuel : nat) (s s' : State Gen) :
  SelectionAndCorssing fuel de s = Done s' ->
  forall x before after,
    m_minCostPerAgent s !! x = Some before ->
    m_minCostPerAgent s' !! x = Some after ->
    (before <? after)%float = false.
Proof.
  intros H. unfold SelectionAndCorssing in H.
  apply bind_Done in H as (c0 & _ & H).
  pose (Inv := fun (x : nat) (t : State Gen) (_ : float * Z) =>
    (forall j, (x <= j)%nat -> m_minCostPerAgent t !! j = m_minCostPerAgent s !! j) /\
    forall j before after, (j < x)%nat ->
      m_minCostPerAgent s !! j = Some before ->
      m_minCostPerAgent t !! j = Some after ->
      (before <? after)%float = false).
  assert (Inv 0%nat s (c0, 0)) as HI0.
  { split; [done|]. intros j before after Hj. lia. }
  destruct (selection_loop_invariant de Inv) with (3 := HI0) (4 := H)
    as (x' & sf & best' & _ & [Hrest Hdone] & ->).
  - intros ? ? ? ? ? HI _ _ _. exact HI.
  - intros ? x t best tr s1 best' [Hrest Hdone] _ _ _ Hsel _.
    apply select_Done in Hsel as (old & Hold & Hsel). simpl in Hold, Hsel.
    assert (forall j, j <> x -> m_minCostPerAgent s1 !! j = m_minCostPerAgent t !! j)
      as Hother.
    { intros j Hj. destruct (_ <? old)%float.
      - destruct Hsel as [_ ->]. simpl. by apply list_lookup_insert_ne.
      - by subst s1. }
    split.
    + intros j Hj. rewrite Hother by lia. apply Hrest. lia.
    + intros j before after Hj Hb Ha. destruct (decide (j = x)) as [->|Hne].
      * rewrite <- Hrest in Hb by lia. assert (before = old) as -> by congruence.
        destruct (EvaluteCost (m_cost de) (newX tr) <? old)%float eqn:Hlt.
        -- destruct Hsel as [_ ->]. simpl in Ha.
           rewrite list_lookup_insert_eq in Ha by (by eapply lookup_lt_Some).
           injection Ha as <-. by apply ltb_asym.
        -- subst s1. simpl in Ha. assert (after = old) as -> by congruence.
           apply ltb_irrefl.
      * rewrite Hother in Ha by done. apply (Hdone j); [lia|done|done].
  - simpl. intros x before after Hb Ha.
    destruct (Nat.lt_ge_cases x x') as [Hlt|Hge].
    + by apply (Hdone x).
    + rewrite Hrest in Ha by done. assert (after = before) as -> by congruence.
      apply ltb_irrefl.
Qed.

End Selection.



(* ===================================================================== *)
(** * The loop of Optimize *)
(* ===================================================================== *)

Section OptimizeLoop.
Context {Gen : Type} {RE : RandomEngine Gen}.
Variable de : DifferentialEvolution Gen.

Lemma after_generation_Done (verbose : bool) (s : State Gen) (evs : list (Event Gen)) :
  after_generation de verbose s = Done evs ->
  exists progress,
    evs = CallSelectionAndCorssing s :: progress
            ++ match m_callback de with Some _ => [CallCallback s] | None => [] end /\
    (if verbose
     then exists e, print_progress de s = Done e /\ progress = [e]
     else progress = []).
Proof.
  unfold after_generation. intros H. apply bind_Done in H as (progress & Hp & H).
  exists progress. split.
  - injection H as <-. by destruct (m_callback de).
  - destruct verbose.
    + apply bind_Done in Hp as (e & He & [= <-]). by exists e.
    + by injection Hp.
Qed.

Lemma print_progress_Done (s : State Gen) (e : Event Gen) :
  print_progress de s = Done e -> exists agent, e = PrintProgress (m_minCost s) agent.
Proof.
  unfold print_progress. intros H. apply bind_Done in H as (agent & _ & [= <-]).
  by exists agent.
Qed.

(** The only generation recorded by the events that follow a generation
    is that generation. *)
Lemma after_generation_calls (verbose : bool) (s t : State Gen) (evs : list (Event Gen)) :
  after_generation de verbose s = Done evs ->
  CallSelectionAndCorssing t ∈ evs -> t = s.
Proof.
  intros H Hin. apply after_generation_Done in H as (progress & -> & Hp).
  apply elem_of_cons in Hin as [[= ->]|Hin]; [done|].
  apply elem_of_app in Hin as [Hin|Hin].
  - destruct verbose.
    + destruct Hp as (e & He & ->). apply print_progress_Done in He as [agent ->].
      apply list_elem_of_singleton in Hin. done.
    + subst progress. by apply elem_of_nil in Hin.
  - destruct (m_callback de).
    + apply list_elem_of_singleton in Hin. done.
    + by apply elem_of_nil in Hin.
Qed.

(** The invariant rule of the optimization loop: a property of the state
    that every generation keeps holds of the state the loop returns and of
    the state left by each generation. *)
Lemma optimization_loop_invariant (P : State Gen -> Prop) :
  (forall fuel s s', P s -> SelectionAndCorssing fuel de s = Done s' -> P s') ->
  forall fuel verbose n s s' evs,
    P s ->
    optimization_loop fuel de verbose n s = Done (s', evs) ->
    P s' /\ forall t, CallSelectionAndCorssing t ∈ evs -> P t.
Proof.
  intros Hstep fuel verbose. induction n as [|n IH]; intros s s' evs HP H; simpl in H.
  - injection H as <- <-. split; [done|]. intros t Hin.
    destruct verbose; simpl in Hin.
    + apply list_elem_of_singleton in Hin. done.
    + by apply elem_of_nil in Hin.
  - apply bind_Done in H as (s1 & Hs1 & H). apply bind_Done in H as (evs1 & He & H).
    assert (P s1) as HP1 by eauto.
    assert (forall t, CallSelectionAndCorssing t ∈ evs1 -> P t) as Hevs1.
    { intros t Hin. by rewrite (after_generation_calls _ _ _ _ He Hin). }
    destruct (m_terminationCondition de) as [cond|].
    + destruct (cond s1).
      * injection H as <- <-. split; [done|]. intros t Hin.
        apply elem_of_app in Hin as [Hin|Hin]; [by apply Hevs1|].
        apply elem_of_cons in Hin as [Hin|Hin]; [done|].
        destruct verbose; simpl in Hin.
        -- apply list_elem_of_singleton in Hin. done.
        -- by apply elem_of_nil in Hin.
      * apply bind_Done in H as ([s2 rest] & Hloop & [= <- <-]).
        destruct (IH _ _ _ HP1 Hloop) as [HP2 Hrest]. split; [done|].
        intros t Hin. apply elem_of_app in Hin as [Hin|Hin]; [by apply Hevs1|].
        apply elem_of_cons in Hin as [Hin|Hin]; [done|]. by apply Hrest.
    + apply bind_Done in H as ([s2 rest] & Hloop & [= <- <-]).
      destruct (IH _ _ _ HP1 Hloop) as [HP2 Hrest]. split; [done|].
      intros t Hin. apply elem_of_app in Hin as [Hin|Hin]; [by apply Hevs1 | by apply Hrest].
Qed.

(** The same for [Optimize]: a property that [InitPopulation] establishes
    and every generation keeps. *)
Lemma Optimize_invariant (P : State Gen -> Prop) (s : State Gen) :
  (forall s', InitPopulation de s = Done s' -> P s') ->
  (forall fuel s s', P s -> SelectionAndCorssing fuel de s = Done s' -> P s') ->
  forall fuel iterations verbose s' evs,
    Optimize fuel de s iterations verbose = Done (s', evs) ->
    P s' /\ forall t, CallSelectionAndCorssing t ∈ evs -> P t.
Proof.
  intros Hinit Hstep fuel iterations verbose s' evs H. unfold Optimize in H.
  apply bind_Done in H as (s0 & Hs0 & H).
  apply bind_Done in H as ([s1 evs1] & Hloop & [= <- <-]).
  destruct (optimization_loop_invariant P Hstep _ _ _ _ _ _ (Hinit _ Hs0) Hloop)
    as [HP Hevs].
  split; [done|]. intros t Hin. apply elem_of_cons in Hin as [Hin|Hin]; [done|].
  by apply Hevs.
Qed.

End OptimizeLoop.

(* ===================================================================== *)
(** * The feasibility gate *)
(* ===================================================================== *)

Section Feasibility.
Context {Gen : Type} {RE : RandomEngine Gen}.
Variable de : DifferentialEvolution Gen.

Hypothesis Hdraw : draws_within_bounds de.

Lemma drawn_value_passes_Check (c : Constraints) (g : Gen) :
  c ∈ m_constraints de ->
  Check c (fst (if isConstrained c
                then uniform_real_distribution (lower c) (upper c) g
                else uniform_real_distribution g_defaultLowerConstraint
                                               g_defaultUpperConstarint g)) = true.
Proof.
  intros Hc. unfold Check. destruct (isConstrained c) eqn:E; [|done].
  specialize (Hdraw c Hc E g). simpl in Hdraw.
  apply andb_true_iff in Hdraw as [Hlo Hhi]. unfold geb.
  by rewrite (ltb_leb _ _ Hhi), Hlo.
Qed.

Lemma init_agent_Done (n i : nat) (agent : list float) (g : Gen)
    (agent' : list float) (g' : Gen) :
  init_agent (m_constraints de) n i agent g = Done (agent', g') ->
  length agent' = length agent /\
  (forall j, (j < i)%nat -> agent' !! j = agent !! j) /\
  (forall j, (i <= j < i + n)%nat ->
     exists c v, m_constraints de !! j = Some c /\ agent' !! j = Some v /\
                 Check c v = true).
Proof.
  revert i agent g. induction n as [|n IH]; intros i agent g; simpl.
  - intros [= <- <-]. split; [done|]. split; [done|]. intros j Hj. lia.
  - intros H. apply bind_Done in H as (c & Hc & H). apply vec_get_Done in Hc.
    pose proof (drawn_value_passes_Check c g (list_elem_of_lookup_2 _ _ _ Hc)) as Hv.
    destruct (if isConstrained c then _ else _) as [v g1]. simpl in Hv.
    apply bind_Done in H as (agent1 & Hset & H).
    apply vec_set_Done in Hset as [Hlen ->].
    apply IH in H as (Hl & Hbelow & Hdone).
    rewrite length_insert in Hl. split; [done|]. split.
    + intros j Hj. rewrite Hbelow by lia. apply list_lookup_insert_ne. lia.
    + intros j Hj. destruct (decide (j = i)) as [->|Hne].
      * exists c, v. rewrite Hbelow by lia.
        by rewrite list_lookup_insert_eq.
      * apply Hdone. lia.
Qed.

Lemma CheckConstraints_true (cs : list Constraints) (agent : list float) :
  (forall j, (j < length agent)%nat ->
     exists c v, cs !! j = Some c /\ agent !! j = Some v /\ Check c v = true) ->
  CheckConstraints cs agent = Done true.
Proof.
  revert cs. induction agent as [|v agent IH]; intros cs H; simpl; [reflexivity|].
  destruct (H 0%nat) as (c & v' & Hc & Hv & Hchk); [simpl; lia|].
  destruct cs as [|c' cs]; [done|]. simpl in Hc, Hv.
  injection Hc as ->. injection Hv as ->. rewrite Hchk. simpl.
  apply IH. intros j Hj. apply (H (S j)). simpl. lia.
Qed.

Lemma init_agents_Done (population : list (list float)) (g : Gen)
    (population' : list (list float)) (g' : Gen) :
  Forall (fun agent => length agent = m_numberOfParameters de) population ->
  init_agents (m_constraints de) (m_numberOfParameters de) population g
    = Done (population', g') ->
  Forall (fun agent => CheckConstraints (m_constraints de) agent = Done true) population'.
Proof.
  revert g population' g'. induction population as [|agent rest IH];
    intros g population' g' Hlen H; simpl in H.
  - injection H as <- <-. constructor.
  - apply Forall_cons in Hlen as [Hagent Hrest].
    apply bind_Done in H as ([agent' g1] & Ha & H).
    apply bind_Done in H as ([rest' g2] & Hr & [= <- <-]).
    constructor; [|by eapply IH].
    apply init_agent_Done in Ha as (Hl & _ & Hdone).
    apply CheckConstraints_true. intros j Hj. apply Hdone. lia.
Qed.

Lemma init_costs_population (n i : nat) (s s' : State Gen) :
  init_costs de n i s = Done s' -> m_population s' = m_population s.
Proof.
  revert i s. induction n as [|n IH]; intros i s; simpl.
  - by intros [= <-].
  - intros H. apply bind_Done in H as (agent & _ & H).
    apply bind_Done in H as (costs & _ & H). apply IH in H. rewrite H.
    by destruct (_ <? _)%float.
Qed.

Lemma InitPopulation_feasible (s s' : State Gen) :
  Forall (fun agent => length agent = m_numberOfParameters de) (m_population s) ->
  InitPopulation de s = Done s' -> feasible de s'.
Proof.
  intros Hlen H. unfold InitPopulation in H.
  apply bind_Done in H as ([population g] & Hp & H).
  apply init_costs_population in H. unfold feasible. rewrite H. simpl.
  by eapply init_agents_Done.
Qed.

End Feasibility.

Section Gate.
Context {Gen : Type} {RE : RandomEngine Gen}.
Variable de : DifferentialEvolution Gen.
Hypothesis Hcheck : m_shouldCheckConstraints de = true.

Lemma SelectionAndCorssing_feasible (fuel : nat) (s s' : State Gen) :
  feasible de s -> SelectionAndCorssing fuel de s = Done s' -> feasible de s'.
Proof.
  intros Hf H. unfold SelectionAndCorssing in H.
  apply bind_Done in H as (c0 & _ & H).
  destruct (selection_loop_invariant de (fun _ t _ => feasible de t))
    with (3 := Hf) (4 := H) as (x' & sf & best' & _ & HI & ->); [| |exact HI].
  - intros ? ? ? ? ? HI _ _ _. exact HI.
  - intros ? x t best tr s1 best' HI _ _ Hskip Hsel _.
    unfold should_skip in Hskip. rewrite Hcheck in Hskip.
    apply bind_Done in Hskip as (ok & Hok & [= Hneg]).
    destruct ok; [|done].
    apply select_Done in Hsel as (old & _ & Hsel).
    destruct (_ <? _)%float.
    + destruct Hsel as [_ ->]. unfold feasible in *. simpl.
      by apply Forall_insert.
    + by subst s1.
Qed.

(** A trial that fails the check is dropped: the loop goes on at the same
    [x], with the state unchanged but for the generator. *)
Lemma infeasible_trial_is_retried (fuel x : nat) (s : State Gen) (best : float * Z)
    (t : Trial Gen) :
  (x < m_populationSize de)%nat ->
  make_trial fuel de x s = Done t ->
  CheckConstraints (m_constraints de) (newX t) = Done false ->
  selection_loop (S fuel) de x s best
    = selection_loop fuel de x (with_generator s (trial_generator t)) best.
Proof.
  intros Hx Ht Hc. simpl.
  destruct (Nat.ltb_spec x (m_populationSize de)); [|lia].
  rewrite Ht. simpl. unfold should_skip. rewrite Hcheck, Hc. done.
Qed.

End Gate.

Lemma construct_Done
    {Gen : Type} {RE : RandomEngine Gen}
    (costFunction : IOptimizable) (populationSize : nat) (randomSeed : Z)
    (shouldCheckConstraints : bool)
    (callback : option (State Gen -> unit))
    (terminationCondition : option (State Gen -> bool))
    (de : DifferentialEvolution Gen) (s : State Gen) :
  construct costFunction populationSize randomSeed shouldCheckConstraints
            callback terminationCondition = Done (de, s) ->
  (4 <= populationSize)%nat /\
  de = mkDE costFunction populationSize 0.8 0.9 (NumberOfParameters costFunction)
            shouldCheckConstraints callback terminationCondition
            (GetConstraints costFunction) /\
  s = mkState (seed randomSeed)
              (replicate populationSize (replicate (NumberOfParameters costFunction) 0%float))
              (replicate populationSize 0%float) 0 neg_infinity.
Proof.
  unfold construct. destruct (Nat.leb_spec 4 populationSize); [|done].
  by intros [= <- <-].
Qed.

(** A scripted engine keeps the contract when every number of its cycle
    does. *)
Lemma scripted_draws_in (script : list float) (a b : float) :
  script <> [] ->
  Forall (fun u => (a <=? u * (b - a) + a)%float && (u * (b - a) + a <? b)%float = true)
         script ->
  draws_in (RE := scripted script) a b.
Proof.
  intros Hne Hall g. simpl.
  assert (nth (g mod length script) script 0%float ∈ script) as Hin.
  { apply list_elem_of_In, nth_In, Nat.mod_upper_bound.
    destruct script; [done | simpl; lia]. }
  by apply (proj1 (Forall_forall _ _) Hall) in Hin.
Qed.

(** Without the check a trial outside the box is stored when it is
    cheaper: slot 0 of the escape run goes from [[-100; -100]] at cost
    60000 to [[115; -35]] at cost 8850, beyond the upper bound 100. *)
Lemma unchecked_trial_escapes :
  m_shouldCheckConstraints escape_de = false /\
  feasible escape_de escape_initialized /\
  SelectionAndCorssing (RE := escape_engine) 10 escape_de escape_initialized
    = Done escape_generation_1 /\
  m_population escape_generation_1 !! 0%nat = Some [115; -35]%float /\
  CheckConstraints (m_constraints escape_de) [115; -35]%float = Done false.
Proof.
  split; [done|]. split; [by repeat constructor|].
  split; [vm_compute; reflexivity|]. split; reflexivity.
Qed.

(** C4: with constraint checking enabled, and draws of the engine within
    the bounds they are asked for, every agent stored in the population
    passes [CheckConstraints]: after [InitPopulation], after every call of
    [SelectionAndCorssing] and so throughout [Optimize]; a trial that fails
    the check is dropped and its slot tried again.  With checking disabled
    a trial outside the bounds and of lower cost is stored. *)
Theorem feasibility_gate
    {Gen : Type} {RE : RandomEngine Gen}
    (costFunction : IOptimizable) (populationSize : nat) (randomSeed : Z)
    (callback : option (State Gen -> unit))
    (terminationCondition : option (State Gen -> bool))
    (de : DifferentialEvolution Gen) (s0 : State Gen) :
  construct costFunction populationSize randomSeed true
            callback terminationCondition = Done (de, s0) ->
  draws_within_bounds de ->
  (forall s1, InitPopulation de s0 = Done s1 -> feasible de s1) /\
  (forall fuel s s',
     feasible de s -> SelectionAndCorssing fuel de s = Done s' -> feasible de s') /\
  (forall fuel iterations verbose s' evs,
     Optimize fuel de s0 iterations verbose = Done (s', evs) ->
     feasible de s' /\ forall t, CallSelectionAndCorssing t ∈ evs -> feasible de t) /\
  (forall fuel x s best t,
     (x < m_populationSize de)%nat ->
     make_trial fuel de x s = Done t ->
     CheckConstraints (m_constraints de) (newX t) = Done false ->
     selection_loop (S fuel) de x s best
       = selection_loop fuel de x (with_generator s (trial_generator t)) best) /\
  (exists (unchecked : DifferentialEvolution nat) (s s' : State nat),
     m_shouldCheckConstraints unchecked = false /\
     feasible unchecked s /\
     SelectionAndCorssing (RE := escape_engine) 10 unchecked s = Done s' /\
     ~ feasible unchecked s').
Proof.
  intros Hc Hdraw.
  destruct (construct_Done _ _ _ _ _ _ _ _ Hc) as (Hn & Hde & Hs0).
  assert (m_shouldCheckConstraints de = true) as Hcheck by (by subst de).
  assert (Forall (fun agent => length agent = m_numberOfParameters de) (m_population s0))
    as Hlen.
  { subst de s0. simpl. apply Forall_replicate. apply length_replicate. }
  assert (forall s1, InitPopulation de s0 = Done s1 -> feasible de s1) as Hinit.
  { intros s1. by apply InitPopulation_feasible. }
  split; [exact Hinit|]. split; [|split; [|split]].
  - intros fuel s s'. by apply SelectionAndCorssing_feasible.
  - intros fuel iterations verbose s' evs.
    apply (Optimize_invariant de (feasible de)); [exact Hinit|].
    intros f s t. by apply SelectionAndCorssing_feasible.
  - intros fuel x s best t. by apply infeasible_trial_is_retried.
  - destruct unchecked_trial_escapes as (Hoff & Hf & Hrun & Hslot & Hbad).
    exists escape_de, escape_initialized, escape_generation_1.
    do 3 (split; [done|]). intros Hf'.
    apply (Forall_lookup_1 _ _ _ _ Hf') in Hslot. congruence.
Qed.

Lemma demo_draws_within_bounds : draws_within_bounds (RE := demo_engine) demo_de.
Proof.
  intros c Hc Hcons.
  assert (c = mkConstraints (-100) 100 true) as ->.
  { simpl in Hc. by repeat (apply elem_of_cons in Hc as [->|Hc]; [done|]);
      apply elem_of_nil in Hc. }
  apply scripted_draws_in; [done|].
  unfold demo_script. repeat (constructor; [vm_compute; reflexivity|]). constructor.
Defined.

Lemma feasibility_gate_demo :
  feasible demo_de demo_initialized /\ feasible demo_de demo_generation_1.
Proof.
  destruct (feasibility_gate (RE := demo_engine) Quadratic 4 0 None None
              demo_de demo_constructed eq_refl demo_draws_within_bounds)
    as (Hinit & Hstep & _).
  assert (feasible demo_de demo_initialized) as H1.
  { apply Hinit. vm_compute. reflexivity. }
  split; [exact H1|].
  apply (Hstep 10%nat demo_initialized); [exact H1|]. vm_compute. reflexivity.
Defined.

(* ===================================================================== *)
(** * The cost cache *)
(* ===================================================================== *)

Section Cache.
Context {Gen : Type} {RE : RandomEngine Gen}.
Variable de : DifferentialEvolution Gen.

(** The second loop of [InitPopulation] fills the cache slot by slot. *)
Lemma init_costs_in_sync (n i : nat) (s s' : State Gen) :
  init_costs de n i s = Done s' ->
  (forall j, (j < i)%nat ->
     exists agent, m_population s !! j = Some agent /\
                   m_minCostPerAgent s !! j = Some (EvaluteCost (m_cost de) agent)) ->
  forall j, (j < i + n)%nat ->
    exists agent, m_population s' !! j = Some agent /\
                  m_minCostPerAgent s' !! j = Some (EvaluteCost (m_cost de) agent).
Proof.
  revert i s. induction n as [|n IH]; intros i s; simpl.
  - intros [= <-] Hbelow j Hj. apply Hbelow. lia.
  - intros H Hbelow j Hj.
    apply bind_Done in H as (agent & Hagent & H). apply vec_get_Done in Hagent.
    apply bind_Done in H as (costs & Hcosts & H).
    apply vec_set_Done in Hcosts as [Hlen ->].
    apply IH with (j := j) in H; [done| |lia].
    intros k Hk.
    assert (exists a, m_population s !! k = Some a /\
              <[i := EvaluteCost (m_cost de) agent]> (m_minCostPerAgent s) !! k
                = Some (EvaluteCost (m_cost de) a)) as Hgoal.
    { destruct (decide (k = i)) as [->|Hne].
      - exists agent. by rewrite list_lookup_insert_eq.
      - destruct (Hbelow k) as (a & Ha & Hc); [lia|].
        exists a. by rewrite list_lookup_insert_ne. }
    by destruct (_ <? _)%float.
Qed.

Lemma InitPopulation_in_sync (s s' : State Gen) :
  InitPopulation de s = Done s' -> cache_in_sync de s'.
Proof.
  unfold InitPopulation. intros H.
  apply bind_Done in H as ([population g] & _ & H).
  intros j Hj. eapply init_costs_in_sync; [exact H | | lia].
  intros k Hk. lia.
Qed.

Lemma select_in_sync (x : nat) (candidate : list float) (s s' : State Gen) :
  cache_in_sync de s -> select de x candidate s = Done s' -> cache_in_sync de s'.
Proof.
  intros Hsync H. apply select_Done in H as (old & Hold & H).
  destruct (_ <? _)%float; [|by subst s'].
  destruct H as [Hlen ->]. intros j Hj. simpl.
  destruct (decide (j = x)) as [->|Hne].
  - exists candidate. rewrite !list_lookup_insert_eq; [done| |done].
    by eapply lookup_lt_Some.
  - destruct (Hsync j Hj) as (a & Ha & Hc). exists a.
    by rewrite !list_lookup_insert_ne.
Qed.

Lemma SelectionAndCorssing_in_sync (fuel : nat) (s s' : State Gen) :
  cache_in_sync de s -> SelectionAndCorssing fuel de s = Done s' -> cache_in_sync de s'.
Proof.
  intros Hsync H. unfold SelectionAndCorssing in H.
  apply bind_Done in H as (c0 & _ & H).
  destruct (selection_loop_invariant de (fun _ t _ => cache_in_sync de t))
    with (3 := Hsync) (4 := H) as (x' & sf & best' & _ & HI & ->); [| |exact HI].
  - intros ? ? ? ? ? HI _ _ _. exact HI.
  - intros ? x t best tr s1 best' HI _ _ _ Hsel _.
    eapply select_in_sync; [|exact Hsel]. exact HI.
Qed.

Lemma GetPopulationWithCosts_Done (s : State Gen) (l : list (list float * float)) :
  GetPopulationWithCosts de s = Done l ->
  length l = m_populationSize de /\
  forall i, (i < m_populationSize de)%nat ->
    exists agent cost,
      m_population s !! i = Some agent /\
      m_minCostPerAgent s !! i = Some cost /\
      l !! i = Some (agent, cost).
Proof.
  intros H. apply for_each_Done in H as [Hlen H]. split; [done|].
  intros i Hi. destruct (H i Hi) as (y & Hy & Hbody).
  apply bind_Done in Hbody as (agent & Ha & Hbody).
  apply bind_Done in Hbody as (cost & Hc & [= <-]).
  apply vec_get_Done in Ha, Hc. by exists agent, cost.
Qed.

Lemma GetPopulationWithCosts_returns (s : State Gen) :
  cache_in_sync de s ->
  exists l, GetPopulationWithCosts de s = Done l /\
    length l = m_populationSize de /\
    forall i, (i < m_populationSize de)%nat ->
      exists agent,
        m_population s !! i = Some agent /\
        l !! i = Some (agent, EvaluteCost (m_cost de) agent).
Proof.
  intros Hsync.
  destruct (for_each_returns (m_populationSize de) (fun i =>
              agent ← vec_get (m_population s) i;
              cost ← vec_get (m_minCostPerAgent s) i;
              Done (agent, cost))) as [l Hl].
  { intros i Hi. destruct (Hsync i Hi) as (a & Ha & Hc).
    apply vec_get_Done in Ha, Hc. rewrite Ha. simpl. rewrite Hc. simpl. by eexists. }
  exists l. split; [exact Hl|].
  apply GetPopulationWithCosts_Done in Hl as [Hlen Hl]. split; [done|].
  intros i Hi. destruct (Hl i Hi) as (agent & cost & Ha & Hc & Hi').
  destruct (Hsync i Hi) as (a & Ha' & Hc'). exists agent. split; [done|].
  congruence.
Qed.

End Cache.

(** C5: the cost cache is never stale.  After [InitPopulation] and after
    every call of [SelectionAndCorssing], slot [i] of the cache is
    [EvaluteCost] of agent [i], for every slot; so it is throughout
    [Optimize].  [GetPopulationWithCosts] returns [m_populationSize]
    entries, entry [i] being agent [i] paired with cached cost [i]; on a
    cache in sync it returns, and the cost of each entry is [EvaluteCost]
    of its agent. *)
Theorem cost_cache_in_sync
    {Gen : Type} {RE : RandomEngine Gen} (de : DifferentialEvolution Gen) :
  (forall s s', InitPopulation de s = Done s' -> cache_in_sync de s') /\
  (forall fuel s s',
     cache_in_sync de s -> SelectionAndCorssing fuel de s = Done s' ->
     cache_in_sync de s') /\
  (forall fuel s iterations verbose s' evs,
     Optimize fuel de s iterations verbose = Done (s', evs) ->
     cache_in_sync de s' /\
     forall t, CallSelectionAndCorssing t ∈ evs -> cache_in_sync de t) /\
  (forall s l,
     GetPopulationWithCosts de s = Done l ->
     length l = m_populationSize de /\
     forall i, (i < m_populationSize de)%nat ->
       exists agent cost,
         m_population s !! i = Some agent /\
         m_minCostPerAgent s !! i = Some cost /\
         l !! i = Some (agent, cost)) /\
  (forall s,
     cache_in_sync de s ->
     exists l, GetPopulationWithCosts de s = Done l /\
       length l = m_populationSize de /\
       forall i, (i < m_populationSize de)%nat ->
         exists agent,
           m_population s !! i = Some agent /\
           l !! i = Some (agent, EvaluteCost (m_cost de) agent)).
Proof.
  split; [|split; [|split; [|split]]].
  - apply InitPopulation_in_sync.
  - apply SelectionAndCorssing_in_sync.
  - intros fuel s iterations verbose s' evs.
    apply (Optimize_invariant de (cache_in_sync de)).
    + apply InitPopulation_in_sync.
    + apply SelectionAndCorssing_in_sync.
  - apply GetPopulationWithCosts_Done.
  - apply GetPopulationWithCosts_returns.
Qed.

Lemma cost_cache_in_sync_demo :
  cache_in_sync demo_de demo_generation_1 /\
  GetPopulationWithCosts demo_de demo_generation_1
    = Done [([-17.5; -47.5], 8737.5); ([52.5; -17.5], 1837.5);
            ([0; 50], 7500); ([24.5; 12.5], 1681.5)]%float.
Proof.
  destruct (cost_cache_in_sync (RE := demo_engine) demo_de) as (Hinit & Hstep & _).
  split; [|reflexivity].
  apply (Hstep 10%nat demo_initialized).
  - apply (Hinit demo_constructed). vm_compute. reflexivity.
  - vm_compute. reflexivity.
Defined.

(* ===================================================================== *)
(** * Best tracking *)
(* ===================================================================== *)

Section Best.
Context {Gen : Type} {RE : RandomEngine Gen}.
Variable de : DifferentialEvolution Gen.

(** [InitPopulation] compares every cost with [m_minCost]; starting from
    minus infinity the comparison never succeeds. *)
Lemma init_costs_best (n i : nat) (s s' : State Gen) :
  init_costs de n i s = Done s' ->
  m_minCost s = neg_infinity ->
  m_minCost s' = neg_infinity /\ m_bestAgentIndex s' = m_bestAgentIndex s.
Proof.
  revert i s. induction n as [|n IH]; intros i s; simpl.
  - by intros [= <-].
  - intros H Hinf. apply bind_Done in H as (agent & _ & H).
    apply bind_Done in H as (costs & _ & H).
    rewrite Hinf, ltb_neg_infinity in H. by apply IH in H.
Qed.

Lemma InitPopulation_best (s s' : State Gen) :
  InitPopulation de s = Done s' ->
  m_minCost s = neg_infinity ->
  m_minCost s' = neg_infinity /\ m_bestAgentIndex s' = m_bestAgentIndex s.
Proof.
  unfold InitPopulation. intros H Hinf.
  apply bind_Done in H as ([population g] & _ & H).
  by apply init_costs_best in H.
Qed.

Lemma tracking_advance (len x : nat) (s s1 : State Gen) (best best' : float * Z)
    (candidate : list float) (g : Gen) :
  tracking de len x s best ->
  (x < m_populationSize de)%nat ->
  select de x candidate (with_generator s g) = Done s1 ->
  track x s1 best = Done best' ->
  tracking de len (S x) s1 best'.
Proof.
  intros (Hnum & Hlen & _ & Hpos & Hbest & Hwhere & Hmin) Hx Hsel Htrack.
  destruct (select_costs de _ _ _ _ Hsel Hnum) as (Hnum1 & Hlen1 & _).
  apply select_Done in Hsel as (old & Hold & Hsel). simpl in Hold, Hsel, Hlen1.
  apply track_Done in Htrack as (cx & Hcx & ->).
  assert (forall j, j <> x -> m_minCostPerAgent s1 !! j = m_minCostPerAgent s !! j)
    as Hother.
  { intros j Hj. destruct (_ <? old)%float.
    - destruct Hsel as [_ ->]. simpl. by apply list_lookup_insert_ne.
    - by subst s1. }
  assert (is_nan cx = false) as Hcxnum by (by eapply (Forall_lookup_1 _ _ _ _ Hnum1)).
  assert (is_nan (fst best) = false) as Hbnum by (by eapply (Forall_lookup_1 _ _ _ _ Hnum)).
  destruct (cx <? fst best)%float eqn:Hlt; unfold tracking; simpl.
  - split; [done|]. split; [congruence|]. split; [lia|]. split; [lia|].
    rewrite Nat2Z.id. split; [done|]. split; [left; lia|].
    intros j c Hj Hc. destruct (decide (j = x)) as [->|Hne].
    + assert (c = cx) as -> by congruence. by apply leb_refl.
    + rewrite Hother in Hc by done.
      eapply leb_trans; [by apply ltb_leb | apply (Hmin j)]; [lia | done].
  - split; [done|]. split; [congruence|]. split; [lia|]. split; [done|].
    assert (m_minCostPerAgent s1 !! Z.to_nat (snd best) = Some (fst best)) as Hkeep.
    { destruct (decide (Z.to_nat (snd best) = x)) as [Heq|Hne].
      - destruct (EvaluteCost (m_cost de) candidate <? old)%float eqn:Hnew.
        + destruct Hsel as [_ ->]. simpl in Hcx.
          rewrite list_lookup_insert_eq in Hcx by (by eapply lookup_lt_Some).
          injection Hcx as <-. rewrite Heq in Hbest. congruence.
        + by subst s1.
      - by rewrite Hother. }
    split; [done|]. split; [destruct Hwhere as [?|[-> ->]]; left; simpl; lia|].
    intros j c Hj Hc. destruct (decide (j = x)) as [->|Hne].
    + assert (c = cx) as -> by congruence. by apply leb_total.
    + rewrite Hother in Hc by done. apply (Hmin j); [lia | done].
Qed.

(** After a generation the best-tracking members name a least cost of the
    cache (costs being numbers). *)
Lemma SelectionAndCorssing_best_is_minimum (fuel : nat) (s s' : State Gen) :
  costs_are_numbers s ->
  length (m_minCostPerAgent s) = m_populationSize de ->
  SelectionAndCorssing fuel de s = Done s' ->
  GetBestCost s' = Done (m_minCost s') /\
  is_minimum (m_minCost s') (m_minCostPerAgent s') /\
  0 <= m_bestAgentIndex s' < Z.of_nat (m_populationSize de).
Proof.
  intros Hnum Hlen H. unfold SelectionAndCorssing in H.
  apply bind_Done in H as (c0 & Hc0 & H). apply vec_get_Done in Hc0.
  assert (tracking de (m_populationSize de) 0 s (c0, 0)) as HI0.
  { split; [done|]. split; [done|]. split; [lia|]. split; [done|].
    split; [done|]. split; [by right|]. intros j c Hj. lia. }
  destruct (selection_loop_invariant de (tracking de (m_populationSize de)))
    with (3 := HI0) (4 := H) as (x' & sf & [mc bi] & Hx' & HI & ->).
  - intros ? ? ? ? ? HI _ _ _. exact HI.
  - intros ? x t best tr s1 best' HI Hx _ _ Hsel Htrack.
    by eapply tracking_advance.
  - destruct HI as (Hnum' & Hlen' & Hle & Hpos & Hbest & Hwhere & Hmin).
    simpl in *. assert (x' = m_populationSize de) as -> by lia.
    pose proof (lookup_lt_Some _ _ _ Hbest) as Hbi. rewrite Hlen' in Hbi.
    split; [by apply vec_at_Done|]. split; [|lia].
    split; [by eapply list_elem_of_lookup_2|].
    apply Forall_lookup_2. intros j c Hc. apply (Hmin j); [|done].
    rewrite <- Hlen'. by eapply lookup_lt_Some.
Qed.

End Best.

(** C1: the best-tracking invariant fails after [InitPopulation].  On the
    demo run the optimizer is built and initialised; the cost cache is
    [[13750; 5156.25; 7500; 5937.5]], yet [m_bestAgentIndex] is still 0 and
    [m_minCost] still minus infinity, so [GetBestCost] returns 13750, which
    is not the minimum of the cache. *)
Theorem InitPopulation_best_is_not_minimum :
  construct (RE := demo_engine) Quadratic 4 0 true None None
    = Done (demo_de, demo_constructed) /\
  InitPopulation (RE := demo_engine) demo_de demo_constructed = Done demo_initialized /\
  m_bestAgentIndex demo_initialized = 0 /\
  m_minCost demo_initialized = neg_infinity /\
  GetBestCost demo_initialized = Done 13750%float /\
  m_minCostPerAgent demo_initialized !! 1%nat = Some 5156.25%float /\
  ~ is_minimum 13750 (m_minCostPerAgent demo_initialized).
Proof.
  split; [reflexivity|]. split; [vm_compute; reflexivity|].
  do 4 (split; [reflexivity|]).
  intros [_ Hmin]. apply (Forall_lookup_1 _ _ 1%nat 5156.25%float) in Hmin; [|done].
  vm_compute in Hmin. done.
Qed.

(** The same on every optimizer, whatever the costs: after construction
    and [InitPopulation] the best index is 0 and [m_minCost] is minus
    infinity. *)
Lemma InitPopulation_never_tracks
    {Gen : Type} {RE : RandomEngine Gen}
    (costFunction : IOptimizable) (populationSize : nat) (randomSeed : Z)
    (shouldCheckConstraints : bool)
    (callback : option (State Gen -> unit))
    (terminationCondition : option (State Gen -> bool))
    (de : DifferentialEvolution Gen) (s0 s1 : State Gen) :
  construct costFunction populationSize randomSeed shouldCheckConstraints
            callback terminationCondition = Done (de, s0) ->
  InitPopulation de s0 = Done s1 ->
  m_bestAgentIndex s1 = 0 /\ m_minCost s1 = neg_infinity /\
  GetBestCost s1 = vec_get (m_minCostPerAgent s1) 0.
Proof.
  intros Hc Hinit. apply construct_Done in Hc as (_ & _ & ->).
  apply InitPopulation_best in Hinit as [Hmin Hbest]; [|done]. simpl in Hbest.
  unfold GetBestCost. by rewrite Hbest.
Qed.

(* ===================================================================== *)
(** * Reproducibility *)
(* ===================================================================== *)

Section Fuel.
Context {Gen : Type} {RE : RandomEngine Gen}.
Variable de : DifferentialEvolution Gen.

(** A call that returns with some fuel returns the same with more. *)
Lemma select_donors_fuel (fuel fuel' : nat) (n : nat) (x a b c : Z) (g : Gen)
    (r : Z * Z * Z * Gen) :
  select_donors fuel n x a b c g = Done r -> (fuel <= fuel')%nat ->
  select_donors fuel' n x a b c g = Done r.
Proof.
  revert fuel' a b c g. induction fuel as [|fuel IH]; intros fuel' a b c g H Hle.
  - simpl in H. destruct fuel'; simpl; by destruct (donors_clash x a b c).
  - destruct fuel' as [|fuel']; [lia|]. simpl in *.
    destruct (donors_clash x a b c); [|done].
    apply bind_Done in H as ([[[a' b'] c'] g'] & -> & H). simpl.
    apply IH; [done | lia].
Qed.

Lemma make_trial_fuel (fuel fuel' : nat) (x : nat) (s : State Gen) (t : Trial Gen) :
  make_trial fuel de x s = Done t -> (fuel <= fuel')%nat ->
  make_trial fuel' de x s = Done t.
Proof.
  unfold make_trial. intros H Hle. apply bind_Done in H as (r & Hr & H).
  by rewrite (select_donors_fuel _ _ _ _ _ _ _ _ _ Hr Hle).
Qed.

Lemma selection_loop_fuel (fuel fuel' : nat) (x : nat) (s : State Gen)
    (best : float * Z) (s' : State Gen) :
  selection_loop fuel de x s best = Done s' -> (fuel <= fuel')%nat ->
  selection_loop fuel' de x s best = Done s'.
Proof.
  revert fuel' x s best. induction fuel as [|fuel IH]; intros fuel' x s best H Hle.
  - simpl in H. destruct fuel'; simpl; by destruct (x <? m_populationSize de)%nat.
  - destruct fuel' as [|fuel']; [lia|]. simpl in *.
    destruct (x <? m_populationSize de)%nat; [|done].
    apply bind_Done in H as (t & Ht & H).
    rewrite (make_trial_fuel fuel fuel' _ _ _ Ht) by lia. simpl.
    apply bind_Done in H as (skip & -> & H). simpl.
    destruct skip.
    + apply IH; [done | lia].
    + apply bind_Done in H as (s1 & -> & H). simpl.
      apply bind_Done in H as (best' & -> & H). simpl.
      apply IH; [done | lia].
Qed.

Lemma SelectionAndCorssing_fuel (fuel fuel' : nat) (s s' : State Gen) :
  SelectionAndCorssing fuel de s = Done s' -> (fuel <= fuel')%nat ->
  SelectionAndCorssing fuel' de s = Done s'.
Proof.
  unfold SelectionAndCorssing. intros H Hle.
  apply bind_Done in H as (c0 & -> & H). simpl. by eapply selection_loop_fuel.
Qed.

Lemma optimization_loop_fuel (fuel fuel' : nat) (verbose : bool) (n : nat)
    (s : State Gen) (r : State Gen * list (Event Gen)) :
  optimization_loop fuel de verbose n s = Done r -> (fuel <= fuel')%nat ->
  optimization_loop fuel' de verbose n s = Done r.
Proof.
  intros H Hle. revert s r H. induction n as [|n IH]; intros s r H; simpl in *; [done|].
  apply bind_Done in H as (s1 & Hs1 & H).
  rewrite (SelectionAndCorssing_fuel _ _ _ _ Hs1 Hle). simpl.
  apply bind_Done in H as (evs & -> & H). simpl.
  destruct (m_terminationCondition de) as [cond|].
  - destruct (cond s1); [done|].
    apply bind_Done in H as (r' & Hr' & H). by rewrite (IH _ _ Hr').
  - apply bind_Done in H as (r' & Hr' & H). by rewrite (IH _ _ Hr').
Qed.

Lemma Optimize_fuel (fuel fuel' : nat) (s : State Gen) (iterations : Z) (verbose : bool)
    (r : State Gen * list (Event Gen)) :
  Optimize fuel de s iterations verbose = Done r -> (fuel <= fuel')%nat ->
  Optimize fuel' de s iterations verbose = Done r.
Proof.
  unfold Optimize. intros H Hle. apply bind_Done in H as (s0 & -> & H). simpl.
  apply bind_Done in H as (r' & Hr' & H).
  by rewrite (optimization_loop_fuel _ _ _ _ _ _ Hr' Hle).
Qed.

End Fuel.

(* ===================================================================== *)
(** * Donor selection *)
(* ===================================================================== *)

Section Donors.
Context {Gen : Type} {RE : RandomEngine Gen}.
Variable n : nat.

Lemma donors_clash_false (x a b c : Z) :
  donors_clash x a b c = false <->
  a <> x /\ b <> x /\ c <> x /\ a <> b /\ a <> c /\ b <> c.
Proof.
  unfold donors_clash. rewrite !orb_false_iff, !Z.eqb_neq. tauto.
Qed.

Lemma select_donors_no_clash (fuel : nat) (x a b c : Z) (g : Gen) :
  donors_clash x a b c = false ->
  select_donors fuel n x a b c g = Done (a, b, c, g).
Proof. intros H. destruct fuel; simpl; by rewrite H. Qed.

Lemma select_donors_clash (fuel : nat) (x a b c : Z) (g : Gen) :
  donors_clash x a b c = true ->
  select_donors (S fuel) n x a b c g
    = '(a', b', c', g') ← draw_donors n g; select_donors fuel n x a' b' c' g'.
Proof. intros H. simpl. by rewrite H. Qed.

(** The loop returns the first triple without a clash, and returns
    exactly when there is one within the fuel. *)
Lemma select_donors_Done (fuel : nat) (x a0 b0 c0 : Z) (g : Gen)
    (a b c : Z) (g' : Gen) :
  donors_clash x a0 b0 c0 = true ->
  select_donors fuel n x a0 b0 c0 g = Done (a, b, c, g') <->
  exists k, (k < fuel)%nat /\
    nth_draw n k g = Done (a, b, c, g') /\
    donors_clash x a b c = false /\
    forall j, (j < k)%nat ->
      exists a' b' c' g'', nth_draw n j g = Done (a', b', c', g'') /\
                           donors_clash x a' b' c' = true.
Proof.
  revert a0 b0 c0 g. induction fuel as [|fuel IH]; intros a0 b0 c0 g Hclash.
  - simpl. rewrite Hclash. split; [done|]. intros (k & Hk & _). lia.
  - rewrite select_donors_clash by done. split.
    + intros H. apply bind_Done in H as ([[[a1 b1] c1] g1] & Hdraw & H).
      destruct (donors_clash x a1 b1 c1) eqn:Hc1.
      * apply IH in H as (k & Hk & Hnth & Hok & Hbefore); [|done].
        exists (S k). split; [lia|]. split; [simpl; by rewrite Hdraw|].
        split; [done|]. intros [|j] Hj.
        -- by exists a1, b1, c1, g1.
        -- destruct (Hbefore j) as (a' & b' & c' & g'' & Hj' & Hcj); [lia|].
           exists a', b', c', g''. split; [simpl; by rewrite Hdraw | done].
      * rewrite select_donors_no_clash in H by done. injection H as <- <- <- <-.
        exists 0%nat. split; [lia|]. split; [done|]. split; [done|].
        intros j Hj. lia.
    + intros ([|k] & Hk & Hnth & Hok & Hbefore); simpl in Hnth.
      * rewrite Hnth. simpl. by apply select_donors_no_clash.
      * apply bind_Done in Hnth as ([[[a1 b1] c1] g1] & Hdraw & Hnth).
        rewrite Hdraw. simpl.
        destruct (Hbefore 0%nat) as (a' & b' & c' & g'' & H0 & Hc0); [lia|].
        simpl in H0. rewrite Hdraw in H0. injection H0 as <- <- <- <-.
        apply IH; [done|]. exists k. split; [lia|]. do 2 (split; [done|]).
        intros j Hj. destruct (Hbefore (S j)) as (a' & b' & c' & g'' & Hj' & Hcj); [lia|].
        simpl in Hj'. rewrite Hdraw in Hj'. by exists a', b', c', g''.
Qed.

Hypothesis Hrange : donor_draws_in_range n.

Lemma draw_donors_in_range (g : Gen) :
  exists a b c g', draw_donors n g = Done (a, b, c, g') /\
    0 <= a < Z.of_nat n /\ 0 <= b < Z.of_nat n /\ 0 <= c < Z.of_nat n.
Proof.
  unfold draw_donors.
  destruct (Hrange g) as (a & Ha & Hra).
  destruct (uniform_real_distribution _ _ g) as [da g1]. simpl in Ha. rewrite Ha. simpl.
  destruct (Hrange g1) as (b & Hb & Hrb).
  destruct (uniform_real_distribution _ _ g1) as [db g2]. simpl in Hb. rewrite Hb. simpl.
  destruct (Hrange g2) as (c & Hc & Hrc).
  destruct (uniform_real_distribution _ _ g2) as [dc g3]. simpl in Hc. rewrite Hc. simpl.
  by exists a, b, c, g3.
Qed.

Lemma nth_draw_in_range (k : nat) (g : Gen) :
  exists a b c g', nth_draw n k g = Done (a, b, c, g') /\
    0 <= a < Z.of_nat n /\ 0 <= b < Z.of_nat n /\ 0 <= c < Z.of_nat n.
Proof.
  revert g. induction k as [|k IH]; intros g; simpl.
  - apply draw_donors_in_range.
  - destruct (draw_donors_in_range g) as (a & b & c & g' & -> & _). simpl. apply IH.
Qed.

(** Three indices below [n], different from each other and from a fourth,
    need [n >= 4]. *)
Lemma small_population_clashes (x a b c : Z) :
  (n < 4)%nat ->
  0 <= x < Z.of_nat n -> 0 <= a < Z.of_nat n ->
  0 <= b < Z.of_nat n -> 0 <= c < Z.of_nat n ->
  donors_clash x a b c = true.
Proof.
  intros Hn Hx Ha Hb Hc. destruct (donors_clash x a b c) eqn:E; [done|].
  apply donors_clash_false in E. lia.
Qed.

Lemma select_donors_small_population (fuel : nat) (x a b c : Z) (g : Gen) :
  (n < 4)%nat -> 0 <= x < Z.of_nat n ->
  donors_clash x a b c = true ->
  select_donors fuel n x a b c g = OutOfFuel.
Proof.
  intros Hn Hx. revert a b c g. induction fuel as [|fuel IH]; intros a b c g Hclash.
  - simpl. by rewrite Hclash.
  - rewrite select_donors_clash by done.
    destruct (draw_donors_in_range g) as (a' & b' & c' & g' & -> & Ha & Hb & Hc).
    simpl. apply IH. by apply small_population_clashes.
Qed.

End Donors.

Lemma donors_exist (n : nat) (x : Z) :
  (4 <= n)%nat ->
  exists a b c,
    0 <= a < Z.of_nat n /\ 0 <= b < Z.of_nat n /\ 0 <= c < Z.of_nat n /\
    donors_clash x a b c = false.
Proof.
  intros Hn.
  destruct (decide (x = 0)) as [->|H0]; [exists 1, 2, 3; repeat split; lia|].
  destruct (decide (x = 1)) as [->|H1]; [exists 0, 2, 3; repeat split; lia|].
  destruct (decide (x = 2)) as [->|H2]; [exists 0, 1, 3; repeat split; lia|].
  exists 0, 1, 2. repeat split; try lia. apply donors_clash_false. lia.
Qed.

(** The contract of the distribution carries over to the indices: the
    integer part of a [double] in [[0, n)] is an index below [n]. *)
Lemma contract_donor_draws_in_range
    {Gen : Type} {RE : RandomEngine Gen} (n : nat) :
  Z.of_nat n <= INT_MAX + 1 ->
  draws_in 0 (double_of_unsigned n) ->
  donor_draws_in_range n.
Proof.
  intros Hn Hdraws g. specialize (Hdraws g). simpl in Hdraws.
  apply andb_true_iff in Hdraws as [Hlo Hhi].
  eapply double_to_int_below; [done | done | | done].
  apply double_of_unsigned_exact. unfold INT_MAX in Hn.
  eapply Z.le_lt_trans; [exact Hn | reflexivity].
Qed.

(** X14: donor selection.  For a slot [x] of a population of [n] agents,
    with draws of the engine in [[0, n)], the donor loop returns the first
    triple drawn whose indices [a], [b], [c] differ from each other and
    from [x], and it returns exactly when such a triple is drawn after
    finitely many rejected ones; the indices it returns are in [[0, n)]
    and [a], [b], [c], [x] are pairwise distinct.  [n >= 4] makes such a
    triple exist; with [n < 4] the loop never returns.  ([n] is taken to
    fit an [int].) *)
Theorem donor_selection
    {Gen : Type} {RE : RandomEngine Gen} (n : nat) (x : Z) :
  0 <= x < Z.of_nat n ->
  Z.of_nat n <= INT_MAX + 1 ->
  draws_in 0 (double_of_unsigned n) ->
  (forall fuel g a b c g',
     select_donors fuel n x x x x g = Done (a, b, c, g') <->
     exists k, (k < fuel)%nat /\
       nth_draw n k g = Done (a, b, c, g') /\
       donors_clash x a b c = false /\
       forall j, (j < k)%nat ->
         exists a' b' c' g'', nth_draw n j g = Done (a', b', c', g'') /\
                              donors_clash x a' b' c' = true) /\
  (forall fuel g a b c g',
     select_donors fuel n x x x x g = Done (a, b, c, g') ->
     (0 <= a < Z.of_nat n /\ 0 <= b < Z.of_nat n /\ 0 <= c < Z.of_nat n) /\
     a <> x /\ b <> x /\ c <> x /\ a <> b /\ a <> c /\ b <> c) /\
  ((4 <= n)%nat ->
     exists a b c,
       0 <= a < Z.of_nat n /\ 0 <= b < Z.of_nat n /\ 0 <= c < Z.of_nat n /\
       donors_clash x a b c = false) /\
  ((n < 4)%nat ->
     forall fuel g, select_donors fuel n x x x x g = OutOfFuel) /\
  (forall fuel de slot s t,
     m_populationSize de = n -> Z.of_nat slot = x ->
     make_trial fuel de slot s = Done t ->
     (0 <= donor_a t < Z.of_nat n /\ 0 <= donor_b t < Z.of_nat n /\
      0 <= donor_c t < Z.of_nat n) /\
     donor_a t <> x /\ donor_b t <> x /\ donor_c t <> x /\
     donor_a t <> donor_b t /\ donor_a t <> donor_c t /\ donor_b t <> donor_c t).
Proof.
  intros Hx Hfits Hdraws.
  pose proof (contract_donor_draws_in_range n Hfits Hdraws) as Hrange.
  assert (donors_clash x x x x = true) as Hstart.
  { unfold donors_clash. by rewrite Z.eqb_refl. }
  assert (forall fuel g a b c g',
     select_donors fuel n x x x x g = Done (a, b, c, g') ->
     (0 <= a < Z.of_nat n /\ 0 <= b < Z.of_nat n /\ 0 <= c < Z.of_nat n) /\
     a <> x /\ b <> x /\ c <> x /\ a <> b /\ a <> c /\ b <> c) as Hsound.
  { intros fuel g a b c g' H.
    apply select_donors_Done in H as (k & _ & Hnth & Hok & _); [|done].
    split; [|by apply donors_clash_false].
    destruct (nth_draw_in_range n Hrange k g) as (a' & b' & c' & g'' & Hnth' & Hr).
    rewrite Hnth in Hnth'. by injection Hnth' as -> -> -> ->. }
  split; [|split; [|split; [|split]]].
  - intros fuel g a b c g'. by apply select_donors_Done.
  - exact Hsound.
  - apply donors_exist.
  - intros Hn fuel g. by apply select_donors_small_population.
  - intros fuel de slot s t Hsize Hslot Ht.
    apply make_trial_Done in Ht as ((g1 & Hdonors & _) & _).
    rewrite Hsize, Hslot in Hdonors. by eapply Hsound.
Qed.

Lemma demo_donor_draws : draws_in (RE := demo_engine) 0 (double_of_unsigned 4).
Proof.
  apply scripted_draws_in; [done|].
  unfold demo_script. repeat (constructor; [vm_compute; reflexivity|]). constructor.
Defined.

Lemma donor_selection_demo :
  select_donors (RE := demo_engine) 5 4 0 0 0 0 8%nat = Done (1, 2, 3, 11%nat) /\
  (0 <= 1 < 4 /\ 0 <= 2 < 4 /\ 0 <= 3 < 4) /\
  1 <> 0 /\ 2 <> 0 /\ 3 <> 0 /\ 1 <> 2 /\ 1 <> 3 /\ 2 <> 3.
Proof.
  destruct (donor_selection (RE := demo_engine) 4 0 ltac:(lia)
              ltac:(vm_compute; discriminate) demo_donor_draws)
    as (Hiff & Hsound & _).
  assert (select_donors (RE := demo_engine) 5 4 0 0 0 0 8%nat = Done (1, 2, 3, 11%nat))
    as Hrun.
  { apply Hiff. exists 0%nat. split; [lia|]. split; [vm_compute; reflexivity|].
    split; [reflexivity|]. intros j Hj. lia. }
  split; [exact Hrun|]. exact (Hsound _ _ _ _ _ _ Hrun).
Defined.

(* ===================================================================== *)
(** * The protocol of Optimize *)
(* ===================================================================== *)

Section Protocol.
Context {Gen : Type} {RE : RandomEngine Gen}.
Variable de : DifferentialEvolution Gen.

Lemma stopped_early_cons (s : State Gen) (generations : list (State Gen)) :
  stops de s = false ->
  stopped_early de (s :: generations) = stopped_early de generations.
Proof.
  intros Hs. unfold stopped_early. rewrite last_cons.
  by destruct (last generations).
Qed.

(** The events of an iteration, as the loop produces them. *)
Lemma after_generation_block (verbose : bool) (s : State Gen) (evs : list (Event Gen)) :
  after_generation de verbose s = Done evs ->
  generation_block de verbose s
    = evs ++ match m_terminationCondition de with
             | Some terminationCondition =>
                 [CallTerminationCondition s (terminationCondition s)]
             | None => []
             end.
Proof.
  intros H. apply after_generation_Done in H as (progress & -> & Hp).
  unfold generation_block. simpl. f_equal. rewrite <- app_assoc. f_equal.
  destruct verbose; [|done]. by destruct Hp as (e & -> & ->).
Qed.

Lemma optimization_loop_protocol (fuel : nat) (verbose : bool) (n : nat)
    (s s' : State Gen) (evs : list (Event Gen)) :
  optimization_loop fuel de verbose n s = Done (s', evs) ->
  exists generations,
    generations_from fuel de s generations /\
    (length generations <= n)%nat /\
    s' = default s (last generations) /\
    evs = flat_map (generation_block de verbose) generations
            ++ when verbose [final_report de generations] /\
    (forall i t, generations !! i = Some t -> (S i < length generations)%nat ->
                 stops de t = false) /\
    (stopped_early de generations = false -> length generations = n).
Proof.
  revert s s' evs. induction n as [|n IH]; intros s s' evs H; simpl in H.
  - injection H as <- <-. exists []. simpl. repeat split; try done; lia.
  - apply bind_Done in H as (s1 & Hs1 & H). apply bind_Done in H as (evs1 & He & H).
    pose proof (after_generation_block _ _ _ He) as Hblock.
    assert (stops de s1 = false ->
            forall s2 rest,
              optimization_loop fuel de verbose n s1 = Done (s2, rest) ->
              exists generations,
                generations_from fuel de s generations /\
                (length generations <= S n)%nat /\
                s2 = default s (last generations) /\
                generation_block de verbose s1 ++ rest
                  = flat_map (generation_block de verbose) generations
                      ++ when verbose [final_report de generations] /\
                (forall i t, generations !! i = Some t ->
                             (S i < length generations)%nat -> stops de t = false) /\
                (stopped_early de generations = false -> length generations = S n))
      as Hgo.
    { intros Hstop s2 rest Hloop.
      apply IH in Hloop as (gens & Hfrom & Hlen & -> & -> & Hmid & Hfull).
      exists (s1 :: gens). cbn [generations_from length flat_map].
      split; [done|]. split; [lia|].
      split; [rewrite last_cons; by destruct (last gens)|].
      split; [|split].
      - unfold final_report. rewrite stopped_early_cons by done.
        by rewrite <- app_assoc.
      - intros [|i] t Hi Hlt; simpl in Hi.
        + by injection Hi as <-.
        + apply (Hmid i); [done | lia].
      - rewrite stopped_early_cons by done. intros Hq. by rewrite Hfull. }
    destruct (m_terminationCondition de) as [cond|] eqn:Hcond.
    + destruct (cond s1) eqn:Hanswer.
      * injection H as <- <-. exists [s1]. cbn [generations_from length flat_map].
        split; [done|]. split; [lia|]. split; [done|]. split; [|split].
        -- rewrite app_nil_r, Hblock. unfold final_report, stopped_early.
           simpl. unfold stops. rewrite Hcond, Hanswer. by rewrite <- app_assoc.
        -- intros [|i] t Hi Hlt; simpl in *; lia.
        -- unfold stopped_early. simpl. unfold stops. by rewrite Hcond, Hanswer.
      * apply bind_Done in H as ([s2 rest] & Hloop & [= <- <-]).
        destruct (Hgo ltac:(unfold stops; by rewrite Hcond) _ _ Hloop)
          as (gens & ? & ? & ? & Hevs & ? & ?).
        exists gens. rewrite Hblock, <- app_assoc in Hevs. simpl in Hevs.
        by repeat split.
    + apply bind_Done in H as ([s2 rest] & Hloop & [= <- <-]).
      destruct (Hgo ltac:(unfold stops; by rewrite Hcond) _ _ Hloop)
        as (gens & ? & ? & ? & Hevs & ? & ?).
      exists gens. rewrite Hblock, app_nil_r in Hevs. by repeat split.
Qed.

End Protocol.

Lemma generation_block_no_init
    {Gen : Type} {RE : RandomEngine Gen} (de : DifferentialEvolution Gen)
    (verbose : bool) (s : State Gen) :
  CallInitPopulation ∉ generation_block de verbose s.
Proof.
  unfold generation_block. intros H.
  apply elem_of_cons in H as [H|H]; [done|].
  apply elem_of_app in H as [H|H].
  - destruct verbose; [|by apply elem_of_nil in H].
    destruct (print_progress de s) as [e| | |] eqn:He; try by apply elem_of_nil in H.
    apply print_progress_Done in He as [agent ->].
    by apply list_elem_of_singleton in H.
  - apply elem_of_app in H as [H|H].
    + destruct (m_callback de); [by apply list_elem_of_singleton in H|].
      by apply elem_of_nil in H.
    + destruct (m_terminationCondition de); [by apply list_elem_of_singleton in H|].
      by apply elem_of_nil in H.
Qed.

(** C9, as the code has it: [Optimize] calls [InitPopulation] once, first,
    and then runs at most [iterations] generations; each is followed by
    the progress line (verbose runs), the callback (if there is one) and
    the termination condition (if there is one), in this order; the
    condition answers [false] after every generation but the last, and
    unless it answers [true] after the last one the whole budget is used.
    The reason for stopping is reported by verbose runs only, as their last
    line: termination by the condition, or by the number of generations. *)
Theorem Optimize_protocol
    {Gen : Type} {RE : RandomEngine Gen} (de : DifferentialEvolution Gen)
    (fuel : nat) (s : State Gen) (iterations : Z) (verbose : bool)
    (s' : State Gen) (evs : list (Event Gen)) :
  Optimize fuel de s iterations verbose = Done (s', evs) ->
  exists s0 generations,
    InitPopulation de s = Done s0 /\
    generations_from fuel de s0 generations /\
    (length generations <= Z.to_nat iterations)%nat /\
    s' = default s0 (last generations) /\
    evs = CallInitPopulation
            :: flat_map (generation_block de verbose) generations
            ++ when verbose [final_report de generations] /\
    (CallInitPopulation ∉ flat_map (generation_block de verbose) generations
                            ++ when verbose [final_report de generations]) /\
    (forall i t, generations !! i = Some t -> (S i < length generations)%nat ->
                 stops de t = false) /\
    (stopped_early de generations = false ->
     length generations = Z.to_nat iterations).
Proof.
  unfold Optimize. intros H. apply bind_Done in H as (s0 & Hs0 & H).
  apply bind_Done in H as ([s1 evs1] & Hloop & [= <- <-]).
  apply optimization_loop_protocol in Hloop
    as (generations & Hfrom & Hlen & -> & -> & Hmid & Hfull).
  exists s0, generations. do 5 (split; [done|]). split; [|done].
  intros Hin. apply elem_of_app in Hin as [Hin|Hin].
  - apply list_elem_of_In, in_flat_map in Hin as (t & _ & Hin).
    by apply list_elem_of_In, generation_block_no_init in Hin.
  - destruct verbose; simpl in Hin; [|by apply elem_of_nil in Hin].
    apply list_elem_of_singleton in Hin. unfold final_report in Hin.
    by destruct (stopped_early de generations).
Qed.

Lemma Optimize_protocol_demo :
  exists s0 generations,
    InitPopulation (RE := demo_engine) stopping_de demo_constructed = Done s0 /\
    generations_from (RE := demo_engine) 20 stopping_de s0 generations /\
    (length generations <= Z.to_nat 5)%nat /\
    demo_generation_1 = default s0 (last generations) /\
    stopping_events_verbose
      = CallInitPopulation
          :: flat_map (generation_block stopping_de true) generations
          ++ when true [final_report stopping_de generations] /\
    (CallInitPopulation ∉
       flat_map (generation_block stopping_de true) generations
         ++ when true [final_report stopping_de generations]) /\
    (forall i t, generations !! i = Some t -> (S i < length generations)%nat ->
                 stops stopping_de t = false) /\
    (stopped_early stopping_de generations = false ->
     length generations = Z.to_nat 5).
Proof.
  apply (Optimize_protocol (RE := demo_engine) stopping_de 20 demo_constructed 5 true
           demo_generation_1 stopping_events_verbose).
  vm_compute. reflexivity.
Defined.

(** A run that is not verbose reports no reason: the condition of
    [stopping_de] holds after the first of five generations, [Optimize]
    returns, and nothing is printed; nor is anything printed when the
    budget of the demo optimizer runs out. *)
Lemma quiet_run_reports_nothing :
  Optimize (RE := demo_engine) 20 stopping_de demo_constructed 5 false
    = Done (demo_generation_1, stopping_events_quiet) /\
  (CallTerminationCondition demo_generation_1 true ∈ stopping_events_quiet) /\
  (PrintTerminatedByCondition ∉ stopping_events_quiet) /\
  Optimize (RE := demo_engine) 20 demo_de demo_constructed 2 false
    = Done (demo_generation_2, demo_events) /\
  (PrintTerminatedByGenerations ∉ demo_events).
Proof.
  split; [vm_compute; reflexivity|].
  split; [unfold stopping_events_quiet; rewrite !elem_of_cons; tauto|].
  split.
  { unfold stopping_events_quiet. intros H.
    repeat (apply elem_of_cons in H as [H|H]; [discriminate H|]).
    by apply elem_of_nil in H. }
  split; [vm_compute; reflexivity|].
  unfold demo_events. intros H.
  repeat (apply elem_of_cons in H as [H|H]; [discriminate H|]).
  by apply elem_of_nil in H.
Qed.

(* ===================================================================== *)
(** * The sizes of the vectors *)
(* ===================================================================== *)

Section Shape.
Context {Gen : Type} {RE : RandomEngine Gen}.
Variable de : DifferentialEvolution Gen.

Lemma init_agent_length (cs : list Constraints) (n i : nat) (agent : list float) (g : Gen)
    (agent' : list float) (g' : Gen) :
  init_agent cs n i agent g = Done (agent', g') -> length agent' = length agent.
Proof.
  revert i agent g. induction n as [|n IH]; intros i agent g; simpl.
  - by intros [= <- _].
  - intros H. apply bind_Done in H as (c & _ & H).
    destruct (if isConstrained c then _ else _) as [v g1].
    apply bind_Done in H as (agent1 & Hset & H).
    apply vec_set_Done in Hset as [_ ->]. apply IH in H.
    by rewrite length_insert in H.
Qed.

Lemma init_agents_shape (cs : list Constraints) (k : nat) (population : list (list float))
    (g : Gen) (population' : list (list float)) (g' : Gen) :
  init_agents cs k population g = Done (population', g') ->
  Forall2 (fun agent' agent => length agent' = length agent) population' population.
Proof.
  revert g population' g'. induction population as [|agent rest IH];
    intros g population' g' H; simpl in H.
  - injection H as <- _. constructor.
  - apply bind_Done in H as ([agent' g1] & Ha & H).
    apply bind_Done in H as ([rest' g2] & Hr & [= <- _]).
    constructor; [by eapply init_agent_length | by eapply IH].
Qed.

Lemma init_costs_length (n i : nat) (s s' : State Gen) :
  init_costs de n i s = Done s' ->
  length (m_minCostPerAgent s') = length (m_minCostPerAgent s).
Proof.
  revert i s. induction n as [|n IH]; intros i s; simpl.
  - by intros [= <-].
  - intros H. apply bind_Done in H as (agent & _ & H).
    apply bind_Done in H as (costs & Hc & H). apply vec_set_Done in Hc as [_ ->].
    apply IH in H. rewrite H. destruct (_ <? _)%float; simpl; apply length_insert.
Qed.

Lemma InitPopulation_shape (s s' : State Gen) :
  well_shaped de s -> InitPopulation de s = Done s' -> well_shaped de s'.
Proof.
  intros (Hp & Hc & Ha) H. unfold InitPopulation in H.
  apply bind_Done in H as ([population g] & Hpop & H).
  pose proof (init_costs_population de _ _ _ _ H) as Hsame.
  pose proof (init_costs_length _ _ _ _ H) as Hlen. simpl in Hsame, Hlen.
  apply init_agents_shape in Hpop.
  unfold well_shaped. rewrite Hsame, Hlen.
  split; [by rewrite (Forall2_length _ _ _ Hpop)|]. split; [done|].
  apply Forall_lookup_2. intros i agent' Hi.
  destruct (Forall2_lookup_l _ _ _ _ _ Hpop Hi) as (agent & Hagent & Heq).
  rewrite Heq. by eapply (Forall_lookup_1 _ _ _ _ Ha).
Qed.

Lemma make_trial_length (fuel x : nat) (s : State Gen) (t : Trial Gen) :
  make_trial fuel de x s = Done t -> length (newX t) = m_numberOfParameters de.
Proof.
  intros H. apply make_trial_Done in H as (_ & _ & Hx & _).
  by apply for_each_Done in Hx as [? _].
Qed.

Lemma select_shape (x : nat) (candidate : list float) (s s' : State Gen) :
  length candidate = m_numberOfParameters de ->
  well_shaped de s -> select de x candidate s = Done s' -> well_shaped de s'.
Proof.
  intros Hlen (Hp & Hc & Ha) H. apply select_Done in H as (old & _ & H).
  destruct (_ <? _)%float; [|by subst s'].
  destruct H as [_ ->]. unfold well_shaped. simpl. rewrite !length_insert.
  split; [done|]. split; [done|]. by apply Forall_insert.
Qed.

Lemma SelectionAndCorssing_shape (fuel : nat) (s s' : State Gen) :
  well_shaped de s -> SelectionAndCorssing fuel de s = Done s' -> well_shaped de s'.
Proof.
  intros Hs H. unfold SelectionAndCorssing in H.
  apply bind_Done in H as (c0 & _ & H).
  destruct (selection_loop_invariant de (fun _ t _ => well_shaped de t))
    with (3 := Hs) (4 := H) as (x' & sf & best' & _ & HI & ->); [| |exact HI].
  - intros ? ? ? ? ? HI _ _ _. exact HI.
  - intros ? x t best tr s1 best' HI _ Htr _ Hsel _.
    eapply select_shape; [by eapply make_trial_length | | exact Hsel]. exact HI.
Qed.

End Shape.

Lemma construct_shape
    {Gen : Type} {RE : RandomEngine Gen}
    (costFunction : IOptimizable) (populationSize : nat) (randomSeed : Z)
    (shouldCheckConstraints : bool)
    (callback : option (State Gen -> unit))
    (terminationCondition : option (State Gen -> bool))
    (de : DifferentialEvolution Gen) (s : State Gen) :
  construct costFunction populationSize randomSeed shouldCheckConstraints
            callback terminationCondition = Done (de, s) ->
  well_shaped de s.
Proof.
  intros H. apply construct_Done in H as (_ & -> & ->). unfold well_shaped. simpl.
  rewrite !length_replicate. split; [done|]. split; [done|].
  apply Forall_replicate, length_replicate.
Qed.

(** X1: the population keeps its size.  From construction on, through
    [InitPopulation], every call of [SelectionAndCorssing] and the whole of
    [Optimize], the population and the cost cache hold [populationSize]
    entries and every agent holds [NumberOfParameters] numbers. *)
Theorem population_keeps_its_shape
    {Gen : Type} {RE : RandomEngine Gen}
    (costFunction : IOptimizable) (populationSize : nat) (randomSeed : Z)
    (shouldCheckConstraints : bool)
    (callback : option (State Gen -> unit))
    (terminationCondition : option (State Gen -> bool))
    (de : DifferentialEvolution Gen) (s0 : State Gen) :
  construct costFunction populationSize randomSeed shouldCheckConstraints
            callback terminationCondition = Done (de, s0) ->
  m_populationSize de = populationSize /\
  m_numberOfParameters de = NumberOfParameters costFunction /\
  well_shaped de s0 /\
  (forall s1, InitPopulation de s0 = Done s1 -> well_shaped de s1) /\
  (forall fuel s s',
     well_shaped de s -> SelectionAndCorssing fuel de s = Done s' -> well_shaped de s') /\
  (forall fuel iterations verbose s' evs,
     Optimize fuel de s0 iterations verbose = Done (s', evs) ->
     well_shaped de s' /\ forall t, CallSelectionAndCorssing t ∈ evs -> well_shaped de t).
Proof.
  intros Hc. pose proof (construct_shape _ _ _ _ _ _ _ _ Hc) as Hs0.
  pose proof (construct_Done _ _ _ _ _ _ _ _ Hc) as (_ & Hde & _).
  split; [by subst de|]. split; [by subst de|]. split; [done|].
  split; [intros s1; by apply InitPopulation_shape|].
  split; [apply SelectionAndCorssing_shape|].
  intros fuel iterations verbose s' evs.
  apply (Optimize_invariant de (well_shaped de)).
  - intros s1. by apply InitPopulation_shape.
  - apply SelectionAndCorssing_shape.
Qed.

Lemma population_keeps_its_shape_demo :
  well_shaped demo_de demo_generation_2 /\
  (forall t, CallSelectionAndCorssing t ∈ demo_events -> well_shaped demo_de t).
Proof.
  destruct (population_keeps_its_shape (RE := demo_engine) Quadratic 4 0 true None None
              demo_de demo_constructed eq_refl) as (_ & _ & _ & _ & _ & Hrun).
  apply (Hrun 20%nat 2 false). vm_compute. reflexivity.
Defined.

(* ===================================================================== *)
(** * When InitPopulation returns *)
(* ===================================================================== *)

Section InitReturns.
Context {Gen : Type} {RE : RandomEngine Gen}.
Variable de : DifferentialEvolution Gen.

Lemma init_agent_returns (n i : nat) (agent : list float) (g : Gen) :
  (i + n <= length (m_constraints de))%nat -> (i + n <= length agent)%nat ->
  exists r, init_agent (m_constraints de) n i agent g = Done r.
Proof.
  revert i agent g. induction n as [|n IH]; intros i agent g Hcs Hagent; simpl.
  - by eexists.
  - destruct (lookup_lt_is_Some_2 (m_constraints de) i) as [c Hc]; [lia|].
    rewrite (proj2 (vec_get_Done _ _ _) Hc). simpl.
    destruct (if isConstrained c then _ else _) as [v g1].
    assert (i < length agent)%nat as Hi by lia.
    rewrite (proj2 (vec_set_Done agent i v _) (conj Hi eq_refl)). simpl.
    apply IH; [lia|]. rewrite length_insert. lia.
Qed.

(** The loop over the dimensions leaves the defined behaviour when it
    runs past the end of [m_constraints]. *)
Lemma init_agent_Undefined (n i : nat) (agent : list float) (g : Gen) :
  (i <= length (m_constraints de) < i + n)%nat -> (i + n <= length agent)%nat ->
  init_agent (m_constraints de) n i agent g = Undefined.
Proof.
  revert i agent g. induction n as [|n IH]; intros i agent g Hcs Hagent; simpl; [lia|].
  destruct (m_constraints de !! i) as [c|] eqn:Hc.
  - rewrite (proj2 (vec_get_Done _ _ _) Hc). simpl.
    destruct (if isConstrained c then _ else _) as [v g1].
    assert (i < length agent)%nat as Hi by lia.
    rewrite (proj2 (vec_set_Done agent i v _) (conj Hi eq_refl)). simpl.
    apply lookup_lt_Some in Hc.
    apply IH; [lia|]. rewrite length_insert. lia.
  - unfold vec_get, vec_at. destruct (Z.ltb_spec (Z.of_nat i) 0); [done|].
    by rewrite Nat2Z.id, Hc.
Qed.

Lemma init_agents_returns (population : list (list float)) (g : Gen) :
  (m_numberOfParameters de <= length (m_constraints de))%nat ->
  Forall (fun agent => length agent = m_numberOfParameters de) population ->
  exists r, init_agents (m_constraints de) (m_numberOfParameters de) population g = Done r.
Proof.
  intros Hcs. revert g. induction population as [|agent rest IH]; intros g Hlen; simpl.
  - by eexists.
  - apply Forall_cons in Hlen as [Ha Hrest].
    destruct (init_agent_returns (m_numberOfParameters de) 0 agent g) as [[agent' g1] ->];
      [lia | lia |]. simpl.
    destruct (IH g1 Hrest) as [[rest' g2] ->]. simpl. by eexists.
Qed.

Lemma init_costs_returns (n i : nat) (s : State Gen) :
  (i + n <= length (m_population s))%nat ->
  (i + n <= length (m_minCostPerAgent s))%nat ->
  exists s', init_costs de n i s = Done s'.
Proof.
  revert i s. induction n as [|n IH]; intros i s Hp Hc; simpl.
  - by eexists.
  - destruct (lookup_lt_is_Some_2 (m_population s) i) as [agent Ha]; [lia|].
    rewrite (proj2 (vec_get_Done _ _ _) Ha). simpl.
    assert (i < length (m_minCostPerAgent s))%nat as Hi by lia.
    rewrite (proj2 (vec_set_Done (m_minCostPerAgent s) i _ _) (conj Hi eq_refl)).
    simpl. apply IH; destruct (_ <? _)%float; simpl; rewrite ?length_insert; lia.
Qed.

Lemma InitPopulation_returns (s : State Gen) :
  well_shaped de s ->
  (m_numberOfParameters de <= length (m_constraints de))%nat ->
  exists s', InitPopulation de s = Done s'.
Proof.
  intros (Hp & Hc & Ha) Hcs. unfold InitPopulation.
  destruct (init_agents_returns (m_population s) (m_generator s) Hcs Ha)
    as [[population g] Hpop].
  rewrite Hpop. simpl.
  apply init_agents_shape, Forall2_length in Hpop.
  apply init_costs_returns; simpl; lia.
Qed.

Lemma InitPopulation_Undefined (s : State Gen) :
  well_shaped de s ->
  (0 < m_populationSize de)%nat ->
  (length (m_constraints de) < m_numberOfParameters de)%nat ->
  InitPopulation de s = Undefined.
Proof.
  intros (Hp & Hc & Ha) Hn Hcs. unfold InitPopulation.
  destruct (m_population s) as [|agent rest] eqn:Hpop; [simpl in Hp; lia|].
  apply Forall_cons in Ha as [Ha _]. simpl.
  rewrite init_agent_Undefined; [done | lia | lia].
Qed.

End InitReturns.

(** X2: [InitPopulation] on a freshly constructed optimizer returns
    exactly when [GetConstraints] has at least [NumberOfParameters]
    entries; with fewer it reads [m_constraints] past its end, which is
    undefined behaviour. *)
Theorem InitPopulation_needs_enough_constraints
    {Gen : Type} {RE : RandomEngine Gen}
    (costFunction : IOptimizable) (populationSize : nat) (randomSeed : Z)
    (shouldCheckConstraints : bool)
    (callback : option (State Gen -> unit))
    (terminationCondition : option (State Gen -> bool))
    (de : DifferentialEvolution Gen) (s0 : State Gen) :
  construct costFunction populationSize randomSeed shouldCheckConstraints
            callback terminationCondition = Done (de, s0) ->
  ((NumberOfParameters costFunction <= length (GetConstraints costFunction))%nat ->
   exists s1, InitPopulation de s0 = Done s1) /\
  ((length (GetConstraints costFunction) < NumberOfParameters costFunction)%nat ->
   InitPopulation de s0 = Undefined).
Proof.
  intros Hc. pose proof (construct_shape _ _ _ _ _ _ _ _ Hc) as Hs0.
  apply construct_Done in Hc as (Hn & Hde & _). split.
  - intros Hcs. apply InitPopulation_returns; [done|]. by subst de.
  - intros Hcs. apply InitPopulation_Undefined; [done | |]; subst de; simpl; lia.
Qed.

Lemma InitPopulation_needs_enough_constraints_demo :
  (exists s1, InitPopulation (RE := demo_engine) demo_de demo_constructed = Done s1) /\
  InitPopulation (RE := demo_engine)
    (mkDE Careless 4 0.8 0.9 2 true None None (GetConstraints Careless)) demo_constructed
    = Undefined.
Proof.
  split.
  - apply (proj1 (InitPopulation_needs_enough_constraints (RE := demo_engine)
                    Quadratic 4 0 true None None demo_de demo_constructed eq_refl)).
    simpl. lia.
  - apply (proj2 (InitPopulation_needs_enough_constraints (RE := demo_engine)
                    Careless 4 0 true None None _ demo_constructed eq_refl)).
    simpl. lia.
Defined.

(* ===================================================================== *)
(** * Check and CheckConstraints *)
(* ===================================================================== *)

Lemma is_nan_true (x : float) : is_nan x = true -> Prim2SF x = S754_nan.
Proof.
  intros H. destruct (Prim2SF x) as [s|s| |s m e] eqn:E; try done;
    assert (is_nan x = false) as Hf by (apply is_nan_false; by rewrite E); congruence.
Qed.

Lemma leb_not_nan (x y : float) :
  (x <=? y)%float = true -> is_nan x = false /\ is_nan y = false.
Proof.
  rewrite leb_spec. unfold SFleb. intros H.
  split; apply is_nan_false; intros E; rewrite E in H;
    [done | by rewrite SFcompare_nan_r in H].
Qed.

Lemma Check_enforced (c : Constraints) (x : float) :
  isConstrained c = true ->
  Check c x = true <-> (lower c <=? x)%float = true /\ (x <=? upper c)%float = true.
Proof.
  unfold Check, geb. intros ->.
  destruct (x <=? upper c)%float, (lower c <=? x)%float; simpl; tauto.
Qed.

(** Swapped bounds leave nothing in between. *)
Lemma Check_swapped_bounds (c : Constraints) (x : float) :
  isConstrained c = true -> (lower c <=? upper c)%float = false -> Check c x = false.
Proof.
  intros Hon Hgt. destruct (Check c x) eqn:E; [|done].
  apply Check_enforced in E as [E1 E2]; [|done].
  pose proof (leb_trans _ _ _ E1 E2). congruence.
Qed.

(** X3: an unenforced constraint accepts every candidate, NaN and
    infinities included.  An enforced one accepts exactly the candidates
    between its bounds, both bounds included; it rejects NaN, and when its
    bounds are swapped or NaN it rejects every candidate. *)
Theorem Check_accepts_the_closed_interval (c : Constraints) :
  (isConstrained c = false -> forall x, Check c x = true) /\
  (isConstrained c = true ->
   (forall x, Check c x = true <->
              (lower c <=? x)%float = true /\ (x <=? upper c)%float = true) /\
   (forall x, is_nan x = true -> Check c x = false) /\
   ((lower c <=? upper c)%float = true ->
    Check c (lower c) = true /\ Check c (upper c) = true) /\
   ((lower c <=? upper c)%float = false -> forall x, Check c x = false)).
Proof.
  split; [unfold Check; by intros ->|]. intros Hon.
  split; [intros x; by apply Check_enforced|]. split; [|split].
  - intros x Hnan. destruct (Check c x) eqn:E; [|done].
    apply Check_enforced in E as [_ E]; [|done].
    apply leb_not_nan in E as [E _]. congruence.
  - intros Hle. pose proof (leb_not_nan _ _ Hle) as [Hl Hu].
    split; apply Check_enforced; try done; split; try done; by apply leb_refl.
  - intros Hgt x. by apply Check_swapped_bounds.
Qed.

Lemma Check_accepts_the_closed_interval_demo :
  Check (mkConstraints (-100) 100 true) (-100) = true /\
  Check (mkConstraints (-100) 100 true) 100 = true /\
  Check (mkConstraints (-100) 100 true) nan = false /\
  Check (mkConstraints 0 1 false) nan = true.
Proof.
  destruct (Check_accepts_the_closed_interval (mkConstraints (-100) 100 true))
    as [_ Hon].
  destruct (Hon eq_refl) as (_ & Hnan & Hends & _).
  destruct (Hends eq_refl) as [Hlo Hhi].
  split; [exact Hlo|]. split; [exact Hhi|]. split; [exact (Hnan nan eq_refl)|].
  apply (proj1 (Check_accepts_the_closed_interval (mkConstraints 0 1 false)) eq_refl).
Defined.

Lemma CheckConstraints_Done_true (cs : list Constraints) (agent : list float) :
  CheckConstraints cs agent = Done true <->
  (length agent <= length cs)%nat /\
  forall i c v, cs !! i = Some c -> agent !! i = Some v -> Check c v = true.
Proof.
  revert cs. induction agent as [|v agent IH]; intros cs; simpl.
  - split; [|done]. intros _. split; [lia|]. intros i c v _ Hv. done.
  - destruct cs as [|c cs]; simpl.
    + split; [done|]. intros [Hlen _]. lia.
    + destruct (Check c v) eqn:Hc; simpl.
      * rewrite IH. split.
        -- intros [Hlen H]. split; [lia|]. intros [|i] c' v' Hc' Hv'; simpl in *.
           ++ congruence.
           ++ by eapply H.
        -- intros [Hlen H]. split; [lia|]. intros i c' v' Hc' Hv'. by apply (H (S i)).
      * split; [done|]. intros [_ H]. specialize (H 0%nat c v eq_refl eq_refl). congruence.
Qed.

Lemma CheckConstraints_Done_false (cs : list Constraints) (agent : list float) :
  CheckConstraints cs agent = Done false <->
  exists i c v, cs !! i = Some c /\ agent !! i = Some v /\ Check c v = false /\
    forall j c' v', (j < i)%nat -> cs !! j = Some c' -> agent !! j = Some v' ->
                    Check c' v' = true.
Proof.
  revert cs. induction agent as [|v agent IH]; intros cs; simpl.
  - split; [done|]. by intros (i & c & v & _ & Hv & _).
  - destruct cs as [|c cs]; simpl.
    + split; [done|]. by intros (i & c & v' & Hc & _).
    + destruct (Check c v) eqn:Hc; simpl.
      * rewrite IH. split.
        -- intros (i & c' & v' & Hc' & Hv' & Hbad & Hbefore).
           exists (S i), c', v'. do 3 (split; [done|]).
           intros [|j] c'' v'' Hj Hc'' Hv''; simpl in *; [congruence|].
           eapply Hbefore; [|done|done]. lia.
        -- intros ([|i] & c' & v' & Hc' & Hv' & Hbad & Hbefore); simpl in *.
           ++ congruence.
           ++ exists i, c', v'. do 3 (split; [done|]).
              intros j c'' v'' Hj Hc'' Hv''. apply (Hbefore (S j)); [lia|done|done].
      * split; [|done]. intros _. exists 0%nat, c, v. do 3 (split; [done|]).
        intros j c' v' Hj. lia.
Qed.

Lemma CheckConstraints_Undefined (cs : list Constraints) (agent : list float) :
  CheckConstraints cs agent = Undefined <->
  (length cs < length agent)%nat /\
  forall i c v, cs !! i = Some c -> agent !! i = Some v -> Check c v = true.
Proof.
  revert cs. induction agent as [|v agent IH]; intros cs; simpl.
  - split; [done|]. intros [Hlen _]. lia.
  - destruct cs as [|c cs]; simpl.
    + split; [|done]. intros _. split; [lia|]. intros i c v' Hc. done.
    + destruct (Check c v) eqn:Hc; simpl.
      * rewrite IH. split.
        -- intros [Hlen H]. split; [lia|]. intros [|i] c' v' Hc' Hv'; simpl in *.
           ++ congruence.
           ++ by eapply H.
        -- intros [Hlen H]. split; [lia|]. intros i c' v' Hc' Hv'. by apply (H (S i)).
      * split; [done|]. intros [_ H]. specialize (H 0%nat c v eq_refl eq_refl). congruence.
Qed.

(** X4: [CheckConstraints] has three outcomes.  It returns [true] when the
    agent is no longer than [m_constraints] and every entry passes its
    constraint; it returns [false] at the first entry that fails, whatever
    follows; and it reads [m_constraints] past its end (undefined
    behaviour) when the agent is longer and no entry within reach fails. *)
Theorem CheckConstraints_outcomes (cs : list Constraints) (agent : list float) :
  (CheckConstraints cs agent = Done true <->
   (length agent <= length cs)%nat /\
   forall i c v, cs !! i = Some c -> agent !! i = Some v -> Check c v = true) /\
  (CheckConstraints cs agent = Done false <->
   exists i c v, cs !! i = Some c /\ agent !! i = Some v /\ Check c v = false /\
     forall j c' v', (j < i)%nat -> cs !! j = Some c' -> agent !! j = Some v' ->
                     Check c' v' = true) /\
  (CheckConstraints cs agent = Undefined <->
   (length cs < length agent)%nat /\
   forall i c v, cs !! i = Some c -> agent !! i = Some v -> Check c v = true) /\
  CheckConstraints cs agent <> OutOfFuel /\
  CheckConstraints cs agent <> AssertionFailed.
Proof.
  split; [apply CheckConstraints_Done_true|].
  split; [apply CheckConstraints_Done_false|].
  split; [apply CheckConstraints_Undefined|].
  split; revert cs; induction agent as [|v agent IH]; intros cs; simpl; try done;
    destruct cs as [|c cs]; try done; destruct (Check c v); simpl; try done; apply IH.
Qed.

Lemma CheckConstraints_outcomes_demo :
  CheckConstraints (GetConstraints Quadratic) [157.5; -75]%float = Done false /\
  CheckConstraints (GetConstraints Quadratic) [25; -75]%float = Done true /\
  CheckConstraints (GetConstraints Quadratic) [25; -75; 0]%float = Undefined /\
  CheckConstraints (GetConstraints Quadratic) [25; 175; 0]%float = Done false.
Proof.
  split; [|split; [|split]].
  - apply (proj1 (proj2 (CheckConstraints_outcomes _ _))).
    exists 0%nat, (mkConstraints (-100) 100 true), 157.5%float.
    do 3 (split; [reflexivity|]). intros j c' v' Hj. lia.
  - apply (proj1 (CheckConstraints_outcomes _ _)). split; [simpl; lia|].
    intros [|[|i]] c v Hc Hv; simpl in *; try done;
      injection Hc as <-; injection Hv as <-; reflexivity.
  - apply (proj1 (proj2 (proj2 (CheckConstraints_outcomes _ _)))). split; [simpl; lia|].
    intros [|[|i]] c v Hc Hv; simpl in *; try done;
      injection Hc as <-; injection Hv as <-; reflexivity.
  - apply (proj1 (proj2 (CheckConstraints_outcomes _ _))).
    exists 1%nat, (mkConstraints (-100) 100 true), 175%float.
    do 3 (split; [reflexivity|]). intros [|j] c' v' Hj Hc Hv; [|lia].
    simpl in *. injection Hc as <-. injection Hv as <-. reflexivity.
Defined.

Section Stuck.
Context {Gen : Type} {RE : RandomEngine Gen}.
Variable de : DifferentialEvolution Gen.
Hypothesis Hcheck : m_shouldCheckConstraints de = true.
Variable i : nat.
Variable c : Constraints.
Hypothesis Hi : (i < m_numberOfParameters de)%nat.
Hypothesis Hc : m_constraints de !! i = Some c.
Hypothesis Hnone : forall x, Check c x = false.

(** No trial gets through the gate. *)
Lemma no_trial_passes (fuel x : nat) (s : State Gen) (t : Trial Gen) :
  make_trial fuel de x s = Done t ->
  CheckConstraints (m_constraints de) (newX t) <> Done true.
Proof.
  intros Ht Hok. apply make_trial_length in Ht.
  destruct (lookup_lt_is_Some_2 (newX t) i) as [v Hv]; [lia|].
  apply CheckConstraints_Done_true in Hok as [_ Hok].
  specialize (Hok i c v Hc Hv). by rewrite Hnone in Hok.
Qed.

Lemma selection_loop_stuck (fuel x : nat) (s : State Gen) (best : float * Z)
    (s' : State Gen) :
  (x < m_populationSize de)%nat ->
  selection_loop fuel de x s best <> Done s'.
Proof.
  intros Hx. revert s. induction fuel as [|fuel IH]; intros s H; simpl in H;
    destruct (Nat.ltb_spec x (m_populationSize de)); try lia; [done|].
  apply bind_Done in H as (t & Ht & H). apply bind_Done in H as (skip & Hskip & H).
  unfold should_skip in Hskip. rewrite Hcheck in Hskip.
  apply bind_Done in Hskip as (ok & Hok & [= <-]).
  destruct ok; simpl in H.
  - by apply no_trial_passes in Ht.
  - by apply IH in H.
Qed.

End Stuck.

(** X5: with constraint checking enabled, one enforced constraint that
    no number satisfies (bounds swapped, or a NaN bound) among the
    dimensions of the problem keeps [SelectionAndCorssing] from ever
    returning: every trial is skipped and slot 0 is tried again without
    end. *)
Theorem unsatisfiable_constraint_never_returns
    {Gen : Type} {RE : RandomEngine Gen} (de : DifferentialEvolution Gen)
    (i : nat) (c : Constraints) :
  m_shouldCheckConstraints de = true ->
  (0 < m_populationSize de)%nat ->
  (i < m_numberOfParameters de)%nat ->
  m_constraints de !! i = Some c ->
  isConstrained c = true ->
  (lower c <=? upper c)%float = false ->
  forall fuel s s', SelectionAndCorssing fuel de s <> Done s'.
Proof.
  intros Hcheck Hn Hi Hc Hon Hswapped fuel s s' H.
  unfold SelectionAndCorssing in H. apply bind_Done in H as (c0 & _ & H).
  eapply (selection_loop_stuck de Hcheck i c Hi Hc); [|exact Hn|exact H].
  intros x. by apply Check_swapped_bounds.
Qed.

Lemma unsatisfiable_constraint_never_returns_demo :
  ~ exists fuel s',
      SelectionAndCorssing (RE := demo_engine) fuel inverted_de demo_initialized = Done s'.
Proof.
  intros (fuel & s' & H).
  exact (unsatisfiable_constraint_never_returns (RE := demo_engine) inverted_de
           0%nat (mkConstraints 100 (-100) true)
           eq_refl ltac:(simpl; lia) ltac:(simpl; lia) eq_refl eq_refl eq_refl
           fuel demo_initialized s' H).
Defined.

(* ===================================================================== *)
(** * The best agent *)
(* ===================================================================== *)

Section BestAgent.
Context {Gen : Type} {RE : RandomEngine Gen}.
Variable de : DifferentialEvolution Gen.

Lemma generation_best (fuel : nat) (s s' : State Gen) :
  well_shaped de s -> cache_in_sync de s -> costs_are_numbers s ->
  SelectionAndCorssing fuel de s = Done s' ->
  well_shaped de s' /\ cache_in_sync de s' /\ costs_are_numbers s' /\
  best_is_known de s'.
Proof.
  intros Hshape Hsync Hnum H.
  pose proof (SelectionAndCorssing_shape de _ _ _ Hshape H) as Hshape'.
  pose proof (SelectionAndCorssing_in_sync de _ _ _ Hsync H) as Hsync'.
  split; [done|]. split; [done|].
  split; [by eapply SelectionAndCorssing_costs|].
  destruct (SelectionAndCorssing_best_is_minimum de fuel s s') as (Hbest & Hmin & Hidx);
    [done | by destruct Hshape as (_ & ? & _) | done |].
  destruct (Hsync' (Z.to_nat (m_bestAgentIndex s'))) as (agent & Hagent & Hcost); [lia|].
  unfold GetBestCost in Hbest. apply vec_at_Done in Hbest as [_ Hbest].
  assert (m_minCost s' = EvaluteCost (m_cost de) agent) as Heq by congruence.
  exists agent. split; [apply vec_at_Done; split; [lia | done]|].
  split; [by eapply list_elem_of_lookup_2|]. rewrite <- Heq.
  split; [apply vec_at_Done; split; [lia | congruence]|]. done.
Qed.

Lemma generations_best (fuel : nat) (s : State Gen) (generations : list (State Gen)) :
  well_shaped de s -> cache_in_sync de s -> costs_are_numbers s ->
  generations_from fuel de s generations ->
  Forall (best_is_known de) generations.
Proof.
  revert s. induction generations as [|t rest IH]; intros s Hshape Hsync Hnum H;
    simpl in H.
  - constructor.
  - destruct H as [Ht Hrest].
    destruct (generation_best _ _ _ Hshape Hsync Hnum Ht)
      as (Hshape' & Hsync' & Hnum' & Hbest).
    constructor; [done|]. by eapply IH.
Qed.

End BestAgent.

(** The generations recorded by a block of events. *)
Lemma generation_block_calls
    {Gen : Type} {RE : RandomEngine Gen} (de : DifferentialEvolution Gen)
    (verbose : bool) (s t : State Gen) :
  CallSelectionAndCorssing t ∈ generation_block de verbose s <-> t = s.
Proof.
  unfold generation_block. split.
  - intros H. apply elem_of_cons in H as [[= ->]|H]; [done|].
    apply elem_of_app in H as [H|H].
    + destruct verbose; [|by apply elem_of_nil in H].
      destruct (print_progress de s) as [e| | |] eqn:He; try by apply elem_of_nil in H.
      apply print_progress_Done in He as [agent ->].
      by apply list_elem_of_singleton in H.
    + apply elem_of_app in H as [H|H].
      * destruct (m_callback de); [by apply list_elem_of_singleton in H|].
        by apply elem_of_nil in H.
      * destruct (m_terminationCondition de); [by apply list_elem_of_singleton in H|].
        by apply elem_of_nil in H.
  - intros ->. apply elem_of_cons. by left.
Qed.

Lemma generation_events
    {Gen : Type} {RE : RandomEngine Gen} (de : DifferentialEvolution Gen)
    (verbose : bool) (generations : list (State Gen)) (t : State Gen) :
  CallSelectionAndCorssing t
    ∈ (flat_map (generation_block de verbose) generations
         ++ when verbose [final_report de generations]) <->
  t ∈ generations.
Proof.
  rewrite elem_of_app. split.
  - intros [H|H].
    + apply list_elem_of_In, in_flat_map in H as (g & Hg & H).
      apply list_elem_of_In, generation_block_calls in H as ->. by apply list_elem_of_In.
    + destruct verbose; simpl in H; [|by apply elem_of_nil in H].
      apply list_elem_of_singleton in H. unfold final_report in H.
      by destruct (stopped_early de generations).
  - intros H. left. apply list_elem_of_In, in_flat_map. exists t.
    split; [by apply list_elem_of_In|]. apply list_elem_of_In.
    by apply generation_block_calls.
Qed.

(** X6: what [Optimize] hands back.  When the costs of the initial
    agents are numbers (none is NaN), after every generation of a run
    (hence in every state a callback or the termination condition is
    shown) [GetBestAgent] is an agent of the population, [GetBestCost] is
    its cost, and no cached cost is less.  A run of at least one iteration ends in such a state; a run
    of no iteration ends in the state [InitPopulation] left, where
    [GetBestAgent] is agent 0 whatever its cost. *)
Theorem Optimize_returns_the_best_agent
    {Gen : Type} {RE : RandomEngine Gen}
    (costFunction : IOptimizable) (populationSize : nat) (randomSeed : Z)
    (shouldCheckConstraints : bool)
    (callback : option (State Gen -> unit))
    (terminationCondition : option (State Gen -> bool))
    (de : DifferentialEvolution Gen) (s0 : State Gen)
    (fuel : nat) (iterations : Z) (verbose : bool)
    (s' : State Gen) (evs : list (Event Gen)) :
  construct costFunction populationSize randomSeed shouldCheckConstraints
            callback terminationCondition = Done (de, s0) ->
  (forall s1, InitPopulation de s0 = Done s1 -> costs_are_numbers s1) ->
  Optimize fuel de s0 iterations verbose = Done (s', evs) ->
  (forall t, CallSelectionAndCorssing t ∈ evs -> best_is_known de t) /\
  (0 < iterations -> CallSelectionAndCorssing s' ∈ evs /\ best_is_known de s') /\
  (iterations <= 0 ->
   InitPopulation de s0 = Done s' /\
   (forall t, CallSelectionAndCorssing t ∉ evs) /\
   GetBestAgent s' = vec_get (m_population s') 0 /\
   GetBestCost s' = vec_get (m_minCostPerAgent s') 0).
Proof.
  intros Hc Hnumber H.
  pose proof (construct_shape _ _ _ _ _ _ _ _ Hc) as Hshape0.
  assert (m_cost de = costFunction) as Hcost.
  { apply construct_Done in Hc as (_ & -> & _). done. }
  assert (m_minCost s0 = neg_infinity /\ m_bestAgentIndex s0 = 0) as [Hinf Hzero].
  { apply construct_Done in Hc as (_ & _ & ->). done. }
  unfold Optimize in H. apply bind_Done in H as (s1 & Hinit & H).
  apply bind_Done in H as ([s2 evs1] & Hloop & [= <- <-]).
  pose proof (InitPopulation_shape de _ _ Hshape0 Hinit) as Hshape1.
  pose proof (InitPopulation_in_sync de _ _ Hinit) as Hsync1.
  apply optimization_loop_protocol in Hloop
    as (generations & Hfrom & Hlen & -> & -> & _ & Hfull).
  assert (Forall (best_is_known de) generations) as Hall.
  { eapply generations_best; try done. by apply Hnumber. }
  assert (forall t, CallSelectionAndCorssing t
                      ∈ CallInitPopulation
                          :: flat_map (generation_block de verbose) generations
                          ++ when verbose [final_report de generations] ->
                    t ∈ generations) as Hevents.
  { intros t Hin. apply elem_of_cons in Hin as [Hin|Hin]; [done|].
    by apply generation_events in Hin. }
  split; [|split].
  - intros t Hin. apply Hevents in Hin. by apply (proj1 (Forall_forall _ _) Hall).
  - intros Hpos.
    destruct (last generations) as [t|] eqn:Hlast.
    + simpl. assert (t ∈ generations) as Hin.
      { apply last_Some in Hlast as [l' ->]. apply elem_of_app. right.
        by apply list_elem_of_singleton. }
      split; [|by apply (proj1 (Forall_forall _ _) Hall)].
      apply elem_of_cons. right. by apply generation_events.
    + apply last_None in Hlast. subst generations.
      unfold stopped_early in Hfull. simpl in Hfull. specialize (Hfull eq_refl). lia.
  - intros Hzeroit. assert (generations = []) as ->.
    { destruct generations; [done|]. simpl in Hlen. lia. }
    simpl. split; [done|]. split.
    + intros t Hin. apply Hevents in Hin. by apply elem_of_nil in Hin.
    + apply InitPopulation_best in Hinit as [_ Hbest]; [|done].
      unfold GetBestAgent, GetBestCost, vec_get. by rewrite Hbest, Hzero.
Qed.

Lemma Optimize_returns_the_best_agent_demo :
  best_is_known demo_de demo_generation_2.
Proof.
  refine (proj2 (proj1 (proj2
    (Optimize_returns_the_best_agent (RE := demo_engine)
       Quadratic 4 0 true None None demo_de demo_constructed
       20 2 false demo_generation_2 demo_events _ _ _)) _)).
  - reflexivity.
  - intros s1 H. vm_compute in H. injection H as <-.
    unfold costs_are_numbers. simpl. repeat constructor.
  - vm_compute. reflexivity.
  - lia.
Defined.

(* ===================================================================== *)
(** * The best cost from one generation to the next *)
(* ===================================================================== *)

(** X7: the best cost never gets worse.  When the cached costs are
    numbers, the best cost after a generation is at most every cost cached
    before it; so what [GetBestCost] answers after the generation is at
    most what it answered before, also when the earlier answer was the
    cost of agent 0 that [InitPopulation] leaves. *)
Theorem best_cost_never_worsens
    {Gen : Type} {RE : RandomEngine Gen} (de : DifferentialEvolution Gen)
    (fuel : nat) (s s' : State Gen) :
  costs_are_numbers s ->
  length (m_minCostPerAgent s) = m_populationSize de ->
  SelectionAndCorssing fuel de s = Done s' ->
  (forall c, c ∈ m_minCostPerAgent s -> (m_minCost s' <=? c)%float = true) /\
  (forall before after,
     GetBestCost s = Done before -> GetBestCost s' = Done after ->
     (after <=? before)%float = true).
Proof.
  intros Hnum Hlen H.
  destruct (SelectionAndCorssing_best_is_minimum de fuel s s' Hnum Hlen H)
    as (Hbest & [_ Hmin] & _).
  destruct (SelectionAndCorssing_costs de fuel s s' Hnum H) as (_ & Hlen' & Hle).
  assert (forall c, c ∈ m_minCostPerAgent s -> (m_minCost s' <=? c)%float = true) as Hall.
  { intros c Hc. apply list_elem_of_lookup_1 in Hc as [i Hi].
    destruct (lookup_lt_is_Some_2 (m_minCostPerAgent s') i) as [c' Hc'].
    { rewrite Hlen'. by eapply lookup_lt_Some. }
    eapply leb_trans; [|by eapply Hle].
    by apply (Forall_lookup_1 _ _ _ _ Hmin Hc'). }
  split; [done|]. intros before after Hb Ha.
  assert (after = m_minCost s') as -> by congruence.
  apply Hall. unfold GetBestCost in Hb. apply vec_at_Done in Hb as [_ Hb].
  by eapply list_elem_of_lookup_2.
Qed.

Lemma best_cost_never_worsens_demo :
  exists before after,
    GetBestCost demo_generation_1 = Done before /\
    GetBestCost demo_generation_2 = Done after /\
    (after <=? before)%float = true.
Proof.
  eexists _, _. split; [reflexivity|]. split; [reflexivity|].
  refine (proj2 (best_cost_never_worsens (RE := demo_engine) demo_de 20
                   demo_generation_1 demo_generation_2 _ _ _) _ _ eq_refl eq_refl).
  - unfold costs_are_numbers. simpl. repeat constructor.
  - reflexivity.
  - vm_compute. reflexivity.
Defined.

(* ===================================================================== *)
(** * Ties between best agents *)
(* ===================================================================== *)

Lemma ltb_leb_trans (x y z : float) :
  (x <? y)%float = true -> (y <=? z)%float = true -> (x <? z)%float = true.
Proof.
  intros Hxy Hyz. destruct (x <? z)%float eqn:Hxz; [done|].
  apply ltb_not_nan in Hxy as Hx. apply leb_not_nan in Hyz as Hz.
  apply leb_total in Hxz; [|tauto|tauto].
  apply ltb_antisym in Hxy. pose proof (leb_trans _ _ _ Hyz Hxz). congruence.
Qed.

Section FirstBest.
Context {Gen : Type} {RE : RandomEngine Gen}.
Variable de : DifferentialEvolution Gen.

Lemma select_other_costs (x j : nat) (candidate : list float) (s s1 : State Gen) :
  select de x candidate s = Done s1 -> j <> x ->
  m_minCostPerAgent s1 !! j = m_minCostPerAgent s !! j.
Proof.
  intros Hsel Hj. apply select_Done in Hsel as (old & _ & Hsel).
  destruct (_ <? old)%float.
  - destruct Hsel as [_ ->]. simpl. by apply list_lookup_insert_ne.
  - by subst s1.
Qed.

Lemma SelectionAndCorssing_first_best (fuel : nat) (s s' : State Gen) :
  costs_are_numbers s ->
  length (m_minCostPerAgent s) = m_populationSize de ->
  SelectionAndCorssing fuel de s = Done s' ->
  forall j c, (j < Z.to_nat (m_bestAgentIndex s'))%nat ->
              m_minCostPerAgent s' !! j = Some c ->
              (m_minCost s' <? c)%float = true.
Proof.
  intros Hnum Hlen H. unfold SelectionAndCorssing in H.
  apply bind_Done in H as (c0 & Hc0 & H). apply vec_get_Done in Hc0.
  pose (Inv := fun (x : nat) (t : State Gen) (best : float * Z) =>
    tracking de (m_populationSize de) x t best /\
    forall j c, (j < Z.to_nat (snd best))%nat ->
                m_minCostPerAgent t !! j = Some c -> (fst best <? c)%float = true).
  assert (Inv 0%nat s (c0, 0)) as HI0.
  { split.
    - split; [done|]. split; [done|]. split; [lia|]. split; [done|].
      split; [done|]. split; [by right|]. intros j c Hj. lia.
    - simpl. intros j c Hj. lia. }
  destruct (selection_loop_invariant de Inv) with (3 := HI0) (4 := H)
    as (x' & sf & [mc bi] & _ & [_ HI] & ->).
  - intros ? ? ? ? ? HI _ _ _. exact HI.
  - intros ? x t best tr s1 best' [Ht Hfirst] Hx _ _ Hsel Htrack.
    split; [by eapply tracking_advance|].
    destruct Ht as (_ & _ & _ & _ & _ & Hwhere & Hmin).
    apply track_Done in Htrack as (cx & Hcx & ->).
    destruct (cx <? fst best)%float eqn:Hlt; simpl.
    + rewrite Nat2Z.id. intros j c Hj Hc.
      rewrite (select_other_costs _ _ _ _ _ Hsel) in Hc by lia. simpl in Hc.
      eapply ltb_leb_trans; [done|]. by apply (Hmin j).
    + intros j c Hj Hc.
      rewrite (select_other_costs _ _ _ _ _ Hsel) in Hc by lia. simpl in Hc.
      by apply (Hfirst j).
  - exact HI.
Qed.

End FirstBest.

(** X8: ties go to the lowest index.  After a generation over costs that
    are numbers, every agent before the best one costs strictly more than
    the best cost, so the best index is the first index of the least
    cached cost. *)
Theorem best_index_is_the_first_minimum
    {Gen : Type} {RE : RandomEngine Gen} (de : DifferentialEvolution Gen)
    (fuel : nat) (s s' : State Gen) :
  costs_are_numbers s ->
  length (m_minCostPerAgent s) = m_populationSize de ->
  SelectionAndCorssing fuel de s = Done s' ->
  is_minimum (m_minCost s') (m_minCostPerAgent s') /\
  m_minCostPerAgent s' !! Z.to_nat (m_bestAgentIndex s') = Some (m_minCost s') /\
  forall j c, (j < Z.to_nat (m_bestAgentIndex s'))%nat ->
              m_minCostPerAgent s' !! j = Some c ->
              (m_minCost s' <? c)%float = true /\ (c <=? m_minCost s')%float = false.
Proof.
  intros Hnum Hlen H.
  destruct (SelectionAndCorssing_best_is_minimum de fuel s s' Hnum Hlen H)
    as (Hbest & Hmin & _).
  split; [done|]. split.
  - unfold GetBestCost in Hbest. by apply vec_at_Done in Hbest as [_ Hbest].
  - intros j c Hj Hc.
    pose proof (SelectionAndCorssing_first_best de fuel s s' Hnum Hlen H j c Hj Hc) as Hlt.
    split; [done|]. by apply ltb_antisym.
Qed.

Lemma best_index_is_the_first_minimum_demo :
  m_minCostPerAgent demo_generation_2 !! Z.to_nat (m_bestAgentIndex demo_generation_2)
  = Some (m_minCost demo_generation_2).
Proof.
  refine (proj1 (proj2 (best_index_is_the_first_minimum (RE := demo_engine) demo_de 20
                   demo_generation_1 demo_generation_2 _ _ _))).
  - unfold costs_are_numbers. simpl. repeat constructor.
  - reflexivity.
  - vm_compute. reflexivity.
Defined.

(* ===================================================================== *)
(** * Every index is in range *)
(* ===================================================================== *)

Lemma runs_bind {A B : Type} (m : result A) (k : A -> result B) :
  runs m -> (forall a, m = Done a -> runs (k a)) -> runs (m ≫= k).
Proof. destruct m; simpl; try done. intros _ H. by apply H. Qed.

Lemma runs_Done {A : Type} (r : result A) : (exists a, r = Done a) -> runs r.
Proof. by intros [a ->]. Qed.

Section Safety.
Context {Gen : Type} {RE : RandomEngine Gen}.
Variable de : DifferentialEvolution Gen.
Hypothesis Hdonors : donor_draws_in_range (m_populationSize de).
Hypothesis Hparams : donor_draws_in_range (m_numberOfParameters de).

Lemma select_donors_runs (fuel : nat) (x a b c : Z) (g : Gen) :
  runs (select_donors fuel (m_populationSize de) x a b c g).
Proof.
  revert a b c g. induction fuel as [|fuel IH]; intros a b c g; simpl.
  - by destruct (donors_clash x a b c).
  - destruct (donors_clash x a b c); [|done].
    destruct (draw_donors_in_range _ Hdonors g) as (a' & b' & c' & g' & -> & _).
    simpl. apply IH.
Qed.

Lemma select_donors_range (fuel : nat) (x : Z) (g : Gen) (a b c : Z) (g' : Gen) :
  select_donors fuel (m_populationSize de) x x x x g = Done (a, b, c, g') ->
  0 <= a < Z.of_nat (m_populationSize de) /\
  0 <= b < Z.of_nat (m_populationSize de) /\
  0 <= c < Z.of_nat (m_populationSize de).
Proof.
  intros H. apply select_donors_Done in H as (k & _ & Hk & _).
  - destruct (nth_draw_in_range _ Hdonors k g) as (a' & b' & c' & g'' & Hk' & Hr).
    rewrite Hk in Hk'. by injection Hk' as -> -> -> ->.
  - unfold donors_clash. by rewrite Z.eqb_refl.
Qed.

Lemma population_at_returns (s : State Gen) (a : Z) (i : nat) :
  well_shaped de s ->
  0 <= a < Z.of_nat (m_populationSize de) -> (i < m_numberOfParameters de)%nat ->
  exists v, population_at (m_population s) a i = Done v.
Proof.
  intros (Hp & _ & Ha) Hrange Hi. unfold population_at.
  destruct (lookup_lt_is_Some_2 (m_population s) (Z.to_nat a)) as [agent Hagent]; [lia|].
  rewrite (proj2 (vec_at_Done _ _ _) (conj (proj1 Hrange) Hagent)). simpl.
  pose proof (Forall_lookup_1 _ _ _ _ Ha Hagent) as Hlen. simpl in Hlen.
  destruct (lookup_lt_is_Some_2 agent i) as [v Hv]; [lia|].
  exists v. by apply vec_get_Done.
Qed.

Lemma draw_r_length (n : nat) (g : Gen) : length (fst (draw_r n g)) = n.
Proof.
  revert g. induction n as [|n IH]; intros g; simpl; [done|].
  destruct (uniform_real_distribution _ _ g) as [v g1].
  specialize (IH g1). destruct (draw_r n g1) as [vs g2]. simpl in *. by f_equal.
Qed.

Lemma make_trial_returns (fuel x : nat) (s : State Gen) (r : Z * Z * Z * Gen) :
  well_shaped de s -> (x < m_populationSize de)%nat ->
  select_donors fuel (m_populationSize de) (Z.of_nat x) (Z.of_nat x) (Z.of_nat x)
                (Z.of_nat x) (m_generator s) = Done r ->
  exists t, make_trial fuel de x s = Done t.
Proof.
  intros Hshape Hx Hsel. unfold make_trial. rewrite Hsel. simpl.
  destruct r as [[[a b] c] g1]. apply select_donors_range in Hsel as (Ha & Hb & Hc).
  destruct (for_each_returns (m_numberOfParameters de)
              (mutation de (m_population s) a b c)) as [z Hz].
  { intros i Hi. unfold mutation.
    destruct (population_at_returns s a i) as [pa ->]; [done..|].
    destruct (population_at_returns s b i) as [pb ->]; [done..|].
    destruct (population_at_returns s c i) as [pc ->]; [done..|].
    simpl. by eexists. }
  unfold intermediate. rewrite Hz. simpl.
  apply for_each_Done in Hz as [Hzlen _].
  destruct (Hparams g1) as (R & HR & _).
  destruct (uniform_real_distribution _ _ g1) as [dR g2]. simpl in HR. rewrite HR. simpl.
  pose proof (draw_r_length (m_numberOfParameters de) g2) as Hrlen.
  destruct (draw_r _ g2) as [r g3]. simpl in Hrlen.
  destruct (for_each_returns (m_numberOfParameters de)
              (fun i => ri ← vec_get r i;
                        if (ri <? m_CR de)%float || (Z.of_nat i =? R)
                        then vec_get z i
                        else population_at (m_population s) (Z.of_nat x) i))
    as [nx Hnx].
  { intros i Hi.
    destruct (lookup_lt_is_Some_2 r i) as [ri Hri]; [lia|].
    rewrite (proj2 (vec_get_Done _ _ _) Hri). simpl.
    destruct (_ || _).
    - destruct (lookup_lt_is_Some_2 z i) as [zi Hzi]; [lia|].
      exists zi. by apply vec_get_Done.
    - apply population_at_returns; [done | lia | done]. }
  unfold crossing. rewrite Hnx. simpl. by eexists.
Qed.

Lemma make_trial_runs (fuel x : nat) (s : State Gen) :
  well_shaped de s -> (x < m_populationSize de)%nat ->
  runs (make_trial fuel de x s).
Proof.
  intros Hshape Hx.
  pose proof (select_donors_runs fuel (Z.of_nat x) (Z.of_nat x) (Z.of_nat x) (Z.of_nat x)
                (m_generator s)) as Hruns.
  destruct (select_donors _ _ _ _ _ _ _) as [r| | |] eqn:Hsel; try done.
  - apply runs_Done. by eapply make_trial_returns.
  - unfold make_trial. by rewrite Hsel.
Qed.

Lemma select_returns (x : nat) (candidate : list float) (s : State Gen) :
  well_shaped de s -> (x < m_populationSize de)%nat ->
  exists s', select de x candidate s = Done s'.
Proof.
  intros (Hp & Hc & _) Hx. unfold select.
  destruct (lookup_lt_is_Some_2 (m_minCostPerAgent s) x) as [old Hold]; [lia|].
  rewrite (proj2 (vec_get_Done _ _ _) Hold). simpl.
  destruct (_ <? old)%float; [|by eexists].
  assert (x < length (m_population s))%nat as Hxp by lia.
  assert (x < length (m_minCostPerAgent s))%nat as Hxc by lia.
  rewrite (proj2 (vec_set_Done (m_population s) x _ _) (conj Hxp eq_refl)). simpl.
  rewrite (proj2 (vec_set_Done (m_minCostPerAgent s) x _ _) (conj Hxc eq_refl)). simpl.
  by eexists.
Qed.

Lemma track_returns (x : nat) (s : State Gen) (best : float * Z) :
  well_shaped de s -> (x < m_populationSize de)%nat ->
  exists best', track x s best = Done best'.
Proof.
  intros (_ & Hc & _) Hx. unfold track.
  destruct (lookup_lt_is_Some_2 (m_minCostPerAgent s) x) as [cx Hcx]; [lia|].
  rewrite (proj2 (vec_get_Done _ _ _) Hcx). simpl.
  destruct (cx <? fst best)%float; by eexists.
Qed.

Lemma SelectionAndCorssing_best_in_range (fuel : nat) (s s' : State Gen) :
  (0 < m_populationSize de)%nat ->
  SelectionAndCorssing fuel de s = Done s' ->
  0 <= m_bestAgentIndex s' < Z.of_nat (m_populationSize de).
Proof.
  intros Hn H. unfold SelectionAndCorssing in H.
  apply bind_Done in H as (c0 & _ & H).
  pose (Inv := fun (x : nat) (_ : State Gen) (best : float * Z) =>
    (x <= m_populationSize de)%nat /\
    (snd best = 0 \/ 0 <= snd best < Z.of_nat x)).
  assert (Inv 0%nat s (c0, 0)) as HI0 by (split; [lia | by left]).
  destruct (selection_loop_invariant de Inv) with (3 := HI0) (4 := H)
    as (x' & sf & [mc bi] & _ & [Hle HI] & ->).
  - intros ? ? ? ? ? HI _ _ _. exact HI.
  - intros ? x t best tr s1 best' [_ HI] Hx _ _ _ Htrack.
    apply track_Done in Htrack as (cx & _ & ->).
    split; [lia|]. destruct (cx <? fst best)%float; simpl; lia.
  - simpl in *. lia.
Qed.

Lemma print_progress_returns (s : State Gen) :
  well_shaped de s ->
  0 <= m_bestAgentIndex s < Z.of_nat (m_populationSize de) ->
  exists e, print_progress de s = Done e.
Proof.
  intros Hshape Hbest. unfold print_progress.
  destruct (for_each_returns (m_numberOfParameters de)
              (fun i => population_at (m_population s) (m_bestAgentIndex s) i))
    as [agent ->].
  { intros i Hi. by apply population_at_returns. }
  simpl. by eexists.
Qed.

Section Constrained.
Hypothesis Hconstraints :
  (m_numberOfParameters de <= length (m_constraints de))%nat.

Lemma should_skip_returns (candidate : list float) :
  length candidate = m_numberOfParameters de ->
  exists skip, should_skip de candidate = Done skip.
Proof.
  intros Hlen. unfold should_skip.
  destruct (m_shouldCheckConstraints de); [|by eexists].
  destruct (CheckConstraints (m_constraints de) candidate) as [ok| | |] eqn:Hcheck.
  - simpl. by eexists.
  - exfalso. clear -Hcheck. revert Hcheck. generalize (m_constraints de).
    induction candidate as [|v rest IH]; intros [|c cs]; simpl; try done.
    destruct (negb (Check c v)); [done|]. apply IH.
  - apply CheckConstraints_Undefined in Hcheck as [Hshort _]. lia.
  - exfalso. clear -Hcheck. revert Hcheck. generalize (m_constraints de).
    induction candidate as [|v rest IH]; intros [|c cs]; simpl; try done.
    destruct (negb (Check c v)); [done|]. apply IH.
Qed.

Lemma selection_loop_runs (fuel x : nat) (s : State Gen) (best : float * Z) :
  well_shaped de s -> runs (selection_loop fuel de x s best).
Proof.
  revert x s best. induction fuel as [|fuel IH]; intros x s best Hshape; simpl.
  - by destruct (x <? m_populationSize de)%nat.
  - destruct (Nat.ltb_spec x (m_populationSize de)) as [Hx|Hx]; [|done].
    apply runs_bind; [by apply make_trial_runs|]. intros t Ht.
    pose proof (make_trial_length de _ _ _ _ Ht) as Hlen.
    destruct (should_skip_returns (newX t) Hlen) as [skip ->]. simpl.
    destruct skip; [by apply IH|].
    destruct (select_returns x (newX t) (with_generator s (trial_generator t)))
      as [s1 Hs1]; [done..|].
    rewrite Hs1. simpl.
    assert (well_shaped de s1) as Hshape1.
    { eapply select_shape; [exact Hlen | | exact Hs1]. done. }
    destruct (track_returns x s1 best) as [best' ->]; [done..|]. simpl.
    by apply IH.
Qed.

Lemma SelectionAndCorssing_runs (fuel : nat) (s : State Gen) :
  well_shaped de s -> (0 < m_populationSize de)%nat ->
  runs (SelectionAndCorssing fuel de s).
Proof.
  intros Hshape Hn. unfold SelectionAndCorssing.
  destruct (lookup_lt_is_Some_2 (m_minCostPerAgent s) 0) as [c0 Hc0].
  { destruct Hshape as (_ & -> & _). done. }
  rewrite (proj2 (vec_get_Done _ _ _) Hc0). simpl.
  by apply selection_loop_runs.
Qed.

Lemma optimization_loop_runs (fuel : nat) (verbose : bool) (n : nat) (s : State Gen) :
  well_shaped de s -> (0 < m_populationSize de)%nat ->
  runs (optimization_loop fuel de verbose n s).
Proof.
  intros Hshape Hn. revert s Hshape. induction n as [|n IH]; intros s Hshape; simpl.
  - done.
  - apply runs_bind; [by apply SelectionAndCorssing_runs|]. intros s1 Hs1.
    pose proof (SelectionAndCorssing_shape de _ _ _ Hshape Hs1) as Hshape1.
    pose proof (SelectionAndCorssing_best_in_range _ _ _ Hn Hs1) as Hbest.
    assert (exists evs, after_generation de verbose s1 = Done evs) as [evs ->].
    { unfold after_generation. destruct verbose; simpl; [|by eexists].
      destruct (print_progress_returns s1) as [e ->]; [done..|]. simpl. by eexists. }
    simpl. specialize (IH s1 Hshape1).
    destruct (m_terminationCondition de) as [terminationCondition|].
    + destruct (terminationCondition s1); [done|].
      apply runs_bind; [done|]. by intros [s2 rest] _.
    + apply runs_bind; [done|]. by intros [s2 rest] _.
Qed.

Lemma Optimize_runs (fuel : nat) (s : State Gen) (iterations : Z) (verbose : bool) :
  well_shaped de s -> (0 < m_populationSize de)%nat ->
  runs (Optimize fuel de s iterations verbose).
Proof.
  intros Hshape Hn. unfold Optimize.
  destruct (InitPopulation_returns de s Hshape Hconstraints) as [s1 Hs1].
  rewrite Hs1. simpl.
  apply runs_bind.
  - apply optimization_loop_runs; [|done]. by eapply InitPopulation_shape.
  - by intros [s2 evs] _.
Qed.

End Constrained.

(** With the constraint check off no pass is retried: [f] rounds of fuel
    for every donor loop are enough for the whole generation. *)
Lemma selection_loop_returns (f : nat) :
  m_shouldCheckConstraints de = false ->
  (forall x g, (x < m_populationSize de)%nat ->
     exists r, select_donors f (m_populationSize de) (Z.of_nat x) (Z.of_nat x)
                             (Z.of_nat x) (Z.of_nat x) g = Done r) ->
  forall d x s best,
    (m_populationSize de - x <= d)%nat -> well_shaped de s ->
    exists s', selection_loop (f + d) de x s best = Done s'.
Proof.
  intros Hcheck Hloop. induction d as [|d IH]; intros x s best Hd Hshape.
  - destruct f; simpl; destruct (Nat.ltb_spec x (m_populationSize de)); try lia;
      by eexists.
  - rewrite Nat.add_succ_r. simpl.
    destruct (Nat.ltb_spec x (m_populationSize de)) as [Hx|Hx]; [|by eexists].
    destruct (Hloop x (m_generator s) Hx) as [r Hr].
    destruct (make_trial_returns (f + d) x s r Hshape Hx) as [t Ht].
    { eapply select_donors_fuel; [exact Hr | lia]. }
    rewrite Ht. simpl. unfold should_skip. rewrite Hcheck. simpl.
    pose proof (make_trial_length de _ _ _ _ Ht) as Hlen.
    destruct (select_returns x (newX t) (with_generator s (trial_generator t)))
      as [s1 Hs1]; [done..|].
    rewrite Hs1. simpl.
    assert (well_shaped de s1) as Hshape1.
    { eapply select_shape; [exact Hlen | | exact Hs1]. done. }
    destruct (track_returns x s1 best) as [best' ->]; [done..|]. simpl.
    apply IH; [lia | done].
Qed.

End Safety.



(* ===================================================================== *)
(** * Runs that return *)
(* ===================================================================== *)

Section Returns.
Context {Gen : Type} {RE : RandomEngine Gen}.
Variable de : DifferentialEvolution Gen.
Variable f : nat.
Hypothesis Hdonors : donor_draws_in_range (m_populationSize de).
Hypothesis Hparams : donor_draws_in_range (m_numberOfParameters de).
Hypothesis Hcheck : m_shouldCheckConstraints de = false.
Hypothesis Hloop :
  forall x g, (x < m_populationSize de)%nat ->
    exists r, select_donors f (m_populationSize de) (Z.of_nat x) (Z.of_nat x)
                            (Z.of_nat x) (Z.of_nat x) g = Done r.

Lemma SelectionAndCorssing_returns (s : State Gen) :
  well_shaped de s -> (0 < m_populationSize de)%nat ->
  exists s', SelectionAndCorssing (f + m_populationSize de) de s = Done s'.
Proof.
  intros Hshape Hn. unfold SelectionAndCorssing.
  destruct (lookup_lt_is_Some_2 (m_minCostPerAgent s) 0) as [c0 Hc0].
  { destruct Hshape as (_ & -> & _). done. }
  rewrite (proj2 (vec_get_Done _ _ _) Hc0). simpl.
  apply selection_loop_returns; try done. lia.
Qed.

Lemma optimization_loop_returns (verbose : bool) (n : nat) (s : State Gen) :
  well_shaped de s -> (0 < m_populationSize de)%nat ->
  exists r, optimization_loop (f + m_populationSize de) de verbose n s = Done r.
Proof.
  intros Hshape Hn. revert s Hshape. induction n as [|n IH]; intros s Hshape; simpl.
  - by eexists.
  - destruct (SelectionAndCorssing_returns s Hshape Hn) as [s1 Hs1].
    rewrite Hs1. simpl.
    pose proof (SelectionAndCorssing_shape de _ _ _ Hshape Hs1) as Hshape1.
    pose proof (SelectionAndCorssing_best_in_range de _ _ _ Hn Hs1) as Hbest.
    assert (exists evs, after_generation de verbose s1 = Done evs) as [evs ->].
    { unfold after_generation. destruct verbose; simpl; [|by eexists].
      destruct (print_progress_returns de s1) as [e ->]; [done..|]. simpl. by eexists. }
    simpl. destruct (IH s1 Hshape1) as [[s2 rest] ->].
    destruct (m_terminationCondition de) as [terminationCondition|]; simpl.
    + destruct (terminationCondition s1); by eexists.
    + by eexists.
Qed.

End Returns.

Lemma cyclic_draws_in (script : list float) (a b : float) :
  script <> [] ->
  Forall (fun u => (a <=? u * (b - a) + a)%float && (u * (b - a) + a <? b)%float = true)
         script ->
  draws_in (RE := cyclic script) a b.
Proof.
  intros Hne Hall g. simpl.
  assert (nth (g mod length script)%nat script 0%float ∈ script) as Hin.
  { apply list_elem_of_In, nth_In, Nat.mod_upper_bound.
    destruct script; [done | simpl; lia]. }
  by apply (proj1 (Forall_forall _ _) Hall) in Hin.
Qed.

(** A cyclic engine only looks at its state modulo the length of the
    cycle. *)
Lemma cyclic_draw_mod (script : list float) (a b : float) (g : nat) :
  script <> [] ->
  cyclic_draw script a b (g mod length script)%nat = cyclic_draw script a b g.
Proof.
  intros Hne. assert (length script <> 0%nat) as Hlen by (by destruct script).
  unfold cyclic_draw. rewrite Nat.Div0.mod_mod.
  f_equal. change (S ?n) with (1 + n)%nat.
  rewrite (Nat.Div0.add_mod 1 (g mod length script)%nat), Nat.Div0.mod_mod.
  by rewrite <- Nat.Div0.add_mod.
Qed.

Lemma cyclic_select_donors_mod (script : list float) (fuel n : nat) (x a b c : Z)
    (g : nat) :
  script <> [] ->
  select_donors (RE := cyclic script) fuel n x a b c (g mod length script)%nat
  = select_donors (RE := cyclic script) fuel n x a b c g \/
  donors_clash x a b c = false.
Proof.
  intros Hne. destruct (donors_clash x a b c) eqn:Hclash; [left | by right].
  destruct fuel as [|fuel]; simpl; rewrite Hclash; [done|].
  f_equal. unfold draw_donors, uniform_real_distribution, cyclic.
  by rewrite cyclic_draw_mod.
Qed.

Lemma round_robin_selects (x g : nat) :
  (x < 4)%nat ->
  exists r, select_donors (RE := round_robin) 4 4 (Z.of_nat x) (Z.of_nat x) (Z.of_nat x)
                          (Z.of_nat x) g = Done r.
Proof.
  intros Hx.
  destruct (cyclic_select_donors_mod [0; 0.25; 0.5; 0.75]%float 4 4
              (Z.of_nat x) (Z.of_nat x) (Z.of_nat x) (Z.of_nat x) g ltac:(done))
    as [Heq|Hclash].
  - unfold round_robin. rewrite <- Heq.
    change (length [0; 0.25; 0.5; 0.75]%float) with 4%nat.
    pose proof (Nat.mod_upper_bound g 4 ltac:(lia)) as Hg.
    destruct (g mod 4)%nat as [|[|[|[|k]]]]; [| | | |lia];
      (destruct x as [|[|[|[|x]]]]; [| | | |lia]); vm_compute; by eexists.
  - unfold donors_clash in Hclash. by rewrite Z.eqb_refl in Hclash.
Qed.



(* ===================================================================== *)
(** * The test functions *)
(* ===================================================================== *)

(** The box test of the cost functions against [Check]. *)
Lemma Check_inside_box (c : Constraints) (v : float) :
  isConstrained c = true -> Check c v = true ->
  (v <? lower c)%float || (upper c <? v)%float = false.
Proof.
  intros Hon Hcheck. apply Check_enforced in Hcheck as [Hlo Hhi]; [|done].
  apply orb_false_iff. split.
  - destruct (v <? lower c)%float eqn:E; [|done]. apply ltb_antisym in E. congruence.
  - destruct (upper c <? v)%float eqn:E; [|done]. apply ltb_antisym in E. congruence.
Qed.

Lemma Check_outside_box (c : Constraints) (v : float) :
  isConstrained c = true ->
  is_nan (lower c) = false -> is_nan (upper c) = false -> is_nan v = false ->
  Check c v = false ->
  (v <? lower c)%float || (upper c <? v)%float = true.
Proof.
  intros Hon Hl Hu Hv Hcheck.
  destruct ((v <? lower c)%float || (upper c <? v)%float) eqn:E; [done|].
  apply orb_false_iff in E as [Elo Ehi].
  apply leb_total in Elo; [|done..]. apply leb_total in Ehi; [|done..].
  assert (Check c v = true) by (by apply Check_enforced). congruence.
Qed.

Lemma CheckConstraints_replicate (c : Constraints) (inputs : list float) :
  (exists ok, CheckConstraints (replicate (length inputs) c) inputs = Done ok) /\
  (CheckConstraints (replicate (length inputs) c) inputs = Done true ->
   Forall (fun v => Check c v = true) inputs) /\
  (CheckConstraints (replicate (length inputs) c) inputs = Done false ->
   Exists (fun v => Check c v = false) inputs).
Proof.
  induction inputs as [|v rest (IH0 & IH1 & IH2)]; simpl.
  - split; [by eexists|]. split; [constructor | done].
  - destruct (Check c v) eqn:Hv; simpl.
    + split; [done|]. split.
      * intros H. constructor; [done | by apply IH1].
      * intros H. apply Exists_cons_tl. by apply IH2.
    + split; [by eexists|]. split; [done|]. intros _. by apply Exists_cons_hd.
Qed.

Section RastriginFacts.
Variable cos : float -> float.
Variable m_dim : nat.

Lemma Rastrigin_loop_inside (inputs : list float) (n i : nat) (val : float) :
  (i + n)%nat = length inputs ->
  Forall (fun x => (x <? -5.12)%float || (5.12 <? x)%float = false) (drop i inputs) ->
  Rastrigin.loop cos m_dim n i inputs val
  = Done (Rastrigin.A * double_of_unsigned m_dim
          + fold_left (fun val x =>
                         val + (x * x - Rastrigin.A * cos (2 * M_PI * x)))
                      (drop i inputs) val)%float.
Proof.
  revert i val. induction n as [|n IH]; intros i val Hlen Hin; simpl.
  - rewrite drop_ge by lia. done.
  - destruct (lookup_lt_is_Some_2 inputs i) as [x Hx]; [lia|].
    rewrite (proj2 (vec_get_Done _ _ _) Hx). simpl.
    rewrite (drop_S _ _ _ Hx) in Hin |- *. apply Forall_cons in Hin as [-> Hin].
    simpl. apply IH; [lia | done].
Qed.

Lemma Rastrigin_loop_outside (inputs : list float) (n i : nat) (val : float) :
  (i + n)%nat = length inputs ->
  Exists (fun x => (x <? -5.12)%float || (5.12 <? x)%float = true) (drop i inputs) ->
  Rastrigin.loop cos m_dim n i inputs val = Done 1e7%float.
Proof.
  revert i val. induction n as [|n IH]; intros i val Hlen Hout; simpl.
  - rewrite drop_ge in Hout by lia. by apply Exists_nil in Hout.
  - destruct (lookup_lt_is_Some_2 inputs i) as [x Hx]; [lia|].
    rewrite (proj2 (vec_get_Done _ _ _) Hx). simpl.
    rewrite (drop_S _ _ _ Hx) in Hout. apply Exists_cons in Hout as [->|Hout]; [done|].
    destruct (_ || _); [done|]. apply IH; [lia | done].
Qed.

Lemma Rastrigin_loop_returns (inputs : list float) (n i : nat) (val : float) :
  (i + n)%nat = length inputs ->
  exists c, Rastrigin.loop cos m_dim n i inputs val = Done c.
Proof.
  revert i val. induction n as [|n IH]; intros i val Hlen; simpl; [by eexists|].
  destruct (lookup_lt_is_Some_2 inputs i) as [x Hx]; [lia|].
  rewrite (proj2 (vec_get_Done _ _ _) Hx). simpl.
  destruct (_ || _); [by eexists|]. apply IH. lia.
Qed.

End RastriginFacts.

Section CosineMixtureFacts.
Variable cos : float -> float.
Variable m_dim : nat.

Lemma CosineMixture_loop_inside (inputs : list float) (n i : nat) (val1 val2 : float) :
  (i + n)%nat = length inputs ->
  Forall (fun x => (x <? -1)%float || (1 <? x)%float = false) (drop i inputs) ->
  CosineMixture.loop cos n i inputs val1 val2
  = Done (-0.1 * fold_left (fun val x => val + cos (5 * M_PI * x)) (drop i inputs) val1
          - fold_left (fun val x => val + x * x) (drop i inputs) val2)%float.
Proof.
  revert i val1 val2. induction n as [|n IH]; intros i val1 val2 Hlen Hin; simpl.
  - rewrite drop_ge by lia. done.
  - destruct (lookup_lt_is_Some_2 inputs i) as [x Hx]; [lia|].
    rewrite (proj2 (vec_get_Done _ _ _) Hx). simpl.
    rewrite (drop_S _ _ _ Hx) in Hin |- *. apply Forall_cons in Hin as [-> Hin].
    simpl. apply IH; [lia | done].
Qed.

Lemma CosineMixture_loop_outside (inputs : list float) (n i : nat) (val1 val2 : float) :
  (i + n)%nat = length inputs ->
  Exists (fun x => (x <? -1)%float || (1 <? x)%float = true) (drop i inputs) ->
  CosineMixture.loop cos n i inputs val1 val2 = Done 1e7%float.
Proof.
  revert i val1 val2. induction n as [|n IH]; intros i val1 val2 Hlen Hout; simpl.
  - rewrite drop_ge in Hout by lia. by apply Exists_nil in Hout.
  - destruct (lookup_lt_is_Some_2 inputs i) as [x Hx]; [lia|].
    rewrite (proj2 (vec_get_Done _ _ _) Hx). simpl.
    rewrite (drop_S _ _ _ Hx) in Hout. apply Exists_cons in Hout as [->|Hout]; [done|].
    destruct (_ || _); [done|]. apply IH; [lia | done].
Qed.

Lemma CosineMixture_loop_returns (inputs : list float) (n i : nat) (val1 val2 : float) :
  (i + n)%nat = length inputs ->
  exists c, CosineMixture.loop cos n i inputs val1 val2 = Done c.
Proof.
  revert i val1 val2. induction n as [|n IH]; intros i val1 val2 Hlen; simpl;
    [by eexists|].
  destruct (lookup_lt_is_Some_2 inputs i) as [x Hx]; [lia|].
  rewrite (proj2 (vec_get_Done _ _ _) Hx). simpl.
  destruct (_ || _); [by eexists|]. apply IH. lia.
Qed.

Lemma CosineMixture_reads_two (inputs : list float) :
  length inputs = m_dim -> (2 <= m_dim)%nat ->
  CosineMixture.EvaluteCost cos m_dim inputs
  = CosineMixture.loop cos m_dim 0 inputs 0%float 0%float.
Proof.
  intros Hlen Hdim. unfold CosineMixture.EvaluteCost.
  rewrite (proj2 (Nat.eqb_eq _ _) Hlen).
  destruct (lookup_lt_is_Some_2 inputs 0) as [x Hx]; [lia|].
  destruct (lookup_lt_is_Some_2 inputs 1) as [y Hy]; [lia|].
  rewrite (proj2 (vec_get_Done _ _ _) Hx). simpl.
  by rewrite (proj2 (vec_get_Done _ _ _) Hy).
Qed.

End CosineMixtureFacts.

Lemma VSS_loop_returns (cos : float -> float) (inputs : list float) (n i : nat)
    (val : float) :
  (i + n)%nat = length inputs ->
  VSS.loop cos n i inputs val
  = Done (fold_left (fun val x =>
                       val + (x * x - 100 * cos x * cos x - 100 * cos (x * x / 30)))
                    (drop i inputs) val + 1400)%float.
Proof.
  revert i val. induction n as [|n IH]; intros i val Hlen; simpl.
  - rewrite drop_ge by lia. done.
  - destruct (lookup_lt_is_Some_2 inputs i) as [x Hx]; [lia|].
    rewrite (proj2 (vec_get_Done _ _ _) Hx). simpl.
    rewrite (drop_S _ _ _ Hx). simpl. apply IH. lia.
Qed.

(** X11: the penalty of [Rastrigin] and the optimizer's constraint check.
    On an input of [m_dim] coordinates [CheckConstraints] with the
    function's own constraints always answers.  An input that passes is
    never given the penalty: its cost is the sum of the loop.  An input
    without NaN that fails costs exactly [1e7].  A NaN coordinate fails
    the check but not the box test of the cost function, which then goes
    on with the sum. *)
Theorem Rastrigin_penalty_is_the_constraint
    (cos : float -> float) (m_dim : nat) (inputs : list float) :
  length inputs = m_dim ->
  let sum := (Rastrigin.A * double_of_unsigned m_dim
              + fold_left (fun val x =>
                             val + (x * x - Rastrigin.A * cos (2 * M_PI * x)))
                          inputs 0)%float in
  (exists ok, CheckConstraints (Rastrigin.GetConstraints m_dim) inputs = Done ok) /\
  (CheckConstraints (Rastrigin.GetConstraints m_dim) inputs = Done true ->
   Rastrigin.EvaluteCost cos m_dim inputs = Done sum) /\
  (CheckConstraints (Rastrigin.GetConstraints m_dim) inputs = Done false ->
   Forall (fun x => is_nan x = false) inputs ->
   Rastrigin.EvaluteCost cos m_dim inputs = Done 1e7%float) /\
  (Forall (fun x => is_nan x = true) inputs ->
   Rastrigin.EvaluteCost cos m_dim inputs = Done sum /\
   (inputs <> [] ->
    CheckConstraints (Rastrigin.GetConstraints m_dim) inputs = Done false)).
Proof.
  intros Hlen sum. unfold Rastrigin.GetConstraints, Rastrigin.NumberOfParameters.
  rewrite fmap_replicate. subst m_dim.
  destruct (CheckConstraints_replicate (mkConstraints (-5.12) 5.12 true) inputs)
    as (Hok & Htrue & Hfalse).
  unfold Rastrigin.EvaluteCost. rewrite Nat.eqb_refl.
  split; [done|]. split; [|split].
  - intros H. apply Htrue in H. apply Rastrigin_loop_inside; [done|].
    rewrite drop_0. eapply Forall_impl; [exact H|]. intros x Hx.
    by apply (Check_inside_box (mkConstraints (-5.12) 5.12 true)).
  - intros H Hnum. apply Hfalse in H. apply Rastrigin_loop_outside; [done|].
    rewrite drop_0. apply Exists_exists in H as (x & Hin & Hx).
    apply Exists_exists. exists x. split; [done|].
    apply (Check_outside_box (mkConstraints (-5.12) 5.12 true)); try done.
    by apply (proj1 (Forall_forall _ _) Hnum).
  - intros Hnan. split.
    + apply Rastrigin_loop_inside; [done|]. rewrite drop_0.
      eapply Forall_impl; [exact Hnan|]. intros x Hx. simpl in Hx.
      apply orb_false_iff. split.
      * destruct (x <? -5.12)%float eqn:E; [|done].
        apply ltb_not_nan in E as [E _]. congruence.
      * destruct (5.12 <? x)%float eqn:E; [|done].
        apply ltb_not_nan in E as [_ E]. congruence.
    + intros Hne. destruct Hok as [[|] Hok]; [|done].
      apply Htrue in Hok. destruct inputs as [|x rest]; [done|].
      apply Forall_cons in Hok as [Hx _]. apply Forall_cons in Hnan as [Hn _].
      apply Check_enforced in Hx as [Hx _]; [|done].
      apply leb_not_nan in Hx as [_ Hx]. congruence.
Qed.

Lemma Rastrigin_penalty_is_the_constraint_demo :
  CheckConstraints (Rastrigin.GetConstraints 2) [0; 6]%float = Done false /\
  Rastrigin.EvaluteCost cos_stub 2 [0; 6]%float = Done 1e7%float.
Proof.
  split; [reflexivity|].
  refine (proj1 (proj2 (proj2 (Rastrigin_penalty_is_the_constraint cos_stub 2
                                 [0; 6]%float eq_refl))) eq_refl _).
  repeat constructor.
Defined.

(** X12: the same for [CosineMixture] of at least two dimensions: an input
    of the right size that passes the check with the function's own
    constraints costs [-0.1 * val1 - val2], never the penalty, and an
    input without NaN that fails costs exactly [1e7]. *)
Theorem CosineMixture_penalty_is_the_constraint
    (cos : float -> float) (m_dim : nat) (inputs : list float) :
  length inputs = m_dim -> (2 <= m_dim)%nat ->
  (exists ok, CheckConstraints (CosineMixture.GetConstraints m_dim) inputs = Done ok) /\
  (CheckConstraints (CosineMixture.GetConstraints m_dim) inputs = Done true ->
   CosineMixture.EvaluteCost cos m_dim inputs
   = Done (-0.1 * fold_left (fun val x => val + cos (5 * M_PI * x)) inputs 0
           - fold_left (fun val x => val + x * x) inputs 0)%float) /\
  (CheckConstraints (CosineMixture.GetConstraints m_dim) inputs = Done false ->
   Forall (fun x => is_nan x = false) inputs ->
   CosineMixture.EvaluteCost cos m_dim inputs = Done 1e7%float).
Proof.
  intros Hlen Hdim. rewrite CosineMixture_reads_two by done.
  unfold CosineMixture.GetConstraints, CosineMixture.NumberOfParameters.
  rewrite fmap_replicate. subst m_dim.
  destruct (CheckConstraints_replicate (mkConstraints (-1) 1 true) inputs)
    as (Hok & Htrue & Hfalse).
  split; [done|]. split.
  - intros H. apply Htrue in H. apply CosineMixture_loop_inside; [done|].
    rewrite drop_0. eapply Forall_impl; [exact H|]. intros x Hx.
    by apply (Check_inside_box (mkConstraints (-1) 1 true)).
  - intros H Hnum. apply Hfalse in H. apply CosineMixture_loop_outside; [done|].
    rewrite drop_0. apply Exists_exists in H as (x & Hin & Hx).
    apply Exists_exists. exists x. split; [done|].
    apply (Check_outside_box (mkConstraints (-1) 1 true)); try done.
    by apply (proj1 (Forall_forall _ _) Hnum).
Qed.

Lemma CosineMixture_penalty_is_the_constraint_demo :
  CheckConstraints (CosineMixture.GetConstraints 3) [0.5; -2; 0]%float = Done false /\
  CosineMixture.EvaluteCost cos_stub 3 [0.5; -2; 0]%float = Done 1e7%float.
Proof.
  split; [reflexivity|].
  refine (proj2 (proj2 (CosineMixture_penalty_is_the_constraint cos_stub 3
                          [0.5; -2; 0]%float eq_refl _)) eq_refl _).
  - lia.
  - repeat constructor.
Defined.

(** X13: when the test functions return.  Each of them fails its
    assertion exactly on an input whose size is not [m_dim].  On an input
    of the right size [VSS] and [Rastrigin] return a cost; so does
    [CosineMixture] when [m_dim] is at least 2, while for [m_dim] below 2
    its reads of [inputs[0]] and [inputs[1]] go out of range on every
    such input. *)
Theorem test_functions_return
    (cos : float -> float) (m_dim : nat) (inputs : list float) :
  (VSS.EvaluteCost cos m_dim inputs = AssertionFailed <-> length inputs <> m_dim) /\
  (CosineMixture.EvaluteCost cos m_dim inputs = AssertionFailed
   <-> length inputs <> m_dim) /\
  (Rastrigin.EvaluteCost cos m_dim inputs = AssertionFailed
   <-> length inputs <> m_dim) /\
  (length inputs = m_dim ->
   (exists c, VSS.EvaluteCost cos m_dim inputs = Done c) /\
   (exists c, Rastrigin.EvaluteCost cos m_dim inputs = Done c) /\
   ((2 <= m_dim)%nat -> exists c, CosineMixture.EvaluteCost cos m_dim inputs = Done c) /\
   ((m_dim < 2)%nat -> CosineMixture.EvaluteCost cos m_dim inputs = Undefined)).
Proof.
  assert (length inputs = m_dim ->
          exists c, VSS.EvaluteCost cos m_dim inputs = Done c) as HV.
  { intros Hlen. unfold VSS.EvaluteCost. rewrite (proj2 (Nat.eqb_eq _ _) Hlen).
    rewrite VSS_loop_returns by lia. by eexists. }
  assert (length inputs = m_dim ->
          exists c, Rastrigin.EvaluteCost cos m_dim inputs = Done c) as HR.
  { intros Hlen. unfold Rastrigin.EvaluteCost. rewrite (proj2 (Nat.eqb_eq _ _) Hlen).
    apply Rastrigin_loop_returns. lia. }
  assert (length inputs = m_dim -> (2 <= m_dim)%nat ->
          exists c, CosineMixture.EvaluteCost cos m_dim inputs = Done c) as HC.
  { intros Hlen Hdim. rewrite CosineMixture_reads_two by done.
    apply CosineMixture_loop_returns. lia. }
  assert (length inputs = m_dim -> (m_dim < 2)%nat ->
          CosineMixture.EvaluteCost cos m_dim inputs = Undefined) as HU.
  { intros Hlen Hdim. unfold CosineMixture.EvaluteCost.
    rewrite (proj2 (Nat.eqb_eq _ _) Hlen).
    destruct inputs as [|x [|y rest]]; simpl in *; [done | done | lia]. }
  split; [|split; [|split]].
  - split.
    + intros H Hlen. destruct (HV Hlen) as [c Hc]. congruence.
    + intros Hlen. unfold VSS.EvaluteCost. by rewrite (proj2 (Nat.eqb_neq _ _) Hlen).
  - split.
    + intros H Hlen. destruct (le_lt_dec 2 m_dim) as [Hdim|Hdim].
      * destruct (HC Hlen Hdim) as [c Hc]. congruence.
      * rewrite (HU Hlen Hdim) in H. done.
    + intros Hlen. unfold CosineMixture.EvaluteCost.
      by rewrite (proj2 (Nat.eqb_neq _ _) Hlen).
  - split.
    + intros H Hlen. destruct (HR Hlen) as [c Hc]. congruence.
    + intros Hlen. unfold Rastrigin.EvaluteCost.
      by rewrite (proj2 (Nat.eqb_neq _ _) Hlen).
  - intros Hlen. split; [by apply HV|]. split; [by apply HR|].
    split; [by apply HC | by apply HU].
Qed.

Lemma test_functions_return_demo :
  CosineMixture.EvaluteCost cos_stub 1 [0.5]%float = Undefined /\
  CosineMixture.EvaluteCost cos_stub 2 [0.5]%float = AssertionFailed.
Proof.
  split.
  - refine (proj2 (proj2 (proj2 (proj2 (proj2 (proj2
      (test_functions_return cos_stub 1 [0.5]%float))) eq_refl))) _). lia.
  - refine (proj2 (proj1 (proj2 (test_functions_return cos_stub 2 [0.5]%float))) _).
    simpl. lia.
Defined.

(* ===================================================================== *)
(** * Reproducibility: the run is a function of the numbers drawn *)
(* ===================================================================== *)

Lemma same_outcome_bind {A1 A2 B1 B2 : Type}
    (P : A1 -> A2 -> Prop) (Q : B1 -> B2 -> Prop)
    (m1 : result A1) (m2 : result A2) (k1 : A1 -> result B1) (k2 : A2 -> result B2) :
  same_outcome P m1 m2 ->
  (forall a1 a2, P a1 a2 -> same_outcome Q (k1 a1) (k2 a2)) ->
  same_outcome Q (m1 ≫= k1) (m2 ≫= k2).
Proof. destruct m1, m2; simpl; try done. intros H Hk. by apply Hk. Qed.

Section SideBySideFacts.
Context {Gen1 Gen2 : Type} {RE1 : RandomEngine Gen1} {RE2 : RandomEngine Gen2}.
Variable R : Gen1 -> Gen2 -> Prop.
Hypothesis HR : same_draws R.

Lemma draw_same (a b : float) (g1 : Gen1) (g2 : Gen2) :
  R g1 g2 ->
  exists v g1' g2',
    uniform_real_distribution a b g1 = (v, g1') /\
    uniform_real_distribution a b g2 = (v, g2') /\ R g1' g2'.
Proof.
  intros Hg. destruct (HR a b g1 g2 Hg) as [Hv Hg'].
  destruct (uniform_real_distribution a b g1) as [v1 g1'].
  destruct (uniform_real_distribution a b g2) as [v2 g2'].
  simpl in *. subst v2. by exists v1, g1', g2'.
Qed.

Lemma init_agent_same (cs : list Constraints) (n i : nat) (agent : list float)
    (g1 : Gen1) (g2 : Gen2) :
  R g1 g2 ->
  same_outcome (fun p1 p2 => fst p1 = fst p2 /\ R (snd p1) (snd p2))
               (init_agent cs n i agent g1) (init_agent cs n i agent g2).
Proof.
  revert i agent g1 g2. induction n as [|n IH]; intros i agent g1 g2 Hg; simpl; [done|].
  destruct (vec_get cs i) as [c| | |]; simpl; try done.
  destruct (isConstrained c).
  - destruct (draw_same (lower c) (upper c) g1 g2 Hg) as (v & g1' & g2' & -> & -> & Hg').
    destruct (vec_set agent i v); simpl; try done. by apply IH.
  - destruct (draw_same g_defaultLowerConstraint g_defaultUpperConstarint g1 g2 Hg)
      as (v & g1' & g2' & -> & -> & Hg').
    destruct (vec_set agent i v); simpl; try done. by apply IH.
Qed.

Lemma init_agents_same (cs : list Constraints) (k : nat) (population : list (list float))
    (g1 : Gen1) (g2 : Gen2) :
  R g1 g2 ->
  same_outcome (fun p1 p2 => fst p1 = fst p2 /\ R (snd p1) (snd p2))
               (init_agents cs k population g1) (init_agents cs k population g2).
Proof.
  revert g1 g2. induction population as [|agent rest IH]; intros g1 g2 Hg; simpl; [done|].
  eapply same_outcome_bind; [by apply init_agent_same|].
  intros [a1 g1'] [a2 g2'] [Ha Hg']. simpl in Ha, Hg'. subst a2.
  eapply same_outcome_bind; [by apply IH|].
  intros [r1 g1''] [r2 g2''] [Hr Hg'']. simpl in Hr, Hg''. subst r2. done.
Qed.

Lemma init_costs_same (de1 : DifferentialEvolution Gen1) (de2 : DifferentialEvolution Gen2)
    (n i : nat) (s1 : State Gen1) (s2 : State Gen2) :
  m_cost de1 = m_cost de2 -> same_state R s1 s2 ->
  same_outcome (same_state R) (init_costs de1 n i s1) (init_costs de2 n i s2).
Proof.
  intros Hcost. revert i s1 s2. induction n as [|n IH]; intros i s1 s2 Hs; simpl; [done|].
  destruct Hs as (Hg & Hp & Hc & Hb & Hm). rewrite Hp, Hc, Hm, Hcost.
  destruct (vec_get (m_population s2) i) as [agent| | |]; simpl; try done.
  destruct (vec_set (m_minCostPerAgent s2) i _) as [costs| | |]; simpl; try done.
  apply IH. destruct (_ <? _)%float; repeat split; done.
Qed.

Lemma InitPopulation_same (de1 : DifferentialEvolution Gen1)
    (de2 : DifferentialEvolution Gen2) (s1 : State Gen1) (s2 : State Gen2) :
  same_optimizer R de1 de2 -> same_state R s1 s2 ->
  same_outcome (same_state R) (InitPopulation de1 s1) (InitPopulation de2 s2).
Proof.
  intros (Hcost & Hn & _ & _ & Hk & _ & Hcs & _) (Hg & Hp & Hc & Hb & Hm).
  unfold InitPopulation. rewrite Hn, Hk, Hcs, Hp, Hc, Hb, Hm.
  eapply same_outcome_bind; [by apply init_agents_same|].
  intros [p1 g1'] [p2 g2'] [Hpop Hg']. simpl in Hpop, Hg'. subst p2.
  apply init_costs_same; [done|]. repeat split; done.
Qed.

Lemma draw_donors_same (n : nat) (g1 : Gen1) (g2 : Gen2) :
  R g1 g2 ->
  same_outcome (fun p1 p2 => fst p1 = fst p2 /\ R (snd p1) (snd p2))
               (draw_donors n g1) (draw_donors n g2).
Proof.
  intros Hg. unfold draw_donors.
  destruct (draw_same 0 (double_of_unsigned n) g1 g2 Hg) as (da & ga & ga' & -> & -> & Ha).
  destruct (double_to_int da) as [a| | |]; simpl; try done.
  destruct (draw_same 0 (double_of_unsigned n) ga ga' Ha) as (db & gb & gb' & -> & -> & Hb).
  destruct (double_to_int db) as [b| | |]; simpl; try done.
  destruct (draw_same 0 (double_of_unsigned n) gb gb' Hb) as (dc & gc & gc' & -> & -> & Hc).
  destruct (double_to_int dc) as [c| | |]; simpl; try done.
Qed.

Lemma select_donors_same (fuel n : nat) (x a b c : Z) (g1 : Gen1) (g2 : Gen2) :
  R g1 g2 ->
  same_outcome (fun p1 p2 => fst p1 = fst p2 /\ R (snd p1) (snd p2))
               (select_donors fuel n x a b c g1) (select_donors fuel n x a b c g2).
Proof.
  revert a b c g1 g2. induction fuel as [|fuel IH]; intros a b c g1 g2 Hg; simpl.
  - by destruct (donors_clash x a b c).
  - destruct (donors_clash x a b c); [|done].
    eapply same_outcome_bind; [by apply draw_donors_same|].
    intros [[[a1 b1] c1] g1'] [[[a2 b2] c2] g2'] [[= -> -> ->] Hg']. by apply IH.
Qed.

Lemma draw_r_same (n : nat) (g1 : Gen1) (g2 : Gen2) :
  R g1 g2 ->
  exists r g1' g2', draw_r n g1 = (r, g1') /\ draw_r n g2 = (r, g2') /\ R g1' g2'.
Proof.
  revert g1 g2. induction n as [|n IH]; intros g1 g2 Hg; simpl.
  - by exists [], g1, g2.
  - destruct (draw_same 0 1 g1 g2 Hg) as (v & ga & ga' & -> & -> & Ha).
    destruct (IH ga ga' Ha) as (vs & gb & gb' & -> & -> & Hb).
    by exists (v :: vs), gb, gb'.
Qed.

Section Optimizers.
Variable de1 : DifferentialEvolution Gen1.
Variable de2 : DifferentialEvolution Gen2.
Hypothesis Hde : same_optimizer R de1 de2.

Lemma intermediate_same (population : list (list float)) (a b c : Z) :
  intermediate de1 population a b c = intermediate de2 population a b c.
Proof.
  destruct Hde as (_ & _ & HF & _ & Hk & _).
  unfold intermediate, mutation. by rewrite HF, Hk.
Qed.

Lemma crossing_same (population : list (list float)) (x : nat) (z r : list float)
    (chosen : Z) :
  crossing de1 population x z r chosen = crossing de2 population x z r chosen.
Proof.
  destruct Hde as (_ & _ & _ & HCR & Hk & _).
  unfold crossing. by rewrite HCR, Hk.
Qed.

Lemma make_trial_same (fuel x : nat) (s1 : State Gen1) (s2 : State Gen2) :
  same_state R s1 s2 ->
  same_outcome (same_trial R) (make_trial fuel de1 x s1) (make_trial fuel de2 x s2).
Proof.
  intros (Hg & Hp & _). unfold make_trial.
  rewrite Hp.
  destruct Hde as (_ & Hn & _ & _ & Hk & _). rewrite Hn, Hk.
  eapply same_outcome_bind; [by apply select_donors_same|].
  intros [[[a b] c] g1] [[[a' b'] c'] g2] [[= <- <- <-] Hg1].
  rewrite intermediate_same.
  destruct (intermediate de2 (m_population s2) a b c) as [z| | |]; simpl; try done.
  destruct (draw_same 0 (double_of_unsigned (m_numberOfParameters de2)) g1 g2 Hg1)
    as (dR & ga & ga' & -> & -> & Ha).
  destruct (double_to_int dR) as [chosen| | |]; simpl; try done.
  destruct (draw_r_same (m_numberOfParameters de2) ga ga' Ha)
    as (r & gb & gb' & -> & -> & Hb).
  rewrite crossing_same.
  destruct (crossing de2 (m_population s2) x z r chosen) as [nx| | |]; simpl; try done.
Qed.


Lemma should_skip_same (candidate : list float) :
  should_skip de1 candidate = should_skip de2 candidate.
Proof.
  destruct Hde as (_ & _ & _ & _ & _ & Hcheck & Hcs & _).
  unfold should_skip. by rewrite Hcheck, Hcs.
Qed.

Lemma with_generator_same (s1 : State Gen1) (s2 : State Gen2) (g1 : Gen1) (g2 : Gen2) :
  same_state R s1 s2 -> R g1 g2 ->
  same_state R (with_generator s1 g1) (with_generator s2 g2).
Proof. intros (_ & Hp & Hc & Hb & Hm) Hg. repeat split; done. Qed.

Lemma select_same (x : nat) (candidate : list float) (s1 : State Gen1) (s2 : State Gen2) :
  same_state R s1 s2 ->
  same_outcome (same_state R) (select de1 x candidate s1) (select de2 x candidate s2).
Proof.
  intros (Hg & Hp & Hc & Hb & Hm). destruct Hde as (Hcost & _).
  unfold select. rewrite Hcost, Hp, Hc.
  destruct (vec_get (m_minCostPerAgent s2) x) as [old| | |]; simpl; try done.
  destruct (_ <? old)%float; [|repeat split; done].
  destruct (vec_set (m_population s2) x candidate) as [population| | |]; simpl; try done.
  destruct (vec_set (m_minCostPerAgent s2) x _) as [costs| | |]; simpl; try done.
Qed.

Lemma track_same (x : nat) (s1 : State Gen1) (s2 : State Gen2) (best : float * Z) :
  same_state R s1 s2 -> track x s1 best = track x s2 best.
Proof. intros (_ & _ & Hc & _). unfold track. by rewrite Hc. Qed.

Lemma selection_loop_same (fuel x : nat) (s1 : State Gen1) (s2 : State Gen2)
    (best : float * Z) :
  same_state R s1 s2 ->
  same_outcome (same_state R) (selection_loop fuel de1 x s1 best)
               (selection_loop fuel de2 x s2 best).
Proof.
  pose proof Hde as (_ & Hn & _).
  revert x s1 s2 best. induction fuel as [|fuel IH]; intros x s1 s2 best Hs; simpl;
    rewrite Hn; (destruct (x <? m_populationSize de2)%nat;
                 [|destruct Hs as (? & ? & ? & ? & ?); repeat split; done]);
    [done|].
  eapply same_outcome_bind; [by apply make_trial_same|].
  intros t1 t2 (_ & _ & _ & _ & _ & _ & Hx & Hg).
  rewrite should_skip_same, Hx.
  destruct (should_skip de2 (newX t2)) as [skip| | |]; simpl; try done.
  destruct skip.
  - apply IH. by apply with_generator_same.
  - eapply same_outcome_bind; [apply select_same; by apply with_generator_same|].
    intros s1' s2' Hs'. rewrite (track_same x s1' s2' best Hs').
    destruct (track x s2' best) as [best'| | |]; simpl; try done. by apply IH.
Qed.

Lemma SelectionAndCorssing_same (fuel : nat) (s1 : State Gen1) (s2 : State Gen2) :
  same_state R s1 s2 ->
  same_outcome (same_state R) (SelectionAndCorssing fuel de1 s1)
               (SelectionAndCorssing fuel de2 s2).
Proof.
  intros Hs. unfold SelectionAndCorssing.
  pose proof Hs as (_ & _ & Hc & _). rewrite Hc.
  destruct (vec_get (m_minCostPerAgent s2) 0) as [c0| | |]; simpl; try done.
  by apply selection_loop_same.
Qed.

Lemma print_progress_same (s1 : State Gen1) (s2 : State Gen2) :
  same_state R s1 s2 ->
  same_outcome (same_event R) (print_progress de1 s1) (print_progress de2 s2).
Proof.
  intros (_ & Hp & _ & Hb & Hm). destruct Hde as (_ & _ & _ & _ & Hk & _).
  unfold print_progress. rewrite Hk, Hp, Hb, Hm.
  destruct (for_each _ _) as [agent| | |]; simpl; done.
Qed.

Lemma after_generation_same (verbose : bool) (s1 : State Gen1) (s2 : State Gen2) :
  same_state R s1 s2 ->
  same_outcome (Forall2 (same_event R)) (after_generation de1 verbose s1)
               (after_generation de2 verbose s2).
Proof.
  intros Hs. destruct Hde as (_ & _ & _ & _ & _ & _ & _ & Hcb & _).
  unfold after_generation.
  assert (Forall2 (same_event R)
            (match m_callback de1 with
             | Some f => let _ := f s1 in [CallCallback s1]
             | None => []
             end)
            (match m_callback de2 with
             | Some f => let _ := f s2 in [CallCallback s2]
             | None => []
             end)) as Hcalls.
  { destruct (m_callback de1), (m_callback de2); simpl in *; try done.
    constructor; [exact Hs | constructor]. }
  destruct verbose.
  - pose proof (print_progress_same s1 s2 Hs) as Hprint.
    destruct (print_progress de1 s1), (print_progress de2 s2); simpl in *; try done.
    constructor; [done|]. constructor; [done|]. done.
  - simpl. constructor; [done|]. done.
Qed.

Lemma optimization_loop_same (fuel : nat) (verbose : bool) (n : nat)
    (s1 : State Gen1) (s2 : State Gen2) :
  same_state R s1 s2 ->
  same_outcome (same_run R) (optimization_loop fuel de1 verbose n s1)
               (optimization_loop fuel de2 verbose n s2).
Proof.
  pose proof Hde as (_ & _ & _ & _ & _ & _ & _ & _ & Htc).
  revert s1 s2. induction n as [|n IH]; intros s1 s2 Hs; simpl.
  - split; [done|]. destruct verbose; simpl; by repeat constructor.
  - eapply same_outcome_bind; [by apply SelectionAndCorssing_same|].
    intros t1 t2 Ht.
    eapply same_outcome_bind; [by apply after_generation_same|].
    intros evs1 evs2 Hevs.
    destruct (m_terminationCondition de1) as [tc1|],
             (m_terminationCondition de2) as [tc2|]; simpl in Htc; try done.
    + rewrite (Htc t1 t2 Ht). destruct (tc2 t2).
      * split; [done|]. simpl. apply Forall2_app; [done|].
        constructor; [done|]. destruct verbose; simpl; by repeat constructor.
      * eapply same_outcome_bind; [by apply IH|].
        intros [u1 rest1] [u2 rest2] [Hu Hrest]. split; [done|]. simpl in *.
        apply Forall2_app; [done|]. by constructor.
    + eapply same_outcome_bind; [by apply IH|].
      intros [u1 rest1] [u2 rest2] [Hu Hrest]. split; [done|]. simpl in *.
      by apply Forall2_app.
Qed.

Lemma Optimize_same (fuel : nat) (s1 : State Gen1) (s2 : State Gen2)
    (iterations : Z) (verbose : bool) :
  same_state R s1 s2 ->
  same_outcome (same_run R) (Optimize fuel de1 s1 iterations verbose)
               (Optimize fuel de2 s2 iterations verbose).
Proof.
  intros Hs. unfold Optimize.
  eapply same_outcome_bind; [by apply InitPopulation_same|].
  intros t1 t2 Ht.
  eapply same_outcome_bind; [by apply optimization_loop_same|].
  intros [u1 evs1] [u2 evs2] [Hu Hevs]. split; [done|]. simpl in *. by constructor.
Qed.

End Optimizers.

Lemma same_state_accessors (s1 : State Gen1) (s2 : State Gen2) :
  same_state R s1 s2 ->
  GetBestAgent s1 = GetBestAgent s2 /\ GetBestCost s1 = GetBestCost s2.
Proof.
  intros (_ & Hp & Hc & Hb & _). unfold GetBestAgent, GetBestCost.
  by rewrite Hp, Hc, Hb.
Qed.

Lemma same_events_best_costs (evs1 : list (Event Gen1)) (evs2 : list (Event Gen2)) :
  Forall2 (same_event R) evs1 evs2 ->
  best_cost_sequence evs1 = best_cost_sequence evs2.
Proof.
  induction 1 as [|e1 e2 rest1 rest2 He _ IH]; [done|].
  unfold best_cost_sequence in *. simpl. rewrite IH.
  destruct e1, e2; simpl in He; try done.
  by destruct (same_state_accessors _ _ He) as [_ ->].
Qed.

End SideBySideFacts.

(** One engine against itself: equality of generator states is kept by
    every draw, and every callback answers alike on equal members. *)
Lemma same_draws_eq {Gen : Type} {RE : RandomEngine Gen} :
  same_draws (RE1 := RE) (RE2 := RE) eq.
Proof. by intros a b g1 g2 ->. Qed.

Lemma same_state_eq {Gen : Type} (s1 s2 : State Gen) :
  same_state eq s1 s2 <-> s1 = s2.
Proof.
  split; [|intros ->; repeat split; done].
  destruct s1, s2. intros (Hg & Hp & Hc & Hb & Hm). simpl in *. by subst.
Qed.

Lemma same_observer_eq {Gen A : Type} (f : option (State Gen -> A)) :
  same_observer eq f f.
Proof.
  destruct f as [f|]; simpl; [|done]. intros s1 s2 Hs.
  by apply same_state_eq in Hs as ->.
Qed.


(** The scripted demo engine counts its draws; the cyclic one keeps the
    count below the length of the script.  They draw the same numbers. *)
Lemma demo_engines_draw_alike :
  same_draws (RE1 := demo_engine) (RE2 := demo_cyclic_engine)
             (fun g1 g2 => g2 = (g1 mod length demo_script)%nat).
Proof.
  intros a b g1 g2 ->.
  unfold demo_engine, demo_cyclic_engine, uniform_real_distribution, scripted, cyclic,
    scripted_draw, cyclic_draw.
  generalize demo_script. intros script. cbn [fst snd].
  rewrite Nat.Div0.mod_mod. split; [done|].
  change (S (g1 mod length script)) with (1 + g1 mod length script)%nat.
  change (S g1) with (1 + g1)%nat.
  rewrite (Nat.Div0.add_mod 1 (g1 mod length script)%nat), Nat.Div0.mod_mod.
  by rewrite <- Nat.Div0.add_mod.
Qed.

